(** * Atlas.js : viewport engine, tile cache and gesture motion

    A shallow embedding of the core of [Atlas.js] (projection, viewport
    state, tile layer cache and loading, drag inertia, anchored
    zoom/rotate and fly-to) together with the properties its
    specification states about it.

    Numbers.  JavaScript numbers are modelled as exact numbers: real
    numbers ([R]) wherever the source uses transcendental functions
    ([Math.sin], [Math.log], [Math.atan], [Math.exp], [Math.pow],
    [Math.hypot], [Math.atan2]), rationals ([Q]) for the tile index
    arithmetic of [_getTileUrl], integers for timestamps.  Rounding of
    IEEE doubles, [NaN] and the infinities are outside the model. *)

From Stdlib Require Import Reals ZArith List Bool Psatz.
From Stdlib Require Import Permutation Sorted.
From Stdlib Require Import Zfloor.
From Stdlib Require Import QArith Qround.
From Stdlib Require Import String Ascii DecimalString.
From Stdlib Require DecimalZ.
Import ListNotations.

Local Open Scope R_scope.

(** ** JavaScript numeric primitives over the reals *)

Module JS.

(** [Math.floor], as a real number. *)
Definition Math_floor (x : R) : R := IZR (Zfloor x).



(** [Math.pow(2, z)]. *)
Definition pow2 (z : R) : R := Rpower 2 z.

(** [Math.hypot(x, y)]. *)
Definition hypot (x y : R) : R := sqrt (x * x + y * y).

(** [Math.atan2(y, x)] on real arguments (ECMAScript, 21.3.2.8, without
    the signed-zero and non-finite cases). *)
Definition atan2 (y x : R) : R :=
  if Rlt_dec 0 x then atan (y / x)
  else if Rlt_dec x 0 then
         if Rle_dec 0 y then atan (y / x) + PI else atan (y / x) - PI
  else if Rlt_dec 0 y then PI / 2
  else if Rlt_dec y 0 then - (PI / 2)
  else 0.

(** The comparisons [a < b], [a > b] and [a <= b] as booleans. *)
Definition ltb (a b : R) : bool := if Rlt_dec a b then true else false.
Definition gtb (a b : R) : bool := if Rgt_dec a b then true else false.
Definition leb (a b : R) : bool := if Rle_dec a b then true else false.

End JS.

(** ** Constants (Atlas.js, lines 1-66) *)

Definition EARTH_RADIUS : R := 6378137.
Definition EARTH_CIRCUMFERENCE : R := 2 * PI * EARTH_RADIUS.
Definition MAX_LATITUDE : R := 85.05112878.
Definition MIN_LATITUDE : R := -85.05112878.
Definition TILE_SIZE : R := 256.
Definition TILE_BUFFER : Z := 3.
Definition INERTIA_DECEL : R := 0.0025.
Definition INERTIA_STOP_SPEED : R := 0.02.
Definition VELOCITY_WINDOW_MS : R := 120.
Definition RAD2DEG : R := 180 / PI.
Definition DEG2RAD : R := PI / 180.

(** ** Utility functions (lines 69-76) *)

Definition normalizeAngle (rad : R) : R := JS.atan2 (sin rad) (cos rad).
Definition shortestAngleDiff (from to : R) : R := normalizeAngle (to - from).

Record Point : Type := mkPoint { px : R; py : R }.
Record LatLng : Type := mkLatLng { lat : R; lon : R }.

Definition rot (x y ang : R) : Point :=
  let c := cos ang in
  let s := sin ang in
  mkPoint (x * c - y * s) (x * s + y * c).

(** ** WebMercatorProjection (lines 117-192) *)

Module WebMercatorProjection.

Definition project (latlng : LatLng) : Point :=
  let d := EARTH_RADIUS in
  let maxLat := MAX_LATITUDE in
  let lat := Rmax (Rmin maxLat (lat latlng)) (- maxLat) in
  let sin := sin (lat * DEG2RAD) in
  mkPoint (d * lon latlng * DEG2RAD)
          (d * ln ((1 + sin) / (1 - sin)) / 2).

Definition unproject (point : Point) : LatLng :=
  let d := EARTH_RADIUS in
  mkLatLng ((2 * atan (exp (py point / d)) - PI / 2) * RAD2DEG)
           (px point / d * RAD2DEG).

Definition latLngToTile (latlng : LatLng) (zoom : R) : Point :=
  let scale := JS.pow2 zoom in
  let projected := project latlng in
  mkPoint ((px projected + PI * EARTH_RADIUS) / (2 * PI * EARTH_RADIUS) * scale)
          ((PI * EARTH_RADIUS - py projected) / (2 * PI * EARTH_RADIUS) * scale).

Definition tileToLatLng (x y zoom : R) : LatLng :=
  let scale := JS.pow2 zoom in
  let projected :=
    mkPoint (x / scale * 2 * PI * EARTH_RADIUS - PI * EARTH_RADIUS)
            (PI * EARTH_RADIUS - y / scale * 2 * PI * EARTH_RADIUS) in
  unproject projected.

End WebMercatorProjection.

(** ** GISUtils (lines 201-266) *)

Module GISUtils.

Definition toRadians (d : R) : R := d * PI / 180.
Definition toDegrees (r : R) : R := r * 180 / PI.

(** [while (l > 180) l -= 360;] with an iteration budget. *)
Fixpoint wrap_down (fuel : nat) (l : R) : R :=
  if Rlt_dec 180 l then
    match fuel with
    | O => l
    | S f => wrap_down f (l - 360)
    end
  else l.

(** [while (l < -180) l += 360;] with an iteration budget. *)
Fixpoint wrap_up (fuel : nat) (l : R) : R :=
  if Rlt_dec l (-180) then
    match fuel with
    | O => l
    | S f => wrap_up f (l + 360)
    end
  else l.

(** Number of iterations the two loops run on [l]: the loops are total
    on every real, and these budgets are always enough
    ([wrap_down_exits], [wrap_up_exits]). *)
Definition down_iters (l : R) : nat := Z.to_nat (Zceil ((l - 180) / 360)).
Definition up_iters (l : R) : nat := Z.to_nat (Zceil ((- 180 - l) / 360)).

Definition wrapLongitude (l : R) : R :=
  let l1 := wrap_down (down_iters l) l in
  wrap_up (up_iters l1) l1.

Definition clampLatitude (lat : R) : R :=
  Rmax MIN_LATITUDE (Rmin MAX_LATITUDE lat).

(** [getResolution(lat, z)]: metres per CSS pixel. *)
Definition getResolution (lat z : R) : R :=
  (EARTH_CIRCUMFERENCE * cos (toRadians lat)) / (JS.pow2 z * TILE_SIZE).

End GISUtils.

(** ** Easing functions (lines 59-63) *)

Module EASING.

Definition easeInOutCubic (t : R) : R :=
  if Rlt_dec t 0.5 then 4 * t * t * t else 1 - (-2 * t + 2) ^ 3 / 2.
Definition easeOutCubic (t : R) : R := 1 - (1 - t) ^ 3.
Definition linear (t : R) : R := t.

End EASING.

(** ** The map: viewport state and its writers (class [Atlas]) *)

(** The part of a tile layer's options the viewport reads. *)
Record ZoomRange : Type := mkZoomRange { getMinZoom : R; getMaxZoom : R }.

(** The fields of an [Atlas] instance that the viewport math reads or
    writes.  [canvas_width], [canvas_height] and [dpr] give the CSS pixel
    size [w = canvas.width / dpr], [h = canvas.height / dpr]. *)
Record Atlas : Type := mkAtlas {
  center : LatLng;
  zoom : R;
  bearing : R;
  canvas_width : R;
  canvas_height : R;
  dpr : R;
  _baseLayer : option ZoomRange
}.

Definition set_center (m : Atlas) (c : LatLng) : Atlas :=
  mkAtlas c (zoom m) (bearing m) (canvas_width m) (canvas_height m) (dpr m)
          (_baseLayer m).

(** [this._baseLayer ? this._baseLayer.getMinZoom() : 0] and
    [this._baseLayer ? this._baseLayer.getMaxZoom() : 18]. *)
Definition minZoom (m : Atlas) : R :=
  match _baseLayer m with Some l => getMinZoom l | None => 0 end.
Definition maxZoom (m : Atlas) : R :=
  match _baseLayer m with Some l => getMaxZoom l | None => 18 end.

(** [new Atlas(id, options)] (lines 2896-2902): the part of the
    constructor that initialises the viewport from [CONFIG]. *)
Definition Atlas_constructor (defaultCenter : LatLng) (defaultZoom : R)
    (cw ch dpr0 : R) : Atlas :=
  mkAtlas (mkLatLng (GISUtils.clampLatitude (lat defaultCenter))
                    (GISUtils.wrapLongitude (lon defaultCenter)))
          defaultZoom 0 cw ch dpr0 None.

(** [screenToLatLon(ax, ay, zoom, bearing, center)] (lines 3384-3398) with
    the three optional arguments given explicitly. *)
Definition screenToLatLon_at (m : Atlas) (ax ay zoom bearing : R)
    (center : LatLng) : LatLng :=
  let w := canvas_width m / dpr m in
  let h := canvas_height m / dpr m in
  let zInt := JS.Math_floor zoom in
  let ts := TILE_SIZE * JS.pow2 (zoom - zInt) in
  let ct := WebMercatorProjection.latLngToTile center zInt in
  let anchorVec := mkPoint (ax - w / 2) (ay - h / 2) in
  let v := rot (px anchorVec / ts) (py anchorVec / ts) (- bearing) in
  let tpt := mkPoint (px ct + px v) (py ct + py v) in
  let ll := WebMercatorProjection.tileToLatLng (px tpt) (py tpt) zInt in
  mkLatLng (GISUtils.clampLatitude (lat ll)) (GISUtils.wrapLongitude (lon ll)).

(** [screenToLatLon(ax, ay)] with the defaults [this.zoom],
    [this.bearing], [this.center]. *)
Definition screenToLatLon (m : Atlas) (ax ay : R) : LatLng :=
  screenToLatLon_at m ax ay (zoom m) (bearing m) (center m).




(** [applyZoomRotateAbout(ax, ay, newZoom, newBearing, anchorLL = null)]
    (lines 3432-3452).  [zoomRotate_newCenter] is the constant [newCenter]
    of the source, computed from the clamped zoom, the target bearing and
    the anchor coordinate [currAnchorLL]; [zoomRotate_anchor] is
    [anchorLL || this.screenToLatLon(...)]. *)
Definition zoomRotate_anchor (m : Atlas) (ax ay : R)
    (anchorLL : option LatLng) : LatLng :=
  match anchorLL with
  | Some ll => ll
  | None => screenToLatLon_at m ax ay (zoom m) (bearing m) (center m)
  end.

Definition zoomRotate_newCenter (m : Atlas) (ax ay newZoom newBearing : R)
    (currAnchorLL : LatLng) : LatLng :=
  let w := canvas_width m / dpr m in
  let h := canvas_height m / dpr m in
  let anchorVec := mkPoint (ax - w / 2) (ay - h / 2) in
  let zInt := JS.Math_floor newZoom in
  let ts := TILE_SIZE * JS.pow2 (newZoom - zInt) in
  let Ptile := WebMercatorProjection.latLngToTile currAnchorLL zInt in
  let v := rot (px anchorVec / ts) (py anchorVec / ts) (- newBearing) in
  let ctNew := mkPoint (px Ptile - px v) (py Ptile - py v) in
  WebMercatorProjection.tileToLatLng (px ctNew) (py ctNew) zInt.

Definition applyZoomRotateAbout (m : Atlas) (ax ay newZoom newBearing : R)
    (anchorLL : option LatLng) : Atlas :=
  let newZoom := Rmax (minZoom m) (Rmin (maxZoom m) newZoom) in
  let currAnchorLL := zoomRotate_anchor m ax ay anchorLL in
  let newCenter := zoomRotate_newCenter m ax ay newZoom newBearing currAnchorLL in
  mkAtlas (mkLatLng (GISUtils.clampLatitude (lat newCenter))
                    (GISUtils.wrapLongitude (lon newCenter)))
          newZoom (normalizeAngle newBearing)
          (canvas_width m) (canvas_height m) (dpr m) (_baseLayer m).

(** *** [flyTo] (lines 3532-3570) *)



(** [v || d] for an object or a function [v]. *)
Definition obj_or {A : Type} (v : option A) (d : A) : A :=
  match v with Some x => x | None => d end.






(** [addLayer(layer)] (lines 3002-3017), for a tile layer: the layer
    becomes the base layer when the map has none.  The zoom is left as
    it is. *)
Definition addLayer (m : Atlas) (l : ZoomRange) : Atlas :=
  match _baseLayer m with
  | None => mkAtlas (center m) (zoom m) (bearing m) (canvas_width m)
                    (canvas_height m) (dpr m) (Some l)
  | Some _ => m
  end.

(** *** Viewport states and their invariant *)



(** ** Strings *)

Module JSString.

Local Open Scope string_scope.

(** [s] without its first [n] characters. *)
Fixpoint drop (n : nat) (s : string) : string :=
  match n, s with
  | O, _ => s
  | S n', String _ s' => drop n' s'
  | S _, EmptyString => EmptyString
  end.

(** [s.includes(pat)]. *)
Fixpoint includes (pat s : string) : bool :=
  if prefix pat s then true
  else match s with
       | EmptyString => false
       | String _ s' => includes pat s'
       end.

(** [s.replace(pat, rep)] for a string pattern: the first occurrence of
    [pat], if any, is replaced ([rep] holds no [$] pattern here). *)
Fixpoint replace (pat rep s : string) : string :=
  if prefix pat s then rep ++ drop (String.length pat) s
  else match s with
       | EmptyString => EmptyString
       | String c s' => String c (replace pat rep s')
       end.

(** [String(n)] for an integer [n]. *)
Definition of_Z (n : Z) : string := NilZero.string_of_int (Z.to_int n).

(** A text is inert for the letter [c] when no ["{"] in it is followed by
    [c] and its last character is not ["{"]: wherever it is placed, no
    occurrence of the placeholder ["{c}"] starts inside it. *)
Fixpoint inert_for (c : ascii) (s : string) : bool :=
  match s with
  | EmptyString => true
  | String a s' =>
      (if Ascii.eqb a "{"
       then match s' with
            | EmptyString => false
            | String d _ => negb (Ascii.eqb d c)
            end
       else true) && inert_for c s'
  end.

(** Inert for the three letters of the tile placeholders. *)
Definition inert (s : string) : bool :=
  inert_for "z" s && inert_for "x" s && inert_for "y" s.

(** No occurrence of [pat] starts inside [pre] in the text [pre ++ rest]. *)
Fixpoint starts_none (pat pre rest : string) : bool :=
  match pre with
  | EmptyString => true
  | String c pre' => negb (prefix pat (String c (pre' ++ rest)))
                     && starts_none pat pre' rest
  end.

(** A text without any opening brace, such as a decimal numeral. *)
Fixpoint brace_free (s : string) : bool :=
  match s with
  | EmptyString => true
  | String a s' => negb (Ascii.eqb a "{") && brace_free s'
  end.

(** A text in which the character [c] does not occur. *)
Fixpoint char_free (c : ascii) (s : string) : bool :=
  match s with
  | EmptyString => true
  | String a s' => negb (Ascii.eqb a c) && char_free c s'
  end.

(** The placeholder ["{c}"]. *)
Definition placeholder (c : ascii) : string :=
  String "{" (String c (String "}" EmptyString)).

(** A text that is not empty and holds none of the characters of the
    tile placeholders, such as a decimal numeral. *)
Definition plain (s : string) : bool :=
  negb (String.eqb s "") && brace_free s && char_free "}" s
  && char_free "z" s && char_free "x" s && char_free "y" s.

(** [s.replace("{c}", v)] when a value [v] is given, [s] otherwise. *)
Definition replace_opt (c : ascii) (v : option string) (s : string) : string :=
  match v with
  | Some rep => replace (placeholder c) rep s
  | None => s
  end.

(** The substitution as the specification words it, in one pass over the
    template from left to right: the first occurrence met of each of the
    placeholders [{z}], [{x}] and [{y}] is replaced by its value, and
    everything else is copied.  [vz], [vx] and [vy] hold the values not
    yet written; [skip] is the number of characters of a placeholder
    still to be passed over. *)
Fixpoint fill_first (skip : nat) (vz vx vy : option string) (t : string)
    : string :=
  match t with
  | EmptyString => EmptyString
  | String c t' =>
      match skip with
      | S k => fill_first k vz vx vy t'
      | O =>
          match (if prefix "{z}" t then vz else None) with
          | Some v => v ++ fill_first 2 None vx vy t'
          | None =>
              match (if prefix "{x}" t then vx else None) with
              | Some v => v ++ fill_first 2 vz None vy t'
              | None =>
                  match (if prefix "{y}" t then vy else None) with
                  | Some v => v ++ fill_first 2 vz vx None t'
                  | None => String c (fill_first 0 vz vx vy t')
                  end
              end
          end
      end
  end.

End JSString.

(** ** Tile layer (class [TileLayer], lines 372-700) *)

Module TileLayer.

(** [CONFIG.retina]: [true], ["auto"], or any other value. *)
Inductive RetinaMode : Type := RetinaTrue | RetinaAuto | RetinaOther.

(** What [_getTileUrl] reads outside the layer: [CONFIG.retina],
    [CONFIG.retinaSuffix] and [window.devicePixelRatio] ([None] when it is
    undefined). *)
Record Env : Type := mkEnv {
  CONFIG_retina : RetinaMode;
  CONFIG_retinaSuffix : string;
  devicePixelRatio : option Q
}.

(** A tile record of the cache.  [tile_id] stands for the identity of the
    JavaScript object: the closure of the load that created the record
    holds the same object. *)
Record Tile : Type := mkTile {
  tile_id : nat;
  loaded : bool;
  loadedAt : Z;
  lastUsed : Z
}.

Inductive PromiseState : Type := Pending | Fulfilled | Rejected.

(** The closure of one activation of [_loadTile] that got past the cache
    guard: its [key] and [url] parameters, the current [img.src], whether
    the image is loading (a load was started by an assignment to [img.src]
    and neither [onload] nor [onerror] has been delivered for it yet),
    [signal.aborted], whether the timeout is armed, and the state of the
    promise the activation returned. *)
Record Load : Type := mkLoad {
  load_key : string;
  load_url : string;
  img_src : string;
  img_loading : bool;
  aborted : bool;
  timer_armed : bool;
  promise : PromiseState
}.

Inductive ErrorCause : Type := CauseTimeout | CauseError.

Inductive LayerEvent : Type :=
  | tileload (tile url : string)
  | tileerror (tile url : string) (cause : ErrorCause)
  | layer_remove.

(** The layer: its options, its three containers (the [Map]s and the
    [Set] keep insertion order), the closures of the loads started so far
    (a load's index is its identity), and the events fired so far, latest
    first. *)
Record Layer : Type := mkLayer {
  urlTemplate : string;
  supportsRetina : bool;
  maxCacheSize : nat;
  _retinaAvailable : bool;
  tileCache : list (string * Tile);
  loadingTiles : list string;
  loadingControllers : list (string * nat);
  loads : list Load;
  fired : list LayerEvent
}.

(** [new TileLayer(urlTemplate, options)]. *)
Definition new (template : string) (retina : bool) (maxCache : nat) : Layer :=
  mkLayer template retina maxCache true [] [] [] [] [].

(** *** Containers *)

Definition map_has {A : Type} (k : string) (m : list (string * A)) : bool :=
  existsb (fun e => String.eqb (fst e) k) m.

Definition map_get {A : Type} (k : string) (m : list (string * A)) : option A :=
  option_map snd (find (fun e => String.eqb (fst e) k) m).

Definition map_delete {A : Type} (k : string) (m : list (string * A))
    : list (string * A) :=
  filter (fun e => negb (String.eqb (fst e) k)) m.

(** [Map.prototype.set]: an existing key keeps its place. *)
Definition map_set {A : Type} (k : string) (v : A) (m : list (string * A))
    : list (string * A) :=
  if map_has k m
  then map (fun e => if String.eqb (fst e) k then (k, v) else e) m
  else m ++ [(k, v)].

Definition set_has (k : string) (s : list string) : bool :=
  existsb (String.eqb k) s.
Definition set_add (k : string) (s : list string) : list string :=
  if set_has k s then s else s ++ [k].
Definition set_delete (k : string) (s : list string) : list string :=
  filter (fun x => negb (String.eqb x k)) s.

(** *** [_getTileUrl] and [_shouldRequestRetina] (lines 396-413) *)

Definition Qtrunc (q : Q) : Z :=
  if Qle_bool 0 q then Qfloor q else Qceiling q.

(** The remainder operator [a % n] on exact rationals. *)
Definition Qrem (a n : Q) : Q := (a - n * inject_Z (Qtrunc (a / n)))%Q.

(** [Math.pow(2, z)] for an integer zoom [z >= 0]. *)
Definition scale_of (z : nat) : Z := (2 ^ Z.of_nat z)%Z.

(** The constants [intX] and [intY] of [_getTileUrl]. *)
Definition intX (x : Q) (z : nat) : Z :=
  let scale := inject_Z (scale_of z) in
  let wrappedX := Qrem (Qrem x scale + scale) scale in
  Qfloor wrappedX.

Definition intY (y : Q) (z : nat) : Z :=
  let scale := scale_of z in
  Z.max 0 (Z.min (scale - 1) (Qfloor y)).

(** The constant [want] of [_shouldRequestRetina]:
    [mode === true || (mode === "auto" && (devicePixelRatio || 1) > 1.5)]. *)
Definition want (env : Env) : bool :=
  let dprv := match devicePixelRatio env with
              | Some d => if Qeq_bool d 0 then 1%Q else d
              | None => 1%Q
              end in
  match CONFIG_retina env with
  | RetinaTrue => true
  | RetinaAuto => negb (Qle_bool dprv (3 # 2))
  | RetinaOther => false
  end.

Definition _shouldRequestRetina (env : Env) (l : Layer) : bool :=
  want env && _retinaAvailable l.

Definition _getTileUrl (env : Env) (l : Layer) (x y : Q) (z : nat) : string :=
  let url :=
    JSString.replace "{y}" (JSString.of_Z (intY y z))
      (JSString.replace "{x}" (JSString.of_Z (intX x z))
         (JSString.replace "{z}" (JSString.of_Z (Z.of_nat z)) (urlTemplate l))) in
  if supportsRetina l && _shouldRequestRetina env l
  then (url ++ CONFIG_retinaSuffix env)%string
  else url.

(** What [_getTileUrl] appends to the substituted template: the suffix or
    nothing. *)
Definition suffix_of (env : Env) (l : Layer) : string :=
  if supportsRetina l && (_retinaAvailable l && want env)
  then CONFIG_retinaSuffix env else "".

(** *** [_loadTile] (lines 415-489) *)

(** A write to the variables of the closure [id]. *)
Fixpoint update_load (id : nat) (f : Load -> Load) (ls : list Load) : list Load :=
  match ls, id with
  | [], _ => []
  | ld :: rest, O => f ld :: rest
  | ld :: rest, S n => ld :: update_load n f rest
  end.

(** A write to a field of the tile object [id]: it shows in the cache when
    that object is still a value of the cache. *)
Definition update_tile (id : nat) (f : Tile -> Tile) (c : list (string * Tile))
    : list (string * Tile) :=
  map (fun e => if Nat.eqb (tile_id (snd e)) id then (fst e, f (snd e)) else e) c.

Definition set_loads (l : Layer) (ls : list Load) : Layer :=
  mkLayer (urlTemplate l) (supportsRetina l) (maxCacheSize l)
          (_retinaAvailable l) (tileCache l) (loadingTiles l)
          (loadingControllers l) ls (fired l).

Definition set_tileCache (l : Layer) (c : list (string * Tile)) : Layer :=
  mkLayer (urlTemplate l) (supportsRetina l) (maxCacheSize l)
          (_retinaAvailable l) c (loadingTiles l)
          (loadingControllers l) (loads l) (fired l).

(** [loadingTiles.delete(key); loadingControllers.delete(key)]. *)
Definition forget_loading (key : string) (l : Layer) : Layer :=
  mkLayer (urlTemplate l) (supportsRetina l) (maxCacheSize l)
          (_retinaAvailable l) (tileCache l) (set_delete key (loadingTiles l))
          (map_delete key (loadingControllers l)) (loads l) (fired l).

Definition fire (e : LayerEvent) (l : Layer) : Layer :=
  mkLayer (urlTemplate l) (supportsRetina l) (maxCacheSize l)
          (_retinaAvailable l) (tileCache l) (loadingTiles l)
          (loadingControllers l) (loads l) (e :: fired l).

Definition settle (st : PromiseState) (ld : Load) : Load :=
  mkLoad (load_key ld) (load_url ld) (img_src ld) (img_loading ld) (aborted ld)
         (timer_armed ld)
         (match promise ld with Pending => st | settled => settled end).

(** What a call of [_loadTile] hands back: the cached record, or the
    promise of the load it has just started. *)
Inductive Returned : Type :=
  | Cached (t : Tile)
  | Loading (id : nat).

(** The synchronous part of [_loadTile(key, url)], run at time [now]: the
    cache guard, then the creation of the controller, the image and the
    pending record, the arming of the timeout and [img.src = url]. *)
Definition _loadTile (key url : string) (now : Z) (l : Layer) : Layer * Returned :=
  match map_get key (tileCache l) with
  | Some t => (l, Cached t)
  | None =>
      let id := List.length (loads l) in
      let tile := mkTile id false now now in
      (mkLayer (urlTemplate l) (supportsRetina l) (maxCacheSize l)
               (_retinaAvailable l)
               (map_set key tile (tileCache l))
               (set_add key (loadingTiles l))
               (map_set key id (loadingControllers l))
               (loads l ++ [mkLoad key url url true false true Pending])
               (fired l),
       Loading id)
  end.

(** The [setTimeout] callback of load [id]; it runs only while the timeout
    is armed. *)
Definition on_timeout (id : nat) (l : Layer) : Layer :=
  match nth_error (loads l) id with
  | Some ld =>
      if timer_armed ld then
        let disarm ld := mkLoad (load_key ld) (load_url ld) (img_src ld)
                                (img_loading ld) (aborted ld) false (promise ld) in
        if set_has (load_key ld) (loadingTiles l) then
          let abort ld := mkLoad (load_key ld) (load_url ld) (img_src ld)
                                 (img_loading ld) true false (promise ld) in
          let l1 := forget_loading (load_key ld) l in
          let l2 := set_tileCache l1 (map_delete (load_key ld) (tileCache l1)) in
          let l3 := fire (tileerror (load_key ld) (load_url ld) CauseTimeout) l2 in
          set_loads l3 (update_load id (fun ld => settle Rejected (abort ld)) (loads l3))
        else set_loads l (update_load id disarm (loads l))
      else l
  | None => l
  end.

(** [img.onload] of load [id] at time [now]; the browser delivers it only
    for an image that is loading. *)
Definition img_onload (id : nat) (now : Z) (l : Layer) : Layer :=
  match nth_error (loads l) id with
  | Some ld =>
      if img_loading ld then
        let done ld := mkLoad (load_key ld) (load_url ld) (img_src ld)
                              false (aborted ld) false (promise ld) in
        let l1 := set_tileCache l
                    (update_tile id (fun t => mkTile (tile_id t) true now (lastUsed t))
                                 (tileCache l)) in
        let l2 := forget_loading (load_key ld) l1 in
        let l3 := fire (tileload (load_key ld) (load_url ld)) l2 in
        set_loads l3 (update_load id (fun ld => settle Fulfilled (done ld)) (loads l3))
      else l
  | None => l
  end.

(** [img.onerror] of load [id]; delivered only for an image that is
    loading. *)
Definition img_onerror (env : Env) (id : nat) (l : Layer) : Layer :=
  match nth_error (loads l) id with
  | Some ld =>
      if img_loading ld then
        let failed ld := mkLoad (load_key ld) (load_url ld) (img_src ld)
                                false (aborted ld) false (promise ld) in
        if aborted ld then set_loads l (update_load id failed (loads l))
        else if supportsRetina l
                && JSString.includes (CONFIG_retinaSuffix env) (load_url ld) then
          let retry ld :=
            mkLoad (load_key ld) (load_url ld)
                   (JSString.replace (CONFIG_retinaSuffix env) "" (load_url ld))
                   true (aborted ld) false (promise ld) in
          mkLayer (urlTemplate l) (supportsRetina l) (maxCacheSize l) false
                  (tileCache l) (loadingTiles l) (loadingControllers l)
                  (update_load id retry (loads l)) (fired l)
        else
          let l1 := forget_loading (load_key ld) l in
          let l2 := fire (tileerror (load_key ld) (load_url ld) CauseError) l1 in
          set_loads l2 (update_load id (fun ld => settle Rejected (failed ld)) (loads l2))
      else l
  | None => l
  end.

(** The part of [render] that marks a drawn tile as used (line 637). *)
Definition touch (key : string) (now : Z) (l : Layer) : Layer :=
  set_tileCache l
    (map (fun e => if String.eqb (fst e) key && loaded (snd e)
                   then (fst e, mkTile (tile_id (snd e)) (loaded (snd e))
                                       (loadedAt (snd e)) now)
                   else e) (tileCache l)).

(** *** [_performEviction] (lines 536-544) *)

(** [entries.sort((a, b) => a[1].lastUsed - b[1].lastUsed)]: the stable
    ascending sort by [lastUsed]. *)
Fixpoint insert_entry (e : string * Tile) (es : list (string * Tile))
    : list (string * Tile) :=
  match es with
  | [] => [e]
  | x :: r => if (lastUsed (snd e) <=? lastUsed (snd x))%Z then e :: x :: r
              else x :: insert_entry e r
  end.

Definition sort_entries (es : list (string * Tile)) : list (string * Tile) :=
  fold_right insert_entry [] es.

(** The order the comparator sorts by. *)
Definition older (a b : string * Tile) : Prop :=
  (lastUsed (snd a) <= lastUsed (snd b))%Z.

(** [for (i < removeCount) this.tileCache.delete(entries[i][0])]. *)
Definition delete_keys (ks : list string) (c : list (string * Tile))
    : list (string * Tile) :=
  fold_left (fun c k => map_delete k c) ks c.

Definition evicted (l : Layer) : list (string * Tile) :=
  let entries := sort_entries (tileCache l) in
  let removeCount := (List.length (tileCache l) - maxCacheSize l)%nat in
  firstn removeCount entries.

Definition _performEviction (l : Layer) : Layer :=
  if (List.length (tileCache l) <=? maxCacheSize l)%nat then l
  else set_tileCache l (delete_keys (map fst (evicted l)) (tileCache l)).

(** [onRemove] (lines 659-667). *)
Definition onRemove (l : Layer) : Layer :=
  let controllers := map snd (loadingControllers l) in
  let abort p :=
    let ld := snd p in
    if existsb (Nat.eqb (fst p)) controllers
    then mkLoad (load_key ld) (load_url ld) (img_src ld) (img_loading ld) true
                (timer_armed ld) (promise ld)
    else ld in
  mkLayer (urlTemplate l) (supportsRetina l) (maxCacheSize l)
          (_retinaAvailable l) [] [] []
          (map abort (combine (seq 0 (List.length (loads l))) (loads l)))
          (layer_remove :: fired l).

(** *** The tile grid of [render] (lines 581-617) *)

(** An element [{ X, Y, dist }] of the array [tiles]. *)
Record GridTile : Type := mkGridTile {
  grid_X : Z;
  grid_Y : Z;
  grid_dist : R
}.

(** The constants [zInt], [scaleFactor], [ct], [cols], [rows], [startX]
    and [startY] of [render] on the map [m]. *)
Definition grid_zInt (m : Atlas) : Z := Zfloor (zoom m).

Definition grid_scaleFactor (m : Atlas) : R :=
  JS.pow2 (zoom m - IZR (grid_zInt m)).

Definition grid_ct (m : Atlas) : Point :=
  let wrappedCenterLon := GISUtils.wrapLongitude (lon (center m)) in
  WebMercatorProjection.latLngToTile
    (mkLatLng (lat (center m)) wrappedCenterLon) (IZR (grid_zInt m)).

Definition grid_cols (m : Atlas) : Z :=
  let w := canvas_width m / dpr m in
  let h := canvas_height m / dpr m in
  let ts := TILE_SIZE in
  let absCos := Rabs (cos (bearing m)) in
  let absSin := Rabs (sin (bearing m)) in
  let needW := w * absCos + h * absSin in
  (Zceil (needW / (ts * grid_scaleFactor m)) + TILE_BUFFER)%Z.

Definition grid_rows (m : Atlas) : Z :=
  let w := canvas_width m / dpr m in
  let h := canvas_height m / dpr m in
  let ts := TILE_SIZE in
  let absCos := Rabs (cos (bearing m)) in
  let absSin := Rabs (sin (bearing m)) in
  let needH := w * absSin + h * absCos in
  (Zceil (needH / (ts * grid_scaleFactor m)) + TILE_BUFFER)%Z.

Definition grid_startX (m : Atlas) : Z :=
  Zfloor (px (grid_ct m) - IZR (grid_cols m) / 2).

Definition grid_startY (m : Atlas) : Z :=
  Zfloor (py (grid_ct m) - IZR (grid_rows m) / 2).

(** The values [0, 1, ..., n - 1] of a loop counter. *)
Definition range (n : Z) : list Z := map Z.of_nat (seq 0 (Z.to_nat n)).

(** The two nested loops that fill [tiles]: the rows outside
    [0 <= Y < maxTileY] are skipped. *)
Definition grid_tiles (m : Atlas) : list GridTile :=
  let cols := grid_cols m in
  let rows := grid_rows m in
  let startX := grid_startX m in
  let startY := grid_startY m in
  let maxTileY := JS.pow2 (IZR (grid_zInt m)) in
  flat_map (fun dx =>
    flat_map (fun dy =>
      let X := (startX + dx)%Z in
      let Y := (startY + dy)%Z in
      if JS.ltb (IZR Y) 0 || JS.leb maxTileY (IZR Y) then []
      else [mkGridTile X Y (JS.hypot (IZR dx - IZR cols / 2)
                                     (IZR dy - IZR rows / 2))])
      (range rows))
    (range cols).

(** [tiles.sort((a, b) => a.dist - b.dist)]: the stable ascending sort by
    [dist]. *)
Fixpoint insert_tile (e : GridTile) (es : list GridTile) : list GridTile :=
  match es with
  | [] => [e]
  | t :: r => if JS.leb (grid_dist e) (grid_dist t) then e :: t :: r
              else t :: insert_tile e r
  end.

Definition sort_tiles (es : list GridTile) : list GridTile :=
  fold_right insert_tile [] es.

(** The tiles [render] goes through, in its order: nearest to the centre
    of the grid first. *)
Definition render_tiles (m : Atlas) : list GridTile :=
  sort_tiles (grid_tiles m).

(** The cache key [`${zInt}/${X}/${Y}`] of [render] (line 627) and
    [_preloadAdjacentZoomTiles] (line 571). *)
Definition tile_key (z X Y : Z) : string :=
  (JSString.of_Z z ++ "/" ++ JSString.of_Z X ++ "/" ++ JSString.of_Z Y)%string.

(** *** Observers *)

(** The loads of [key] whose image is loading. *)
Definition in_flight (key : string) (l : Layer) : list Load :=
  filter (fun ld => String.eqb (load_key ld) key && img_loading ld) (loads l).

(** The number of loads ever started for [key] ([img.src = url] in
    [_loadTile]). *)
Definition started (key : string) (l : Layer) : nat :=
  List.length (filter (fun ld => String.eqb (load_key ld) key) (loads l)).

End TileLayer.

(** ** Drag inertia ([DragPanHandler._startInertia], lines 1871-1898) *)

Module DragPanHandler.

(** A callback registered with [requestAnimationFrame]: the draw that
    [scheduleRender] registers, or the [step] closure of the inertia. *)
Inductive Callback : Type := CbDraw | CbStep.

(** The variables captured by the [step] closure ([vx], [vy]), the map
    it writes, whether a frame of the inertia is pending ([_inertiaRAF] is
    non-null), the [renderScheduled] flag of the map, the callbacks
    registered for the next animation frame in the order of their
    registration, and the number of [moveend] events fired on the map so
    far.  [in_draws], [in_frames], [in_elapsed] and [in_distance] are
    observers that are not in the source: the number of runs of [_draw],
    the number of runs of [step], the sum of their [dt], and the screen
    distance panned, the sum of [hypot(dx, dy)]. *)
Record InertiaState : Type := mkInertia {
  in_map : Atlas;
  in_vx : R;
  in_vy : R;
  in_pending : bool;
  in_renderScheduled : bool;
  in_queue : list Callback;
  in_moveend : nat;
  in_draws : nat;
  in_frames : nat;
  in_elapsed : R;
  in_distance : R
}.

Definition speed (s : InertiaState) : R := JS.hypot (in_vx s) (in_vy s).

(** [_startInertia(vx, vy)] on a map on which no draw is scheduled: it
    returns without scheduling anything when the speed is below the stop
    speed; otherwise it requests the first frame. *)
Definition _startInertia (m : Atlas) (vx vy : R) : option InertiaState :=
  let speed := JS.hypot vx vy in
  if Rlt_dec speed INERTIA_STOP_SPEED then None
  else Some (mkInertia m vx vy true false [CbStep] 0 0 0 0 0).


(** [this._map.render()], which is [scheduleRender()] (lines 3281-3295):
    unless a draw is scheduled already, the flag is set and the draw is
    registered for the next animation frame.  The result is the queue; the
    flag is set afterwards in any case. *)
Definition render_queue (scheduled : bool) (q : list Callback) : list Callback :=
  if scheduled then q else q ++ [CbDraw].

(** The callback registered by [scheduleRender]: it clears
    [renderScheduled] and runs [_draw], which ends with
    [this.fire('moveend')] (line 3331). *)
Definition draw (s : InertiaState) : InertiaState :=
  mkInertia (in_map s) (in_vx s) (in_vy s) (in_pending s) false (in_queue s)
            (S (in_moveend s)) (S (in_draws s)) (in_frames s)
            (in_elapsed s) (in_distance s).

(** One run of [step], [dt = now - lastT] milliseconds after the previous
    one.  Both branches call [this._map.render()]; the branch that ends the
    inertia then fires [moveend], the other registers [step] again. *)
Definition step (dt : R) (s : InertiaState) : InertiaState :=
  let vx := in_vx s in
  let vy := in_vy s in
  let m := in_map s in
  let dx := vx * dt in
  let dy := vy * dt in
  let w := canvas_width m / dpr m in
  let h := canvas_height m / dpr m in
  let m' := set_center m (screenToLatLon m (w / 2 - dx) (h / 2 - dy)) in
  let vmag := JS.hypot vx vy in
  let newVmag := Rmax 0 (vmag - INERTIA_DECEL * dt) in
  let q := render_queue (in_renderScheduled s) (in_queue s) in
  if Rle_dec newVmag INERTIA_STOP_SPEED then
    mkInertia m' vx vy false true q (S (in_moveend s)) (in_draws s)
              (S (in_frames s)) (in_elapsed s + dt)
              (in_distance s + JS.hypot dx dy)
  else
    let k := newVmag / (if Req_dec_T vmag 0 then 1 else vmag) in
    mkInertia m' (vx * k) (vy * k) true true (q ++ [CbStep]) (in_moveend s)
              (in_draws s) (S (in_frames s)) (in_elapsed s + dt)
              (in_distance s + JS.hypot dx dy).

Definition run_callback (dt : R) (s : InertiaState) (cb : Callback)
    : InertiaState :=
  match cb with
  | CbDraw => draw s
  | CbStep => step dt s
  end.

(** An animation frame: the browser runs the callbacks that were
    registered before the frame, in the order of their registration; the
    callbacks they register wait for the next frame. *)
Definition frame (dt : R) (s : InertiaState) : InertiaState :=
  fold_left (run_callback dt) (in_queue s)
    (mkInertia (in_map s) (in_vx s) (in_vy s) (in_pending s)
               (in_renderScheduled s) [] (in_moveend s) (in_draws s)
               (in_frames s) (in_elapsed s) (in_distance s)).





(** *** The velocity at release (lines 1828-1869) *)

(** An element [{ t, x, y }] of [_moveSamples]. *)
Record Sample : Type := mkSample {
  sample_t : R;
  sample_x : R;
  sample_y : R
}.

(** [while (samples.length && samples[0].t < cutoff) samples.shift()]. *)
Fixpoint shift_old (cutoff : R) (samples : list Sample) : list Sample :=
  match samples with
  | [] => []
  | s :: rest =>
      if Rlt_dec (sample_t s) cutoff then shift_old cutoff rest else s :: rest
  end.

(** [_pushVelocitySample(x, y)] when [performance.now()] is [now]. *)
Definition _pushVelocitySample (now x y : R) (samples : list Sample)
    : list Sample :=
  let t := now in
  let samples := samples ++ [mkSample t x y] in
  let cutoff := t - VELOCITY_WINDOW_MS in
  shift_old cutoff samples.

(** The loop [while (i > 0 && last.t - samples[i].t <
    VELOCITY_WINDOW_MS * 0.5) i--] of [_computeVelocity], read on the
    samples before the last one, latest first: [s] is [samples[i]] and
    [older] holds the samples before it.  The result is [ref]. *)
Fixpoint find_ref (last_t : R) (s : Sample) (older : list Sample) : Sample :=
  match older with
  | [] => s
  | s' :: older' =>
      if Rlt_dec (last_t - sample_t s) (VELOCITY_WINDOW_MS * 0.5)
      then find_ref last_t s' older'
      else s
  end.

(** [_computeVelocity()]: the pair [(vx, vy)]. *)
Definition _computeVelocity (samples : list Sample) : R * R :=
  match rev samples with
  | last :: s :: older =>
      let ref := find_ref (sample_t last) s older in
      let dt := Rmax 1 (sample_t last - sample_t ref) in
      ((sample_x last - sample_x ref) / dt, (sample_y last - sample_y ref) / dt)
  | _ => (0, 0)
  end.

(** [_startDrag(clientX, clientY)]: the new value of [_moveSamples]. *)
Definition _startDrag (now clientX clientY : R) : list Sample :=
  _pushVelocitySample now clientX clientY [].

(** [_endDrag()] of a drag in progress: the inertia it starts, if any. *)
Definition _endDrag (m : Atlas) (samples : list Sample) : option InertiaState :=
  let v := _computeVelocity samples in
  _startInertia m (fst v) (snd v).




End DragPanHandler.

(** *** Concrete views used in the examples below *)

(** A 1024 x 512 canvas at device pixel ratio 1 showing the whole world
    (zoom 0) north-up, centred on latitude 0, longitude 0, before any
    layer is attached. *)
Definition world_view : Atlas :=
  mkAtlas (mkLatLng 0 0) 0 0 1024 512 1 None.

(** [new Atlas("map", {defaultCenter: {lat: 0, lon: 179}, defaultZoom: 3})]
    on a 1024 x 512 canvas: a view one degree west of the antimeridian. *)
Definition dateline_view : Atlas :=
  Atlas_constructor (mkLatLng 0 179) 3 1024 512 1.




(** *** Concrete layers and environments used in the examples below *)

(** [CONFIG.retina = "auto"], [CONFIG.retinaSuffix = "@2x"], on a display
    with the given device pixel ratio. *)
Definition auto_env (ratio : Q) : TileLayer.Env :=
  TileLayer.mkEnv TileLayer.RetinaAuto "@2x" (Some ratio).



(** [TILE_LAYERS.OSM] when the random subdomain is ["a"], and
    [TILE_LAYERS.ESRI] (lines 3620-3633). *)
Definition OSM_layer : TileLayer.Layer :=
  TileLayer.new "https://a.tile.openstreetmap.org/{z}/{x}/{y}.png" true 500.
Definition ESRI_layer : TileLayer.Layer :=
  TileLayer.new
    "https://server.arcgisonline.com/ArcGIS/rest/services/World_Imagery/MapServer/tile/{z}/{y}/{x}"
    false 400.

(** A cache of five loaded tiles in a layer that keeps three: tiles [t1]
    to [t5] were inserted in this order and last drawn at the times
    50, 10, 40, 10 and 30. *)
Definition crowded_layer : TileLayer.Layer :=
  TileLayer.mkLayer "https://a.tile.openstreetmap.org/{z}/{x}/{y}.png" true 3 true
    [("3/0/0", TileLayer.mkTile 0 true 1 50); ("3/1/0", TileLayer.mkTile 1 true 2 10);
     ("3/2/0", TileLayer.mkTile 2 true 3 40); ("3/3/0", TileLayer.mkTile 3 true 4 10);
     ("3/4/0", TileLayer.mkTile 4 true 5 30)]%string%Z
    [] [] [] [].

(** [new TileLayer(template, {maxCacheSize: 1})]: a layer that keeps one
    tile. *)
Definition tiny_layer : TileLayer.Layer :=
  TileLayer.new "https://a.tile.openstreetmap.org/{z}/{x}/{y}.png" false 1.

(** A render pass of [tiny_layer] at time 1000 that requests the tiles
    [3/0/0] and [3/1/0]; then the eviction pass it schedules; then, at the
    next render pass, the request for [3/0/0] once more. *)
Definition two_requests : TileLayer.Layer :=
  let env := auto_env 1 in
  let l1 := fst (TileLayer._loadTile "3/0/0"
                   (TileLayer._getTileUrl env tiny_layer 0 0 3) 1000 tiny_layer) in
  fst (TileLayer._loadTile "3/1/0"
         (TileLayer._getTileUrl env tiny_layer 1 0 3) 1000 l1).

Definition after_eviction : TileLayer.Layer :=
  TileLayer._performEviction two_requests.

Definition requested_again : TileLayer.Layer :=
  fst (TileLayer._loadTile "3/0/0"
         (TileLayer._getTileUrl (auto_env 1) tiny_layer 0 0 3) 1016 after_eviction).

(** The request of tile [3/1/2] from [ESRI_layer], which has no retina
    variant, at time 1000. *)
Definition esri_request : TileLayer.Layer :=
  fst (TileLayer._loadTile "3/1/2"
         (TileLayer._getTileUrl (auto_env 2) ESRI_layer 1 2 3) 1000 ESRI_layer).

(** The request of tile [3/1/2] from [OSM_layer] on a display of pixel
    ratio 2: the URL is the retina variant. *)
Definition osm_retina_request : TileLayer.Layer :=
  fst (TileLayer._loadTile "3/1/2"
         (TileLayer._getTileUrl (auto_env 2) OSM_layer 1 2 3) 1000 OSM_layer).

(** ** Screen positions of coordinates, and animated zoom *)

Definition WHEEL_ZOOM_STEP : R := 0.25.
Definition WHEEL_ZOOM_DURATION : R := 220.

(** [latLngToContainerPoint(latlng)] (lines 3417-3430). *)
Definition latLngToContainerPoint (m : Atlas) (latlng : LatLng) : Point :=
  let w := canvas_width m / dpr m in
  let h := canvas_height m / dpr m in
  let zInt := JS.Math_floor (zoom m) in
  let ts := TILE_SIZE * JS.pow2 (zoom m - zInt) in
  let ct := WebMercatorProjection.latLngToTile (center m) zInt in
  let pt := WebMercatorProjection.latLngToTile latlng zInt in
  let trX := (px pt - px ct) * ts in
  let trY := (py pt - py ct) * ts in
  let anchorVec := rot trX trY (bearing m) in
  let screenX := w / 2 + px anchorVec in
  let screenY := h / 2 + py anchorVec in
  mkPoint screenX screenY.

(** The constant [tpt] of [screenToLatLon(ax, ay)]: the tile coordinate
    shown at the screen point, before it is turned into a latitude and a
    longitude. *)
Definition screen_tpt (m : Atlas) (ax ay : R) : Point :=
  let w := canvas_width m / dpr m in
  let h := canvas_height m / dpr m in
  let zInt := JS.Math_floor (zoom m) in
  let ts := TILE_SIZE * JS.pow2 (zoom m - zInt) in
  let ct := WebMercatorProjection.latLngToTile (center m) zInt in
  let anchorVec := mkPoint (ax - w / 2) (ay - h / 2) in
  let v := rot (px anchorVec / ts) (py anchorVec / ts) (- bearing m) in
  mkPoint (px ct + px v) (py ct + py v).

Module AtlasMarker.

(** [_dragStart]: the pointer position and the marker's coordinate when
    the drag began. *)
Record DragStart : Type := mkDragStart {
  start_x : R;
  start_y : R;
  start_latlng : LatLng
}.

(** [_onDragMove(clientX, clientY)] (lines 2502-2516): the new value of
    [_latlng]. *)
Definition _onDragMove (m : Atlas) (_dragStart : DragStart) (clientX clientY : R)
    : LatLng :=
  let startPoint := latLngToContainerPoint m (start_latlng _dragStart) in
  let dx := clientX - start_x _dragStart in
  let dy := clientY - start_y _dragStart in
  let newPoint := mkPoint (px startPoint + dx) (py startPoint + dy) in
  let newLatLng := screenToLatLon m (px newPoint) (py newPoint) in
  mkLatLng (GISUtils.clampLatitude (lat newLatLng))
           (GISUtils.wrapLongitude (lon newLatLng)).

End AtlasMarker.

(** [animateZoomRotateAbout(ax, ay, toZoom, toBearing = this.bearing,
    duration = WHEEL_ZOOM_DURATION, easing = EASING.easeInOutCubic)]
    (lines 3489-3514): the constants captured by its [step] closure.  An
    omitted argument is [None]. *)
Record ZoomJob : Type := mkZoomJob {
  zjob_ax : R;
  zjob_ay : R;
  zjob_sZoom : R;
  zjob_toZoom : R;
  zjob_sBear : R;
  zjob_deltaBear : R;
  zjob_anchorLL : LatLng;
  zjob_duration : R;
  zjob_easing : R -> R
}.

Definition animateZoomRotateAbout (m : Atlas) (ax ay toZoom : R)
    (toBearing duration : option R) (easing : option (R -> R)) : ZoomJob :=
  let toBearing := obj_or toBearing (bearing m) in
  let duration := obj_or duration WHEEL_ZOOM_DURATION in
  let easing := obj_or easing EASING.easeInOutCubic in
  let sZoom := zoom m in
  let sBear := bearing m in
  let deltaBear := shortestAngleDiff sBear toBearing in
  let anchorLL := screenToLatLon_at m ax ay (zoom m) (bearing m) (center m) in
  mkZoomJob ax ay sZoom toZoom sBear deltaBear anchorLL duration easing.

(** The [t] and [p] of the [step] closure, [elapsed] milliseconds after
    the start. *)
Definition zoom_t (j : ZoomJob) (elapsed : R) : R :=
  elapsed / Rmax 1 (zjob_duration j).
Definition zoom_p (j : ZoomJob) (elapsed : R) : R :=
  let t := zoom_t j elapsed in
  if Rle_dec 1 t then 1 else zjob_easing j (Rmax 0 (Rmin 1 t)).

(** One run of the [step] closure on the map as it is at that time. *)
Definition zoom_step (j : ZoomJob) (elapsed : R) (m : Atlas) : Atlas :=
  let p := zoom_p j elapsed in
  let z := zjob_sZoom j + (zjob_toZoom j - zjob_sZoom j) * p in
  let b := zjob_sBear j + zjob_deltaBear j * p in
  applyZoomRotateAbout m (zjob_ax j) (zjob_ay j) z b (Some (zjob_anchorLL j)).

(** [step] requests another frame exactly when [t < 1]; otherwise
    [zoomend] is fired. *)
Definition zoom_continues (j : ZoomJob) (elapsed : R) : bool :=
  if Rlt_dec (zoom_t j elapsed) 1 then true else false.

(** [smoothZoomAt(ax, ay, deltaZ)] (lines 3516-3521). *)
Definition smoothZoomAt (m : Atlas) (ax ay deltaZ : R) : ZoomJob :=
  let target := Rmax (minZoom m) (Rmin (maxZoom m) (zoom m + deltaZ)) in
  animateZoomRotateAbout m ax ay target (Some (bearing m))
    (Some WHEEL_ZOOM_DURATION) (Some EASING.easeInOutCubic).

(** [ScrollZoomHandler._onWheel] (lines 1923-1927): the job one wheel
    event at [(clientX, clientY)] with the given [deltaY] starts. *)
Definition _onWheel (m : Atlas) (clientX clientY deltaY : R) : ZoomJob :=
  let dz := if Rlt_dec deltaY 0 then WHEEL_ZOOM_STEP else - WHEEL_ZOOM_STEP in
  smoothZoomAt m clientX clientY dz.

(** ** Hit testing of GeoJSON features (class [GeoJSONLayer], lines 876-919) *)

Module GeoJSONLayer.

(** The constant [intersect] of [_pointInRing] for the edge from the
    vertex [vj] to the vertex [vi]; the division is evaluated only when
    the two heights differ. *)
Definition intersect (x y : R) (vi vj : Point) : bool :=
  let xi := px vi in
  let yi := py vi in
  let xj := px vj in
  let yj := py vj in
  negb (Bool.eqb (JS.gtb yi y) (JS.gtb yj y)) &&
  JS.ltb x ((xj - xi) * (y - yi) / (yj - yi) + xi).

(** The loop [for (i = 0, j = ring.length - 1; i < ring.length; j = i++)]
    from the vertex [i] on: [vj] is [ring[j]], [rest] the vertices from
    [ring[i]]. *)
Fixpoint ring_loop (x y : R) (vj : Point) (rest : list Point) (inside : bool)
    : bool :=
  match rest with
  | [] => inside
  | vi :: rest' =>
      ring_loop x y vi rest' (if intersect x y vi vj then negb inside else inside)
  end.

(** [_pointInRing(x, y, ring)] (lines 892-901); on an empty ring the loop
    does not run. *)
Definition _pointInRing (x y : R) (ring : list Point) : bool :=
  ring_loop x y (last ring (mkPoint 0 0)) ring false.

(** The loop over the holes, [rings[1]], [rings[2]], ..., which stops at
    the first hole that holds the point. *)
Fixpoint holes_loop (x y : R) (holes : list (list Point)) (inside : bool) : bool :=
  match holes with
  | [] => inside
  | h :: rest => if _pointInRing x y h then false else holes_loop x y rest inside
  end.

(** [_pointInPolygon(x, y, rings)] (lines 876-890).  With no ring at all
    [rings[0]] is [undefined] and [_pointInRing] throws a [TypeError] on
    [ring.length]: [None]. *)
Definition _pointInPolygon (x y : R) (rings : list (list Point)) : option bool :=
  match rings with
  | [] => None
  | outer :: holes =>
      Some (if _pointInRing x y outer then holes_loop x y holes true else false)
  end.

(** [_pointOnLine(x, y, line, width)] (lines 903-919). *)
Fixpoint _pointOnLine (x y : R) (line : list Point) (width : R) : bool :=
  match line with
  | p1 :: ((p2 :: _) as rest) =>
      let dx := px p2 - px p1 in
      let dy := py p2 - py p1 in
      let lenSq := dx * dx + dy * dy in
      if Req_dec_T lenSq 0 then _pointOnLine x y rest width
      else
        let t := ((x - px p1) * dx + (y - py p1) * dy) / lenSq in
        let t := Rmax 0 (Rmin 1 t) in
        let closeX := px p1 + t * dx in
        let closeY := py p1 + t * dy in
        let distSq := (x - closeX) * (x - closeX) + (y - closeY) * (y - closeY) in
        if Rlt_dec distSq ((width / 2) * (width / 2)) then true
        else _pointOnLine x y rest width
  | _ => false
  end.

(** The segments of a line: the pairs of consecutive points. *)
Fixpoint segments (line : list Point) : list (Point * Point) :=
  match line with
  | p1 :: ((p2 :: _) as rest) => (p1, p2) :: segments rest
  | _ => []
  end.

(** The square of the distance from [(x, y)] to the point at parameter
    [s] of the segment from [p1] to [p2]. *)
Definition distSq_at (x y : R) (p1 p2 : Point) (s : R) : R :=
  let cx := px p1 + s * (px p2 - px p1) in
  let cy := py p1 + s * (py p2 - py p1) in
  (x - cx) * (x - cx) + (y - cy) * (y - cy).

(** The closed ring of the corners of an axis-parallel rectangle, as a
    GeoJSON polygon ring lists them: the first corner is repeated at the
    end. *)
Definition rectangle (x0 y0 x1 y1 : R) : list Point :=
  [mkPoint x0 y0; mkPoint x1 y0; mkPoint x1 y1; mkPoint x0 y1; mkPoint x0 y0].

(** Parity of the crossings the loop of [_pointInRing] counts along the
    open path through [vj] and then the vertices of [rest]. *)
Fixpoint path_parity (x y : R) (vj : Point) (rest : list Point) : bool :=
  match rest with
  | [] => false
  | vi :: rest' => xorb (intersect x y vi vj) (path_parity x y vi rest')
  end.

End GeoJSONLayer.

(** ** Event listeners ([on], [off] and [fire] of [Layer], lines 315-349;
    the same methods are repeated in [Control], [Overlay] and [Atlas]) *)

Module Events.

(** A listener is a function object; its number stands for its
    identity. *)
Definition Listener : Type := nat.

(** [this._events]: the own properties of the object, in insertion order,
    each an array of listeners. *)
Definition Table : Type := list (string * list Listener).

(** The names every object inherits from [Object.prototype].  For these
    names [this._events[type]] finds the inherited member when the table
    has no own property of the name, and the methods below throw a
    [TypeError] or replace the member; the definitions below describe the
    methods on all other names. *)
Definition Object_prototype : list string :=
  ["constructor"; "__defineGetter__"; "__defineSetter__"; "hasOwnProperty";
   "__lookupGetter__"; "__lookupSetter__"; "isPrototypeOf";
   "propertyIsEnumerable"; "toString"; "valueOf"; "__proto__";
   "toLocaleString"]%string.

Definition ordinary (type : string) : bool :=
  negb (existsb (String.eqb type) Object_prototype).

(** [on(type, fn)]. *)
Definition on (type : string) (fn : Listener) (ev : Table) : Table :=
  match TileLayer.map_get type ev with
  | None => TileLayer.map_set type [fn] ev
  | Some ls => TileLayer.map_set type (ls ++ [fn]) ev
  end.

(** [off(type, fn)]; an omitted [fn] is [None]. *)
Definition off (type : string) (fn : option Listener) (ev : Table) : Table :=
  match TileLayer.map_get type ev with
  | None => ev
  | Some ls =>
      match fn with
      | None => TileLayer.map_set type [] ev
      | Some f =>
          TileLayer.map_set type (filter (fun cb => negb (Nat.eqb cb f)) ls) ev
      end
  end.

(** [this._events[type].forEach(fn => fn(data))]: the listeners called, in
    order, and whether one of them threw; [throws] tells which listeners
    throw.  A listener that throws ends the loop. *)
Fixpoint forEach (throws : Listener -> bool) (ls : list Listener)
    : list Listener * bool :=
  match ls with
  | [] => ([], false)
  | fn :: rest =>
      if throws fn then ([fn], true)
      else let r := forEach throws rest in (fn :: fst r, snd r)
  end.

(** [fire(type, data)]. *)
Definition fire (throws : Listener -> bool) (type : string) (ev : Table)
    : list Listener * bool :=
  match TileLayer.map_get type ev with
  | None => ([], false)
  | Some ls => forEach throws ls
  end.

(** The listeners [fire(type)] calls when none of them throws. *)
Definition called (type : string) (ev : Table) : list Listener :=
  fst (fire (fun _ => false) type ev).

End Events.

(** ** The layers of the map ([addLayer], [removeLayer], [setBaseLayer],
    lines 3002-3062) *)

Module Layers.

(** The class of a layer object: a [TileLayer], or a [Layer] of another
    class ([GeoJSONLayer], or [Layer] itself), which has neither
    [getBackground] nor [getMinZoom] and [getMaxZoom]. *)
Inductive Kind : Type := KTileLayer | KOtherLayer.

(** A layer object; [layer_id] stands for its identity, [layer_minZoom]
    and [layer_maxZoom] are what [getMinZoom()] and [getMaxZoom()] return
    on a tile layer. *)
Record LayerObj : Type := mkLayerObj {
  layer_id : nat;
  layer_kind : Kind;
  layer_minZoom : R;
  layer_maxZoom : R
}.

(** [a === b]. *)
Definition same (a b : LayerObj) : bool := Nat.eqb (layer_id a) (layer_id b).

Definition isTileLayer (l : LayerObj) : bool :=
  match layer_kind l with KTileLayer => true | KOtherLayer => false end.

(** The fields of the map these methods read or write. *)
Record LayerMap : Type := mkLayerMap {
  _layers : list LayerObj;
  _baseLayer : option LayerObj;
  zoom : R
}.

(** How a call ends: it returns, or it throws with the map as it is at
    that moment. *)
Inductive Outcome : Type :=
  | Returns (m : LayerMap)
  | Throws (m : LayerMap).

Definition state (o : Outcome) : LayerMap :=
  match o with Returns m => m | Throws m => m end.

(** [this._layers.includes(layer)]. *)
Definition includes (layer : LayerObj) (ls : list LayerObj) : bool :=
  existsb (same layer) ls.

(** [this._layers.splice(this._layers.indexOf(layer), 1)]: the first
    occurrence is removed. *)
Fixpoint remove_first (layer : LayerObj) (ls : list LayerObj) : list LayerObj :=
  match ls with
  | [] => []
  | l :: rest => if same l layer then rest else l :: remove_first layer rest
  end.

(** [addLayer(layer)] for an instance of [Layer].  The first layer of a
    map without base layer becomes the base layer, whatever its class;
    [layer.getBackground()] then throws a [TypeError] unless it is a tile
    layer. *)
Definition addLayer (layer : LayerObj) (m : LayerMap) : Outcome :=
  if includes layer (_layers m) then Returns m
  else
    let ls := _layers m ++ [layer] in
    match _baseLayer m with
    | Some b => Returns (mkLayerMap ls (Some b) (zoom m))
    | None =>
        let m' := mkLayerMap ls (Some layer) (zoom m) in
        if isTileLayer layer then Returns m' else Throws m'
    end.

(** [removeLayer(layer)]. *)
Definition removeLayer (layer : LayerObj) (m : LayerMap) : LayerMap :=
  if includes layer (_layers m) then
    let ls := remove_first layer (_layers m) in
    match _baseLayer m with
    | Some b =>
        if same b layer then mkLayerMap ls (find isTileLayer ls) (zoom m)
        else mkLayerMap ls (Some b) (zoom m)
    | None => mkLayerMap ls None (zoom m)
    end
  else m.

(** [setBaseLayer(newLayer)]. *)
Definition setBaseLayer (newLayer : LayerObj) (m : LayerMap) : Outcome :=
  if negb (isTileLayer newLayer) then Throws m
  else
    let m1 := match _baseLayer m with
              | Some b => if same b newLayer then m else removeLayer b m
              | None => m
              end in
    if negb (includes newLayer (_layers m1)) then addLayer newLayer m1
    else
      Returns (mkLayerMap (_layers m1) (Some newLayer)
                 (Rmax (layer_minZoom newLayer)
                       (Rmin (layer_maxZoom newLayer) (zoom m1)))).

(** The calls a program makes on the map. *)
Inductive Call : Type :=
  | CallAddLayer (layer : LayerObj)
  | CallRemoveLayer (layer : LayerObj)
  | CallSetBaseLayer (layer : LayerObj).

Definition call (c : Call) (m : LayerMap) : LayerMap :=
  match c with
  | CallAddLayer l => state (addLayer l m)
  | CallRemoveLayer l => removeLayer l m
  | CallSetBaseLayer l => state (setBaseLayer l m)
  end.

(** A sequence of calls, each on the map the previous one left; a call
    that throws leaves the map as it was at the throw. *)
Definition calls (cs : list Call) (m : LayerMap) : LayerMap :=
  fold_left (fun m c => call c m) cs m.

(** The map after [new Atlas(id, options)]: no layer, no base layer. *)
Definition new (defaultZoom : R) : LayerMap := mkLayerMap [] None defaultZoom.

(** The layer list holds no object twice, the base layer is on the list,
    and a list with a tile layer has a base layer. *)
Definition well_formed (m : LayerMap) : Prop :=
  NoDup (map layer_id (_layers m)) /\
  (forall b, _baseLayer m = Some b -> includes b (_layers m) = true) /\
  (_baseLayer m = None -> forallb (fun l => negb (isTileLayer l)) (_layers m) = true).

End Layers.

(** ** The scale bar ([ScaleControl._update], lines 1450-1474) *)

Module ScaleControl.

(** [Math.log10(x)] and [Math.pow(10, k)]. *)
Definition log10 (x : R) : R := ln x / ln 10.
Definition pow10 (k : R) : R := Rpower 10 k.

(** What [_update] computes: the width of the bar in CSS pixels and the
    distance its label shows, in metres. *)
Record Bar : Type := mkBar {
  widthPx : R;
  niceMeters : R
}.

(** [_update()] on the map [m] for a control with [options.maxWidth]. *)
Definition _update (m : Atlas) (maxWidth : R) : Bar :=
  let mPerPx := GISUtils.getResolution (lat (center m)) (zoom m) in
  let targetMeters := mPerPx * maxWidth in
  let pow := pow10 (JS.Math_floor (log10 targetMeters)) in
  let base := targetMeters / pow in
  let niceBase := if Rle_dec 5 base then 5 else if Rle_dec 2 base then 2 else 1 in
  let niceMeters := niceBase * pow in
  let widthPx := Rmax 20 (Rmin maxWidth (niceMeters / mPerPx)) in
  mkBar widthPx niceMeters.

End ScaleControl.

(** ** Placing a popup ([AtlasPopup._updatePosition], lines 2746-2816) *)

Module AtlasPopup.

(** The side of the anchor the popup is put on. *)
Inductive Position : Type := top | bottom | left | right.

(** The [width] and [height] of a [getBoundingClientRect()]. *)
Record Size : Type := mkSize { width : R; height : R }.

(** The values written to [style.left] and [style.top], and the side
    chosen. *)
Record Placement : Type := mkPlacement {
  position : Position;
  style_left : R;
  style_top : R
}.

(** [_updatePosition()] from the point where the anchor was found. *)
Definition _updatePosition (anchorPoint : Point) (popupRect mapRect : Size)
    : Placement :=
  let space_top := py anchorPoint in
  let space_right := width mapRect - px anchorPoint in
  let space_bottom := height mapRect - py anchorPoint in
  let space_left := px anchorPoint in
  let position :=
    if JS.ltb space_bottom (height popupRect)
       && JS.leb (height popupRect) space_top then top
    else if JS.ltb space_right (width popupRect / 2)
            && JS.leb (width popupRect / 2) space_left then left
    else if JS.ltb space_left (width popupRect / 2)
            && JS.leb (width popupRect / 2) space_right then right
    else bottom in
  let left0 :=
    match position with
    | top | bottom => px anchorPoint - width popupRect / 2
    | left => px anchorPoint - width popupRect
    | right => px anchorPoint
    end in
  let top0 :=
    match position with
    | top => py anchorPoint - height popupRect
    | bottom => py anchorPoint
    | left | right => py anchorPoint - height popupRect / 2
    end in
  let left1 := Rmax 5 (Rmin (width mapRect - width popupRect - 5) left0) in
  let top1 := Rmax 5 (Rmin (height mapRect - height popupRect - 5) top0) in
  mkPlacement position left1 top1.

End AtlasPopup.

(** ** Interaction handlers ([Handler], lines 1676-1737, and
    [addHandler], [removeHandler], [enableHandler], [disableHandler] of
    the map, lines 3114-3165) *)

Module Handler.

(** A handler: its [_enabled] flag.  The number of times its listeners
    are attached at the moment is counted for the whole map, in
    [attached] below. *)
Record HandlerObj : Type := mkHandler { _enabled : bool }.

(** The own properties of [this._handlers], and the number of handlers
    whose [_addEvents] has run without a later [_removeEvents]. *)
Record HandlerMap : Type := mkHandlerMap {
  _handlers : list (string * HandlerObj);
  attached : nat
}.

(** What [this._handlers[name]] finds.  [_handlers] is created as [{}],
    so under a name of a member of [Object.prototype] that is not an own
    property it finds the inherited member, which is truthy and is not a
    handler. *)
Inductive Found : Type :=
  | Own (h : HandlerObj)
  | Inherited
  | Absent.

Definition lookup (name : string) (m : HandlerMap) : Found :=
  match TileLayer.map_get name (_handlers m) with
  | Some h => Own h
  | None => if Events.ordinary name then Absent else Inherited
  end.

(** How a call ends: it returns, or it throws a [TypeError] with the map
    as it is at that moment. *)
Inductive Outcome : Type :=
  | Returns (m : HandlerMap)
  | Throws (m : HandlerMap).

Definition state (o : Outcome) : HandlerMap :=
  match o with Returns m => m | Throws m => m end.

(** [handler.enable()], [handler.disable()] and [handler.toggle()] for the
    handler registered as [name]. *)
Definition enable (name : string) (m : HandlerMap) : HandlerMap :=
  match TileLayer.map_get name (_handlers m) with
  | Some h =>
      if _enabled h then m
      else mkHandlerMap (TileLayer.map_set name (mkHandler true) (_handlers m))
                        (S (attached m))
  | None => m
  end.

Definition disable (name : string) (m : HandlerMap) : HandlerMap :=
  match TileLayer.map_get name (_handlers m) with
  | Some h =>
      if _enabled h
      then mkHandlerMap (TileLayer.map_set name (mkHandler false) (_handlers m))
                        (Nat.pred (attached m))
      else m
  | None => m
  end.

Definition toggle (name : string) (m : HandlerMap) : HandlerMap :=
  match TileLayer.map_get name (_handlers m) with
  | Some h => if _enabled h then disable name m else enable name m
  | None => m
  end.

(** [addHandler(name, HandlerClass)]: when [this._handlers[name]] is
    truthy, a handler or an inherited member, nothing is added; a new
    handler is created disabled and then enabled. *)
Definition addHandler (name : string) (m : HandlerMap) : HandlerMap :=
  match lookup name m with
  | Own _ | Inherited => m
  | Absent =>
      enable name
        (mkHandlerMap (TileLayer.map_set name (mkHandler false) (_handlers m))
                      (attached m))
  end.

(** [removeHandler(name)]: the handler is destroyed, which disables it,
    and its entry is deleted.  An inherited member has no [destroy]: the
    call throws. *)
Definition removeHandler (name : string) (m : HandlerMap) : Outcome :=
  match lookup name m with
  | Own _ =>
      let m' := disable name m in
      Returns (mkHandlerMap (TileLayer.map_delete name (_handlers m'))
                            (attached m'))
  | Inherited => Throws m
  | Absent => Returns m
  end.

(** [enableHandler(name)] and [disableHandler(name)]: [getHandler(name)]
    is [this._handlers[name] || null]; an inherited member has no
    [enable] and no [disable]: the call throws. *)
Definition enableHandler (name : string) (m : HandlerMap) : Outcome :=
  match lookup name m with
  | Own _ => Returns (enable name m)
  | Inherited => Throws m
  | Absent => Returns m
  end.

Definition disableHandler (name : string) (m : HandlerMap) : Outcome :=
  match lookup name m with
  | Own _ => Returns (disable name m)
  | Inherited => Throws m
  | Absent => Returns m
  end.

(** The calls a program makes; [CallToggle name] is
    [getHandler(name).toggle()], which throws and changes nothing when no
    handler is registered as [name]. *)
Inductive Call : Type :=
  | CallAddHandler (name : string)
  | CallRemoveHandler (name : string)
  | CallEnable (name : string)
  | CallDisable (name : string)
  | CallToggle (name : string).

Definition call (c : Call) (m : HandlerMap) : HandlerMap :=
  match c with
  | CallAddHandler n => addHandler n m
  | CallRemoveHandler n => state (removeHandler n m)
  | CallEnable n => state (enableHandler n m)
  | CallDisable n => state (disableHandler n m)
  | CallToggle n => toggle n m
  end.

(** A sequence of calls, each on the map the previous one left; a call
    that throws leaves the map as it was at the throw. *)
Definition calls (cs : list Call) (m : HandlerMap) : HandlerMap :=
  fold_left (fun m c => call c m) cs m.

(** The map before its first handler is added. *)
Definition new : HandlerMap := mkHandlerMap [] 0.

(** The number of handlers on the map that are enabled. *)
Definition enabled_count (m : HandlerMap) : nat :=
  List.length (filter (fun e => _enabled (snd e)) (_handlers m)).

End Handler.

(** ** Scheduling of the drawing ([render], [scheduleRender], lines
    3281-3295) *)

Module RenderLoop.

(** [renderScheduled], the number of callbacks waiting for the next
    animation frame, and the number of runs of [_draw] so far. *)
Record State : Type := mkState {
  renderScheduled : bool;
  waiting : nat;
  draws : nat
}.

(** [render()], which is [scheduleRender()]. *)
Definition render (s : State) : State :=
  if renderScheduled s then s
  else mkState true (S (waiting s)) (draws s).

(** An animation frame: the browser runs the callbacks that wait, each of
    which clears the flag and draws. *)
Definition frame (s : State) : State :=
  mkState (match waiting s with O => renderScheduled s | S _ => false end)
          0 (draws s + waiting s).

Definition idle (d : nat) : State := mkState false 0 d.

End RenderLoop.

(* ================================================================== *)
(** * Properties *)
(* ================================================================== *)

(** ** Facts about the numeric primitives *)

Lemma PI_neq0' : PI <> 0.
Proof. pose proof PI_RGT_0; lra. Qed.

Lemma deg_rad_cancel (x : R) : x * DEG2RAD * RAD2DEG = x.
Proof. unfold DEG2RAD, RAD2DEG. field. apply PI_neq0'. Qed.

Lemma rad_deg_cancel (x : R) : x * RAD2DEG * DEG2RAD = x.
Proof. unfold DEG2RAD, RAD2DEG. field. apply PI_neq0'. Qed.

Lemma pow2_pos (z : R) : 0 < JS.pow2 z.
Proof. unfold JS.pow2, Rpower. apply exp_pos. Qed.

Lemma MAX_LATITUDE_eq : MAX_LATITUDE = 8505112878 / 100000000.
Proof. unfold MAX_LATITUDE. lra. Qed.

Lemma MIN_LATITUDE_eq : MIN_LATITUDE = - MAX_LATITUDE.
Proof. unfold MIN_LATITUDE, MAX_LATITUDE. lra. Qed.

Lemma EARTH_RADIUS_pos : 0 < EARTH_RADIUS.
Proof. unfold EARTH_RADIUS; lra. Qed.

(** ** Projection *)

Section Mercator.

Import WebMercatorProjection.

(** The latitude clamp of [project] is the identity within the limits. *)
Lemma project_clamp_id (l : R) :
  - MAX_LATITUDE <= l <= MAX_LATITUDE ->
  Rmax (Rmin MAX_LATITUDE l) (- MAX_LATITUDE) = l.
Proof.
  intros [H1 H2]. rewrite Rmin_right by lra. now rewrite Rmax_left by lra.
Qed.

Lemma project_clamp_range (l : R) :
  - MAX_LATITUDE <= Rmax (Rmin MAX_LATITUDE l) (- MAX_LATITUDE) <= MAX_LATITUDE.
Proof.
  unfold MAX_LATITUDE. split.
  - apply Rmax_r.
  - apply Rmax_lub; [apply Rmin_l | lra].
Qed.

(** A clamped latitude, in radians, lies strictly inside the quarter
    turn: the poles are out of reach. *)
Lemma clamped_lat_radians (l : R) :
  - MAX_LATITUDE <= l <= MAX_LATITUDE ->
  - (PI / 2) < l * DEG2RAD < PI / 2.
Proof.
  unfold MAX_LATITUDE, DEG2RAD. intros [H1 H2].
  pose proof PI_RGT_0 as HPI. split; nra.
Qed.

Lemma sin_lt_1_inside (a : R) : - (PI / 2) < a < PI / 2 -> -1 < sin a < 1.
Proof.
  intros [H1 H2]. pose proof PI_RGT_0 as HPI. split.
  - replace (-1) with (sin (- (PI / 2))) by (rewrite sin_neg, sin_PI2; ring).
    apply sin_increasing_1; lra.
  - rewrite <- sin_PI2. apply sin_increasing_1; lra.
Qed.

(** The sine of the latitude recovered by [unproject]. *)
Lemma sin_2atan (u : R) :
  sin (2 * atan u - PI / 2) = (u * u - 1) / (u * u + 1).
Proof.
  rewrite sin_minus, cos_PI2, sin_PI2, cos_2a.
  pose proof (atan_bound u) as Hb.
  assert (Hc : 0 < cos (atan u)) by (apply cos_gt_0; lra).
  pose proof (tan_atan u) as Ht. unfold tan in Ht.
  assert (Hs : sin (atan u) = u * cos (atan u)).
  { rewrite <- Ht at 2. field. lra. }
  pose proof (sin2_cos2 (atan u)) as H1. unfold Rsqr in H1.
  rewrite Hs in *.
  assert (Hc2 : cos (atan u) * cos (atan u) = / (u * u + 1)).
  { apply Rmult_eq_reg_r with (u * u + 1); [ | nra].
    rewrite Rinv_l by nra. nra. }
  replace (u * cos (atan u) * cos (atan u)) with (u * (cos (atan u) * cos (atan u))) by ring.
  replace (cos (atan u) * cos (atan u) - u * cos (atan u) * (u * cos (atan u)))
    with ((1 - u * u) * (cos (atan u) * cos (atan u))) by ring.
  rewrite Hc2. field. nra.
Qed.

Lemma unproject_lat_radians_range (u : R) :
  0 < u -> - (PI / 2) < 2 * atan u - PI / 2 < PI / 2.
Proof.
  intros Hu. pose proof (atan_bound u) as Hb.
  assert (0 < atan u).
  { rewrite <- atan_0. now apply atan_increasing. }
  lra.
Qed.

(** [unproject] undoes [project] exactly, for every latitude within the
    Mercator limits and every longitude. *)
Lemma unproject_project (p : LatLng) :
  - MAX_LATITUDE <= lat p <= MAX_LATITUDE ->
  unproject (project p) = p.
Proof.
  intros Hl. destruct p as [la lo]. simpl in Hl.
  unfold unproject, project. simpl.
  rewrite project_clamp_id by assumption.
  pose proof (clamped_lat_radians la Hl) as Hr.
  pose proof (sin_lt_1_inside _ Hr) as Hs.
  pose proof EARTH_RADIUS_pos as Hd.
  set (s := sin (la * DEG2RAD)) in *.
  assert (Hq : 0 < (1 + s) / (1 - s)).
  { apply Rdiv_lt_0_compat; lra. }
  f_equal.
  - replace (EARTH_RADIUS * ln ((1 + s) / (1 - s)) / 2 / EARTH_RADIUS)
      with (ln ((1 + s) / (1 - s)) / 2) by (field; lra).
    set (u := exp (ln ((1 + s) / (1 - s)) / 2)).
    assert (Hu : 0 < u) by apply exp_pos.
    assert (Huu : u * u = (1 + s) / (1 - s)).
    { unfold u. rewrite <- exp_plus.
      replace (ln ((1 + s) / (1 - s)) / 2 + ln ((1 + s) / (1 - s)) / 2)
        with (ln ((1 + s) / (1 - s))) by field.
      now apply exp_ln. }
    assert (Ha : 2 * atan u - PI / 2 = la * DEG2RAD).
    { apply sin_inj.
      - pose proof (unproject_lat_radians_range u Hu); lra.
      - lra.
      - rewrite sin_2atan, Huu. fold s. field. lra. }
    rewrite Ha. apply deg_rad_cancel.
  - replace (EARTH_RADIUS * lo * DEG2RAD / EARTH_RADIUS) with (lo * DEG2RAD)
      by (field; lra).
    apply deg_rad_cancel.
Qed.

(** No division by zero and no logarithm of a non-positive number in
    [project], whatever the input: the clamp keeps [1 - sin] and
    [1 + sin] strictly positive. *)
Lemma project_well_defined (l : R) :
  let s := sin (Rmax (Rmin MAX_LATITUDE l) (- MAX_LATITUDE) * DEG2RAD) in
  0 < 1 - s /\ 0 < 1 + s /\ 0 < (1 + s) / (1 - s).
Proof.
  intros s.
  pose proof (sin_lt_1_inside _ (clamped_lat_radians _ (project_clamp_range l))) as Hs.
  fold s in Hs. repeat split; try lra. apply Rdiv_lt_0_compat; lra.
Qed.

End Mercator.

(** ** Longitude wrapping and latitude clamping *)

Section Wrapping.

Import GISUtils.

Lemma clampLatitude_range (l : R) :
  MIN_LATITUDE <= clampLatitude l <= MAX_LATITUDE.
Proof.
  unfold clampLatitude, MIN_LATITUDE, MAX_LATITUDE. split.
  - apply Rmax_l.
  - apply Rmax_lub; [lra | apply Rmin_l].
Qed.

Lemma clampLatitude_id (l : R) :
  MIN_LATITUDE <= l <= MAX_LATITUDE -> clampLatitude l = l.
Proof.
  unfold clampLatitude. intros [H1 H2].
  rewrite Rmin_right by lra. now rewrite Rmax_right by lra.
Qed.

Lemma INR_to_nat_ge (z : Z) : IZR z <= INR (Z.to_nat z).
Proof.
  rewrite INR_IZR_INZ. apply IZR_le. lia.
Qed.

Lemma wrap_down_le (fuel : nat) : forall l,
  (l - 180) / 360 <= INR fuel -> wrap_down fuel l <= 180.
Proof.
  induction fuel as [|f IH]; intros l Hf; simpl; destruct (Rlt_dec 180 l) as [Hl|Hl];
    try lra.
  - simpl in Hf. lra.
  - apply IH. rewrite S_INR in Hf. lra.
Qed.

Lemma wrap_down_ge (fuel : nat) : forall l,
  -180 <= l -> -180 <= wrap_down fuel l.
Proof.
  induction fuel as [|f IH]; intros l Hl; simpl; destruct (Rlt_dec 180 l); try lra.
  apply IH. lra.
Qed.

Lemma wrap_down_small (fuel : nat) (l : R) : l <= 180 -> wrap_down fuel l = l.
Proof.
  intros Hl. destruct fuel; simpl; destruct (Rlt_dec 180 l); lra.
Qed.

Lemma wrap_down_shift (fuel : nat) : forall l,
  exists k : Z, wrap_down fuel l = l + 360 * IZR k.
Proof.
  induction fuel as [|f IH]; intros l; simpl; destruct (Rlt_dec 180 l).
  - exists 0%Z. lra.
  - exists 0%Z. lra.
  - destruct (IH (l - 360)) as [k Hk]. exists (k - 1)%Z.
    rewrite Hk, minus_IZR. lra.
  - exists 0%Z. lra.
Qed.

Lemma wrap_up_ge (fuel : nat) : forall l,
  (- 180 - l) / 360 <= INR fuel -> -180 <= wrap_up fuel l.
Proof.
  induction fuel as [|f IH]; intros l Hf; simpl; destruct (Rlt_dec l (-180)) as [Hl|Hl];
    try lra.
  - simpl in Hf. lra.
  - apply IH. rewrite S_INR in Hf. lra.
Qed.

Lemma wrap_up_le (fuel : nat) : forall l,
  l <= 180 -> wrap_up fuel l <= 180.
Proof.
  induction fuel as [|f IH]; intros l Hl; simpl; destruct (Rlt_dec l (-180)); try lra.
  apply IH. lra.
Qed.

Lemma wrap_up_big (fuel : nat) (l : R) : -180 <= l -> wrap_up fuel l = l.
Proof.
  intros Hl. destruct fuel; simpl; destruct (Rlt_dec l (-180)); lra.
Qed.

Lemma wrap_up_shift (fuel : nat) : forall l,
  exists k : Z, wrap_up fuel l = l + 360 * IZR k.
Proof.
  induction fuel as [|f IH]; intros l; simpl; destruct (Rlt_dec l (-180)).
  - exists 0%Z. lra.
  - exists 0%Z. lra.
  - destruct (IH (l + 360)) as [k Hk]. exists (k + 1)%Z.
    rewrite Hk, plus_IZR. lra.
  - exists 0%Z. lra.
Qed.

(** The budget [down_iters] lets the first loop run to its exit. *)
Lemma wrap_down_exits (l : R) : wrap_down (down_iters l) l <= 180.
Proof.
  apply wrap_down_le. unfold down_iters.
  eapply Rle_trans; [ | apply INR_to_nat_ge]. apply Zceil_bound.
Qed.

(** The budget [up_iters] lets the second loop run to its exit. *)
Lemma wrap_up_exits (l : R) : -180 <= wrap_up (up_iters l) l.
Proof.
  apply wrap_up_ge. unfold up_iters.
  eapply Rle_trans; [ | apply INR_to_nat_ge]. apply Zceil_bound.
Qed.

(** [wrapLongitude] lands in the closed interval [[-180, 180]]. *)
Lemma wrapLongitude_range (l : R) : -180 <= wrapLongitude l <= 180.
Proof.
  unfold wrapLongitude. split.
  - apply wrap_up_exits.
  - apply wrap_up_le, wrap_down_exits.
Qed.

(** It moves a longitude by whole turns only. *)
Lemma wrapLongitude_shift (l : R) :
  exists k : Z, wrapLongitude l = l + 360 * IZR k.
Proof.
  unfold wrapLongitude.
  destruct (wrap_down_shift (down_iters l) l) as [k1 H1].
  destruct (wrap_up_shift (up_iters (wrap_down (down_iters l) l))
                          (wrap_down (down_iters l) l)) as [k2 H2].
  exists (k1 + k2)%Z. rewrite H2, H1, plus_IZR. lra.
Qed.

(** Both ends of the interval are fixed points: [-180] stays [-180]. *)
Lemma wrapLongitude_id (l : R) : -180 <= l <= 180 -> wrapLongitude l = l.
Proof.
  intros [H1 H2]. unfold wrapLongitude.
  rewrite wrap_down_small by assumption. now apply wrap_up_big.
Qed.

(** Two longitudes of [[-180, 180]] that differ by whole turns are equal
    or are the two ends of the interval. *)
Lemma wrapped_congruent (a b : R) (k : Z) :
  -180 <= a <= 180 -> -180 <= b <= 180 -> a = b + 360 * IZR k ->
  a = b \/ (Rabs a = 180 /\ Rabs b = 180).
Proof.
  intros Ha Hb E.
  assert (Hk : (-1 <= k <= 1)%Z).
  { split.
    - apply le_IZR. lra.
    - apply le_IZR. lra. }
  assert (Hc : (k = -1 \/ k = 0 \/ k = 1)%Z) by lia.
  destruct Hc as [-> | [-> | ->]].
  - right. assert (a = -180) by lra. assert (b = 180) by lra. subst.
    split; [rewrite Rabs_left | rewrite Rabs_right]; lra.
  - left. lra.
  - right. assert (a = 180) by lra. assert (b = -180) by lra. subst.
    split; [rewrite Rabs_right | rewrite Rabs_left]; lra.
Qed.

Lemma wrapLongitude_congruent (a : R) (k : Z) :
  -180 <= a <= 180 ->
  wrapLongitude (a + 360 * IZR k) = a \/
  (Rabs (wrapLongitude (a + 360 * IZR k)) = 180 /\ Rabs a = 180).
Proof.
  intros Ha.
  destruct (wrapLongitude_shift (a + 360 * IZR k)) as [j Hj].
  apply (wrapped_congruent _ _ (k + j)%Z).
  - apply wrapLongitude_range.
  - assumption.
  - rewrite Hj, plus_IZR. lra.
Qed.

End Wrapping.

(** ** Angles *)

Section Angles.

Lemma sqrt_inv_sq (x : R) : 0 < x -> sqrt (/ (x * x)) = / x.
Proof.
  intros Hx. apply sqrt_lem_1.
  - left. apply Rinv_0_lt_compat. nra.
  - left. now apply Rinv_0_lt_compat.
  - field. lra.
Qed.

(** On the unit circle [atan2] recovers an angle with the same sine and
    cosine. *)
Lemma atan2_unit (y x : R) :
  x * x + y * y = 1 ->
  sin (JS.atan2 y x) = y /\ cos (JS.atan2 y x) = x.
Proof.
  intros Hu. unfold JS.atan2.
  destruct (Rlt_dec 0 x) as [Hx|Hx].
  - rewrite sin_atan, cos_atan. unfold Rsqr.
    replace (1 + y / x * (y / x)) with (/ (x * x)) by (field_simplify_eq; nra).
    rewrite sqrt_inv_sq by assumption. split; field; lra.
  - destruct (Rlt_dec x 0) as [Hx'|Hx'].
    + assert (Hs : sqrt (1 + (y / x)²) = / (- x)).
      { unfold Rsqr.
        replace (1 + y / x * (y / x)) with (/ ((- x) * (- x)))
          by (field_simplify_eq; nra).
        apply sqrt_inv_sq. lra. }
      destruct (Rle_dec 0 y).
      * rewrite neg_sin, neg_cos, sin_atan, cos_atan, Hs. split; field; lra.
      * unfold Rminus. rewrite <- (Ropp_involutive (atan (y / x) + - PI)).
        rewrite sin_neg, cos_neg.
        replace (- (atan (y / x) + - PI)) with (PI - atan (y / x)) by ring.
        rewrite sin_PI_x, Rtrigo1.cos_minus, cos_PI, sin_PI, sin_atan, cos_atan, Hs.
        split; field; lra.
    + assert (x = 0) by lra. subst x.
      assert (Hy : y * y = 1) by lra.
      destruct (Rlt_dec 0 y).
      * rewrite sin_PI2, cos_PI2. split; nra.
      * destruct (Rlt_dec y 0).
        -- rewrite sin_neg, cos_neg, sin_PI2, cos_PI2. split; nra.
        -- nra.
Qed.

(** [atan2] takes its values in the half-open turn [(-PI, PI]]. *)
Lemma atan2_range (y x : R) : - PI < JS.atan2 y x <= PI.
Proof.
  unfold JS.atan2. pose proof PI_RGT_0 as HPI.
  destruct (Rlt_dec 0 x) as [Hx|Hx].
  - pose proof (atan_bound (y / x)). lra.
  - destruct (Rlt_dec x 0) as [Hx'|Hx'].
    + pose proof (atan_bound (y / x)) as Hb.
      destruct (Rle_dec 0 y) as [Hy|Hy].
      * assert (atan (y / x) <= 0).
        { rewrite <- atan_0.
          destruct (Req_dec y 0) as [->|Hy0].
          - unfold Rdiv. rewrite Rmult_0_l. lra.
          - left. apply atan_increasing.
            apply Rmult_lt_reg_r with (- x); [lra|].
            replace (y / x * - x) with (- y) by (field; lra). lra. }
        lra.
      * assert (0 < atan (y / x)).
        { rewrite <- atan_0. apply atan_increasing.
          apply Rmult_lt_reg_r with (- x); [lra|].
          replace (y / x * - x) with (- y) by (field; lra). lra. }
        lra.
    + destruct (Rlt_dec 0 y); [lra|]. destruct (Rlt_dec y 0); lra.
Qed.

Lemma normalizeAngle_range (a : R) : - PI < normalizeAngle a <= PI.
Proof. apply atan2_range. Qed.

Lemma normalizeAngle_sin_cos (a : R) :
  sin (normalizeAngle a) = sin a /\ cos (normalizeAngle a) = cos a.
Proof.
  unfold normalizeAngle. apply atan2_unit.
  pose proof (sin2_cos2 a) as H. unfold Rsqr in H. lra.
Qed.

(** Rotating by a normalised angle is rotating by the angle. *)
Lemma rot_normalizeAngle (x y a : R) :
  rot x y (- normalizeAngle a) = rot x y (- a).
Proof.
  unfold rot. destruct (normalizeAngle_sin_cos a) as [Hs Hc].
  now rewrite !sin_neg, !cos_neg, Hs, Hc.
Qed.

End Angles.

(** ** Tile space *)

Section TileSpace.

Import WebMercatorProjection.

(** [project] undoes [unproject] at every point whose latitude is not cut
    by the clamp. *)
Lemma project_unproject (pt : Point) :
  - MAX_LATITUDE <= lat (unproject pt) <= MAX_LATITUDE ->
  project (unproject pt) = pt.
Proof.
  destruct pt as [X Y]. unfold unproject, project. simpl. intros Hl.
  rewrite project_clamp_id by assumption.
  rewrite rad_deg_cancel.
  pose proof EARTH_RADIUS_pos as Hd.
  set (u := exp (Y / EARTH_RADIUS)).
  assert (Hu : 0 < u) by apply exp_pos.
  rewrite sin_2atan.
  replace ((1 + (u * u - 1) / (u * u + 1)) / (1 - (u * u - 1) / (u * u + 1)))
    with (u * u) by (field; nra).
  rewrite ln_mult by assumption. unfold u. rewrite ln_exp.
  f_equal.
  - unfold RAD2DEG, DEG2RAD. field. split; [apply PI_neq0' | lra].
  - field. lra.
Qed.

Lemma tileToLatLng_latLngToTile (p : LatLng) (z : R) :
  - MAX_LATITUDE <= lat p <= MAX_LATITUDE ->
  tileToLatLng (px (latLngToTile p z)) (py (latLngToTile p z)) z = p.
Proof.
  intros Hl.
  transitivity (unproject (project p)); [ | now apply unproject_project].
  unfold tileToLatLng, latLngToTile.
  pose proof (pow2_pos z) as Hs. pose proof EARTH_RADIUS_pos as Hd.
  pose proof PI_RGT_0 as HPI.
  f_equal. destruct (project p) as [X Y]. cbn [px py].
  f_equal; field; repeat split; lra.
Qed.

Lemma latLngToTile_tileToLatLng (x y z : R) :
  - MAX_LATITUDE <= lat (tileToLatLng x y z) <= MAX_LATITUDE ->
  latLngToTile (tileToLatLng x y z) z = mkPoint x y.
Proof.
  unfold tileToLatLng, latLngToTile. intros Hl.
  rewrite project_unproject by assumption. simpl.
  pose proof (pow2_pos z) as Hs. pose proof EARTH_RADIUS_pos as Hd.
  pose proof PI_RGT_0 as HPI.
  f_equal; field; repeat split; lra.
Qed.

(** The latitude of a tile point depends on its [y] only; a shift of [x]
    by whole worlds shifts the longitude by whole turns. *)
Lemma tileToLatLng_shift (x y z : R) (k : Z) :
  tileToLatLng (x + IZR k * JS.pow2 z) y z =
  mkLatLng (lat (tileToLatLng x y z)) (lon (tileToLatLng x y z) + 360 * IZR k).
Proof.
  unfold tileToLatLng, unproject. simpl.
  pose proof (pow2_pos z) as Hs. pose proof EARTH_RADIUS_pos as Hd.
  f_equal. unfold RAD2DEG. field. repeat split; try lra. apply PI_neq0'.
Qed.

Lemma latLngToTile_shift (la lo z : R) (k : Z) :
  latLngToTile (mkLatLng la (lo + 360 * IZR k)) z =
  mkPoint (px (latLngToTile (mkLatLng la lo) z) + IZR k * JS.pow2 z)
          (py (latLngToTile (mkLatLng la lo) z)).
Proof.
  unfold latLngToTile, project. simpl.
  pose proof EARTH_RADIUS_pos as Hd. pose proof PI_RGT_0 as HPI.
  f_equal. unfold DEG2RAD. field. lra.
Qed.

(** The tile point of a clamped coordinate does not see the clamp. *)
Lemma latLngToTile_clamped (la lo z : R) :
  latLngToTile (mkLatLng (GISUtils.clampLatitude la) lo) z =
  latLngToTile (mkLatLng la lo) z.
Proof.
  unfold latLngToTile, project. simpl.
  replace (Rmax (Rmin MAX_LATITUDE (GISUtils.clampLatitude la)) (- MAX_LATITUDE))
    with (Rmax (Rmin MAX_LATITUDE la) (- MAX_LATITUDE)); [reflexivity|].
  unfold GISUtils.clampLatitude, MIN_LATITUDE, MAX_LATITUDE.
  unfold Rmax, Rmin; repeat destruct Rle_dec; lra.
Qed.

End TileSpace.

(** ** Anchored zoom and rotation *)

Section AnchoredZoom.

Import WebMercatorProjection.

(** Whatever its arguments, [screenToLatLon] returns a clamped latitude and
    a wrapped longitude. *)
Lemma screenToLatLon_at_range (m : Atlas) (ax ay z b : R) (c : LatLng) :
  MIN_LATITUDE <= lat (screenToLatLon_at m ax ay z b c) <= MAX_LATITUDE /\
  -180 <= lon (screenToLatLon_at m ax ay z b c) <= 180.
Proof.
  unfold screenToLatLon_at. cbn [lat lon]. split.
  - apply clampLatitude_range.
  - apply wrapLongitude_range.
Qed.

(** C1 (as amended).  Let the anchored zoom/rotate be applied at screen
    point [(ax, ay)] with any target zoom and bearing, the anchor
    coordinate being read from the current view ([anchorLL = null]).
    Whenever the new centre is not cut by the latitude clamp, the
    coordinate under the anchor has exactly the same latitude after the
    operation as before, and the same longitude, except that a longitude
    on the antimeridian may change its name between 180 and -180. *)
Theorem C1_anchor_invariant_unclamped (m : Atlas) (ax ay tz tb : R) :
  let z' := Rmax (minZoom m) (Rmin (maxZoom m) tz) in
  let A := screenToLatLon m ax ay in
  let A' := screenToLatLon (applyZoomRotateAbout m ax ay tz tb None) ax ay in
  MIN_LATITUDE <= lat (zoomRotate_newCenter m ax ay z' tb A) <= MAX_LATITUDE ->
  lat A' = lat A /\
  (lon A' = lon A \/ (Rabs (lon A') = 180 /\ Rabs (lon A) = 180)).
Proof.
  intros z' A A' Hc.
  assert (HA : - MAX_LATITUDE <= lat A <= MAX_LATITUDE).
  { pose proof (proj1 (screenToLatLon_at_range m ax ay (zoom m) (bearing m) (center m))) as H.
    fold (screenToLatLon m ax ay) in H. fold A in H.
    unfold MIN_LATITUDE, MAX_LATITUDE in *. lra. }
  assert (HAlon : -180 <= lon A <= 180).
  { apply (screenToLatLon_at_range m ax ay (zoom m) (bearing m) (center m)). }
  unfold A', screenToLatLon, screenToLatLon_at, applyZoomRotateAbout.
  cbn [center zoom bearing canvas_width canvas_height dpr lat lon].
  unfold zoomRotate_anchor. fold (screenToLatLon m ax ay). fold A. fold z'.
  rewrite rot_normalizeAngle.
  set (zi := JS.Math_floor z') in *.
  set (ts := TILE_SIZE * JS.pow2 (z' - zi)) in *.
  set (v := rot ((ax - canvas_width m / dpr m / 2) / ts)
                ((ay - canvas_height m / dpr m / 2) / ts) (- tb)) in *.
  set (P := latLngToTile A zi) in *.
  assert (HN : zoomRotate_newCenter m ax ay z' tb A =
               tileToLatLng (px P - px v) (py P - py v) zi) by reflexivity.
  rewrite HN in *.
  set (N := tileToLatLng (px P - px v) (py P - py v) zi) in *.
  rewrite (clampLatitude_id (lat N)) by assumption.
  destruct (wrapLongitude_shift (lon N)) as [k Hk]. rewrite Hk.
  rewrite latLngToTile_shift.
  replace (mkLatLng (lat N) (lon N)) with N by (destruct N; reflexivity).
  assert (HNt : latLngToTile N zi = mkPoint (px P - px v) (py P - py v)).
  { unfold N. apply latLngToTile_tileToLatLng.
    fold N. unfold MIN_LATITUDE, MAX_LATITUDE in *. lra. }
  rewrite HNt. cbn [px py]. fold v.
  replace (px P - px v + IZR k * JS.pow2 zi + px v)
    with (px P + IZR k * JS.pow2 zi) by ring.
  replace (py P - py v + py v) with (py P) by ring.
  rewrite tileToLatLng_shift. cbn [lat lon].
  unfold P. rewrite tileToLatLng_latLngToTile by assumption.
  split.
  - apply clampLatitude_id. unfold MIN_LATITUDE, MAX_LATITUDE in *. lra.
  - destruct (wrapLongitude_congruent (lon A) k HAlon) as [H | [H1 H2]];
      [left | right]; auto.
Qed.

End AnchoredZoom.

(** ** Numeric bounds on the projection *)

Section MercatorBounds.

Import WebMercatorProjection.

Lemma PI_gt_3 : 3 < PI.
Proof. pose proof PI2_3_2. lra. Qed.

Lemma cos_le_series (a : R) :
  -2 <= a <= 2 -> cos a <= 1 - a * a / 2 + a * a * a * a / 24.
Proof.
  intros [H1 H2]. destruct (pre_cos_bound a 0 H1 H2) as [_ H].
  unfold cos_approx, cos_term in H. simpl in H.
  eapply Rle_trans; [exact H|]. right. field.
Qed.

(** The sine of a clamped latitude stays at a distance from [-1] and [1]. *)
Lemma sin_clamped_away (c : R) :
  MIN_LATITUDE <= c <= MAX_LATITUDE ->
  33 / 10000 <= 1 + sin (c * DEG2RAD) /\ 33 / 10000 <= 1 - sin (c * DEG2RAD).
Proof.
  intros Hc. pose proof PI_gt_3 as H3. pose proof PI_4 as H4.
  set (a := MAX_LATITUDE * DEG2RAD).
  set (th := PI / 2 - a).
  assert (Hth : th = PI * (494887122 / 18000000000)).
  { unfold th, a, DEG2RAD. rewrite MAX_LATITUDE_eq. field. }
  assert (Hcos : cos th <= 1 - 33 / 10000).
  { eapply Rle_trans; [apply cos_le_series; rewrite Hth; split; nra|].
    assert (Hlo : 8 / 100 <= th) by (rewrite Hth; nra).
    assert (Hhi : th <= 11 / 100) by (rewrite Hth; nra).
    assert (Hsq : th * th <= 121 / 10000) by nra.
    assert (Hsq' : 64 / 10000 <= th * th) by nra.
    nra. }
  assert (Hsa : sin a = cos th).
  { unfold th. now rewrite cos_shift. }
  assert (Ha : - (PI / 2) < a < PI / 2).
  { unfold a. apply clamped_lat_radians. unfold MAX_LATITUDE. lra. }
  assert (Hr : - a <= c * DEG2RAD <= a).
  { unfold a, DEG2RAD, MIN_LATITUDE, MAX_LATITUDE in *. split; nra. }
  assert (Hup : sin (c * DEG2RAD) <= sin a).
  { destruct (Req_dec (c * DEG2RAD) a) as [->|Hne]; [lra|].
    left. apply sin_increasing_1; lra. }
  assert (Hdn : - sin a <= sin (c * DEG2RAD)).
  { rewrite <- sin_neg.
    destruct (Req_dec (- a) (c * DEG2RAD)) as [->|Hne]; [lra|].
    left. apply sin_increasing_1; lra. }
  lra.
Qed.

Lemma exp_12_ge : 729 <= exp 12.
Proof.
  replace 12 with (2 + 2 + (2 + 2) + (2 + 2)) by ring.
  rewrite !exp_plus.
  pose proof (exp_ineq1_le 2) as H.
  assert (H3 : 3 <= exp 2) by lra.
  set (e := exp 2) in *.
  assert (H9 : 9 <= e * e) by nra.
  set (f := e * e) in *.
  assert (H81 : 81 <= f * f) by nra.
  nra.
Qed.

(** The Mercator ordinate of a clamped latitude is bounded: no clamped
    latitude lies more than one world height away from the equator. *)
Lemma mercator_log_bounded (c : R) :
  MIN_LATITUDE <= c <= MAX_LATITUDE ->
  -12 <= ln ((1 + sin (c * DEG2RAD)) / (1 - sin (c * DEG2RAD))).
Proof.
  intros Hc. destruct (sin_clamped_away c Hc) as [H1 H2].
  pose proof (SIN_bound (c * DEG2RAD)) as [Hs1 Hs2].
  set (s := sin (c * DEG2RAD)) in *.
  assert (Hq : / 729 <= (1 + s) / (1 - s)).
  { apply Rmult_le_reg_r with (1 - s); [lra|].
    replace ((1 + s) / (1 - s) * (1 - s)) with (1 + s) by (field; lra).
    lra. }
  assert (He : exp (-12) <= / 729).
  { replace (-12) with (- (12)) by lra.
    rewrite exp_Ropp. apply Rinv_le_contravar; [lra | apply exp_12_ge]. }
  rewrite <- (ln_exp (-12)).
  destruct (Rle_lt_or_eq_dec _ _ (Rle_trans _ _ _ He Hq)) as [Hlt | Heq].
  - left. apply ln_increasing; [apply exp_pos | exact Hlt].
  - right. now rewrite Heq.
Qed.

Lemma mercator_log_bounded_above (c : R) :
  MIN_LATITUDE <= c <= MAX_LATITUDE ->
  ln ((1 + sin (c * DEG2RAD)) / (1 - sin (c * DEG2RAD))) <= 12.
Proof.
  intros Hc. destruct (sin_clamped_away c Hc) as [H1 H2].
  pose proof (SIN_bound (c * DEG2RAD)) as [Hs1 Hs2].
  set (s := sin (c * DEG2RAD)) in *.
  assert (Hq : (1 + s) / (1 - s) <= 729).
  { apply Rmult_le_reg_r with (1 - s); [lra|].
    replace ((1 + s) / (1 - s) * (1 - s)) with (1 + s) by (field; lra).
    lra. }
  assert (Hpos : 0 < (1 + s) / (1 - s)) by (apply Rdiv_lt_0_compat; lra).
  rewrite <- (ln_exp 12).
  destruct (Rle_lt_or_eq_dec _ _ (Rle_trans _ _ _ Hq exp_12_ge)) as [Hlt | Heq].
  - left. apply ln_increasing; assumption.
  - right. now rewrite Heq.
Qed.

(** The ordinate computed by [project] is bounded, whatever the input. *)
Lemma project_y_bounded (p : LatLng) :
  Rabs (py (project p)) <= 6 * EARTH_RADIUS.
Proof.
  unfold project. cbn [py].
  set (c := Rmax (Rmin MAX_LATITUDE (lat p)) (- MAX_LATITUDE)).
  assert (Hc : MIN_LATITUDE <= c <= MAX_LATITUDE).
  { pose proof (project_clamp_range (lat p)) as H. fold c in H.
    rewrite MIN_LATITUDE_eq. exact H. }
  pose proof (mercator_log_bounded c Hc) as Hlo.
  pose proof (mercator_log_bounded_above c Hc) as Hhi.
  pose proof EARTH_RADIUS_pos as Hd.
  set (L := ln ((1 + sin (c * DEG2RAD)) / (1 - sin (c * DEG2RAD)))) in *.
  apply Rabs_le. split; nra.
Qed.

(** At zoom 0 the tile row of a clamped latitude is at most 3/2. *)
Lemma tile_row_of_clamped (c lo : R) :
  MIN_LATITUDE <= c <= MAX_LATITUDE ->
  py (latLngToTile (mkLatLng c lo) 0) <= 3 / 2.
Proof.
  intros Hc. unfold latLngToTile, project. cbn [px py lat lon].
  rewrite project_clamp_id by (unfold MIN_LATITUDE, MAX_LATITUDE in *; lra).
  pose proof (mercator_log_bounded c Hc) as HL.
  set (L := ln ((1 + sin (c * DEG2RAD)) / (1 - sin (c * DEG2RAD)))) in *.
  unfold JS.pow2. rewrite Rpower_O by lra.
  pose proof PI_gt_3 as H3. pose proof EARTH_RADIUS_pos as Hd.
  replace ((PI * EARTH_RADIUS - EARTH_RADIUS * L / 2) / (2 * PI * EARTH_RADIUS) * 1)
    with (1 / 2 - L / (4 * PI)) by (field; lra).
  assert (- L / (4 * PI) <= 1).
  { apply Rmult_le_reg_r with (4 * PI); [lra|].
    replace (- L / (4 * PI) * (4 * PI)) with (- L) by (field; lra). lra. }
  unfold Rdiv in *. lra.
Qed.

(** At zoom 0 a tile row at or above [-1/2] lies north of 43 degrees. *)
Lemma tile_lat_north (x y : R) :
  y <= - (1 / 2) -> 43 <= lat (tileToLatLng x y 0).
Proof.
  intros Hy. unfold tileToLatLng, unproject. cbn [px py lat lon].
  unfold JS.pow2. rewrite Rpower_O by lra.
  pose proof PI_gt_3 as H3. pose proof PI_4 as H4.
  pose proof EARTH_RADIUS_pos as Hd.
  replace ((PI * EARTH_RADIUS - y / 1 * 2 * PI * EARTH_RADIUS) / EARTH_RADIUS)
    with (PI * (1 - 2 * y)) by (field; lra).
  set (t := PI * (1 - 2 * y)).
  assert (Ht : 6 <= t) by (unfold t; nra).
  set (u := exp t).
  assert (Hu : 7 <= u) by (pose proof (exp_ineq1_le t); unfold u; lra).
  set (phi := 2 * atan u - PI / 2).
  assert (Hphi : - (PI / 2) < phi < PI / 2).
  { apply unproject_lat_radians_range. lra. }
  assert (Hsin : 24 / 25 <= sin phi).
  { unfold phi. rewrite sin_2atan.
    apply Rmult_le_reg_r with (u * u + 1); [nra|].
    replace ((u * u - 1) / (u * u + 1) * (u * u + 1)) with (u * u - 1)
      by (field; nra).
    nra. }
  assert (Hpos : 24 / 25 <= phi).
  { destruct (Rle_dec phi 0) as [Hn|Hp].
    - assert (sin phi <= 0); [|lra].
      destruct (Req_dec phi 0) as [->|Hne]; [rewrite sin_0; lra|].
      replace phi with (- - phi) by ring. rewrite sin_neg.
      assert (0 < sin (- phi)); [|lra].
      apply sin_gt_0; lra.
    - pose proof (sin_lt_x phi). lra. }
  unfold RAD2DEG.
  apply Rmult_le_reg_r with PI; [lra|].
  replace (phi * (180 / PI) * PI) with (phi * 180) by (field; lra).
  nra.
Qed.

End MercatorBounds.

(** C2.  For every latitude in (-85, 85) and longitude in (-180, 180),
    [unproject (project p)] gives back [p] within 1e-9 in both
    coordinates (in exact arithmetic the two are equal); and [project]
    clamps the latitude to +-85.05112878 before use, so that for every
    input whatsoever the divisor [1 - sin] is non-zero and the argument of
    the logarithm is strictly positive, and the ordinate [y] is bounded by
    six Earth radii. *)
Theorem C2_project_unproject_roundtrip (la lo : R) :
  -85 < la < 85 -> -180 < lo < 180 ->
  let p := mkLatLng la lo in
  let q := WebMercatorProjection.unproject (WebMercatorProjection.project p) in
  Rabs (lat q - la) <= 1e-9 /\ Rabs (lon q - lo) <= 1e-9 /\
  (forall l : R,
     let c := Rmax (Rmin MAX_LATITUDE l) (- MAX_LATITUDE) in
     - MAX_LATITUDE <= c <= MAX_LATITUDE /\
     1 - sin (c * DEG2RAD) <> 0 /\
     0 < (1 + sin (c * DEG2RAD)) / (1 - sin (c * DEG2RAD))) /\
  (forall p' : LatLng,
     Rabs (py (WebMercatorProjection.project p')) <= 6 * EARTH_RADIUS).
Proof.
  intros Hla Hlo p q. unfold q.
  rewrite unproject_project by (unfold p, MAX_LATITUDE; simpl; lra).
  unfold p; simpl.
  replace (la - la) with 0 by ring. replace (lo - lo) with 0 by ring.
  rewrite Rabs_R0.
  split; [lra|]. split; [lra|]. split; [ | exact project_y_bounded].
  intros l. repeat split.
  - apply project_clamp_range.
  - apply project_clamp_range.
  - pose proof (project_well_defined l) as [H1 _]. simpl in H1. lra.
  - pose proof (project_well_defined l) as [_ [_ H3]]. exact H3.
Qed.

(** The round trip at the centre of the specification's scenario,
    latitude 51.505, longitude -0.09. *)
Lemma C2_roundtrip_witness :
  let p := mkLatLng 51.505 (-0.09) in
  let q := WebMercatorProjection.unproject (WebMercatorProjection.project p) in
  Rabs (lat q - 51.505) <= 1e-9 /\ Rabs (lon q - (-0.09)) <= 1e-9.
Proof.
  pose proof (C2_project_unproject_roundtrip 51.505 (-0.09)) as H.
  assert (H1 : -85 < 51.505 < 85) by lra.
  assert (H2 : -180 < -0.09 < 180) by lra.
  destruct (H H1 H2) as [Ha [Hb _]]. split; [exact Ha | exact Hb].
Defined.

(** ** The anchored zoom/rotate at concrete views *)

Section AnchoredZoomExamples.

Import WebMercatorProjection.

Lemma Math_floor_0 : JS.Math_floor 0 = 0.
Proof. unfold JS.Math_floor. now rewrite ZfloorZ. Qed.

Lemma pow2_0 : JS.pow2 0 = 1.
Proof. unfold JS.pow2. apply Rpower_O. lra. Qed.

Lemma rot_0 (x y : R) : rot x y (- 0) = mkPoint x y.
Proof.
  unfold rot. rewrite Ropp_0, cos_0, sin_0. f_equal; ring.
Qed.

Lemma rot_quarter (x : R) : rot x 0 (- (PI / 2)) = mkPoint 0 (- x).
Proof.
  unfold rot. rewrite cos_neg, sin_neg, cos_PI2, sin_PI2. f_equal; ring.
Qed.

Lemma latLngToTile_origin : latLngToTile (mkLatLng 0 0) 0 = mkPoint (1 / 2) (1 / 2).
Proof.
  unfold latLngToTile, project. cbn [lat lon px py].
  rewrite project_clamp_id by (unfold MAX_LATITUDE; lra).
  rewrite Rmult_0_l, sin_0, pow2_0.
  replace ((1 + 0) / (1 - 0)) with 1 by field. rewrite ln_1.
  pose proof PI_RGT_0. pose proof EARTH_RADIUS_pos.
  f_equal; field; lra.
Qed.

Lemma tileToLatLng_equator (x : R) :
  tileToLatLng x (1 / 2) 0 = mkLatLng 0 ((x - 1 / 2) * 360).
Proof.
  unfold tileToLatLng, unproject. cbn [lat lon px py]. rewrite pow2_0.
  pose proof PI_RGT_0. pose proof EARTH_RADIUS_pos.
  replace ((PI * EARTH_RADIUS - 1 / 2 / 1 * 2 * PI * EARTH_RADIUS) / EARTH_RADIUS)
    with 0 by (field; lra).
  rewrite exp_0, atan_1. unfold RAD2DEG. f_equal; field; lra.
Qed.

(** Before the operation the right edge of [world_view], two world widths
    east of the centre, shows latitude 0, longitude 0. *)
Lemma world_view_anchor : screenToLatLon world_view 1024 256 = mkLatLng 0 0.
Proof.
  unfold screenToLatLon, screenToLatLon_at, world_view.
  cbn [center zoom bearing canvas_width canvas_height dpr].
  rewrite Math_floor_0, latLngToTile_origin.
  replace (0 - 0) with 0 by ring. rewrite pow2_0.
  rewrite rot_0. cbn [px py].
  replace (1 / 2 + (256 - 512 / 1 / 2) / (TILE_SIZE * 1)) with (1 / 2)
    by (unfold TILE_SIZE; field).
  rewrite tileToLatLng_equator. cbn [lat lon].
  rewrite clampLatitude_id by (unfold MIN_LATITUDE, MAX_LATITUDE; lra).
  f_equal.
  replace ((1 / 2 + (1024 - 1024 / 1 / 2) / (TILE_SIZE * 1) - 1 / 2) * 360)
    with (0 + 360 * IZR 2) by (unfold TILE_SIZE; field).
  destruct (wrapLongitude_congruent 0 2) as [H | [_ H]]; [lra | exact H | ].
  rewrite Rabs_R0 in H. lra.
Qed.

Lemma clampLatitude_lower (b l : R) :
  b <= MAX_LATITUDE -> b <= l -> b <= GISUtils.clampLatitude l.
Proof.
  intros Hb Hl. unfold GISUtils.clampLatitude.
  eapply Rle_trans; [ | apply Rmax_r]. now apply Rmin_glb.
Qed.

(** The anchor coordinate after a quarter-turn rotation of [world_view]
    about its right edge. *)
Lemma world_view_anchor_after :
  43 <= lat (screenToLatLon
               (applyZoomRotateAbout world_view 1024 256 0 (PI / 2) None)
               1024 256).
Proof.
  unfold applyZoomRotateAbout, zoomRotate_anchor.
  fold (screenToLatLon world_view 1024 256). rewrite world_view_anchor.
  assert (Hz : Rmax (minZoom world_view) (Rmin (maxZoom world_view) 0) = 0).
  { unfold minZoom, maxZoom, world_view; simpl.
    rewrite Rmin_right by lra. apply Rmax_left; lra. }
  rewrite Hz.
  cbv beta zeta delta
    [screenToLatLon screenToLatLon_at world_view zoomRotate_newCenter].
  cbn [center zoom bearing canvas_width canvas_height dpr lat lon px py].
  rewrite rot_normalizeAngle, Math_floor_0.
  replace (0 - 0) with 0 by ring. rewrite pow2_0.
  replace ((256 - 512 / 1 / 2) / (TILE_SIZE * 1)) with 0
    by (unfold TILE_SIZE; field).
  rewrite rot_quarter.
  cbn [lat lon px py].
  apply clampLatitude_lower; [unfold MAX_LATITUDE; lra|].
  apply tile_lat_north.
  match goal with
  | |- py (latLngToTile (mkLatLng (GISUtils.clampLatitude ?l) ?o) 0) + _ <= _ =>
      pose proof (tile_row_of_clamped (GISUtils.clampLatitude l) o
                    (clampLatitude_range l))
  end.
  assert (Hk : (1024 - 1024 / 1 / 2) / (TILE_SIZE * 1) = 2)
    by (unfold TILE_SIZE; field).
  rewrite Hk in *. lra.
Qed.

End AnchoredZoomExamples.

(** C1 (counterexample to the claim as stated).  On a 1024 x 512 canvas
    showing the world at zoom 0, rotate by a quarter turn about the point
    (1024, 256) on the right edge, keeping the zoom at 0, which is inside
    the zoom range [0, 18].  The new centre falls south of the Mercator
    limit and is clamped, so the coordinate under the anchor moves from
    latitude 0 to a latitude of at least 43 degrees. *)
Lemma C1_anchor_drifts_when_center_clamped :
  let A := screenToLatLon world_view 1024 256 in
  let A' := screenToLatLon
              (applyZoomRotateAbout world_view 1024 256 0 (PI / 2) None)
              1024 256 in
  minZoom world_view <= 0 <= maxZoom world_view /\
  ~ (Rabs (lat A' - lat A) <= 1e-6 /\ Rabs (lon A' - lon A) <= 1e-6).
Proof.
  intros A A'. split.
  - unfold minZoom, maxZoom, world_view; simpl; lra.
  - intros [H _]. unfold A in H. rewrite world_view_anchor in H.
    pose proof world_view_anchor_after as H43. fold A' in H43.
    cbn [lat] in H. rewrite Rabs_right in H; lra.
Qed.

Section AnchoredZoomWitness.

Import WebMercatorProjection.

Lemma latLngToTile_origin_any (z : R) :
  latLngToTile (mkLatLng 0 0) z = mkPoint (JS.pow2 z / 2) (JS.pow2 z / 2).
Proof.
  unfold latLngToTile, project. cbn [lat lon px py].
  rewrite project_clamp_id by (unfold MAX_LATITUDE; lra).
  rewrite Rmult_0_l, sin_0.
  replace ((1 + 0) / (1 - 0)) with 1 by field. rewrite ln_1.
  pose proof PI_RGT_0. pose proof EARTH_RADIUS_pos.
  f_equal; field; lra.
Qed.

Lemma tileToLatLng_equator_any (x z : R) :
  lat (tileToLatLng x (JS.pow2 z / 2) z) = 0.
Proof.
  unfold tileToLatLng, unproject. cbn [lat lon px py].
  pose proof PI_RGT_0. pose proof EARTH_RADIUS_pos. pose proof (pow2_pos z).
  replace ((PI * EARTH_RADIUS - JS.pow2 z / 2 / JS.pow2 z * 2 * PI * EARTH_RADIUS)
           / EARTH_RADIUS) with 0 by (field; lra).
  rewrite exp_0, atan_1. unfold RAD2DEG. field; lra.
Qed.

(** Zooming [world_view] in to zoom 1 about its right edge keeps the new
    centre on the equator: the latitude clamp does not cut it. *)
Lemma world_view_zoom_in_center :
  lat (zoomRotate_newCenter world_view 1024 256
         (Rmax (minZoom world_view) (Rmin (maxZoom world_view) 1)) 0
         (screenToLatLon world_view 1024 256)) = 0.
Proof.
  rewrite world_view_anchor.
  unfold zoomRotate_newCenter. rewrite latLngToTile_origin_any, rot_0.
  cbn [px py].
  replace ((256 - canvas_height world_view / dpr world_view / 2) /
           (TILE_SIZE *
            JS.pow2 (Rmax (minZoom world_view) (Rmin (maxZoom world_view) 1) -
                     JS.Math_floor
                       (Rmax (minZoom world_view) (Rmin (maxZoom world_view) 1)))))
    with 0.
  - rewrite Rminus_0_r. apply tileToLatLng_equator_any.
  - unfold world_view at 1 2. cbn [canvas_height dpr].
    pose proof (pow2_pos
      (Rmax (minZoom world_view) (Rmin (maxZoom world_view) 1) -
       JS.Math_floor (Rmax (minZoom world_view) (Rmin (maxZoom world_view) 1)))).
    unfold TILE_SIZE. field. lra.
Qed.

End AnchoredZoomWitness.

(** Zooming [world_view] from zoom 0 to zoom 1 about the point (1024, 256)
    on its right edge leaves the coordinate under that point where it
    was. *)
Lemma C1_anchor_invariant_witness :
  let A := screenToLatLon world_view 1024 256 in
  let A' := screenToLatLon (applyZoomRotateAbout world_view 1024 256 1 0 None)
                           1024 256 in
  lat A' = lat A /\
  (lon A' = lon A \/ (Rabs (lon A') = 180 /\ Rabs (lon A) = 180)).
Proof.
  apply (C1_anchor_invariant_unclamped world_view 1024 256 1 0).
  rewrite world_view_zoom_in_center.
  unfold MIN_LATITUDE, MAX_LATITUDE. lra.
Defined.

(** ** The remainder operator and [wrapDeltaLon] *)

Section Remainder.









End Remainder.

(** ** Fly-to *)

Section FlyTo.



Lemma shortestAngleDiff_spec (from to : R) :
  - PI < shortestAngleDiff from to <= PI /\
  sin (from + shortestAngleDiff from to) = sin to /\
  cos (from + shortestAngleDiff from to) = cos to.
Proof.
  unfold shortestAngleDiff. split; [apply normalizeAngle_range|].
  destruct (normalizeAngle_sin_cos (to - from)) as [Hs Hc].
  rewrite sin_plus, cos_plus, Hs, Hc, sin_minus, Rtrigo1.cos_minus.
  pose proof (sin2_cos2 from) as H. unfold Rsqr in H.
  split.
  - transitivity (sin to * (sin from * sin from + cos from * cos from)); [ring|].
    rewrite H. ring.
  - transitivity (cos to * (sin from * sin from + cos from * cos from)); [ring|].
    rewrite H. ring.
Qed.

Lemma cube_le (u v : R) : 0 <= u -> u <= v -> u * u * u <= v * v * v.
Proof.
  intros Hu Huv.
  assert (u * u <= v * v) by nra.
  assert (0 <= u * u) by nra. nra.
Qed.

Lemma easeInOutCubic_mono (s t : R) :
  0 <= s -> s <= t -> t <= 1 ->
  EASING.easeInOutCubic s <= EASING.easeInOutCubic t.
Proof.
  intros H0 Hst H1. unfold EASING.easeInOutCubic.
  destruct (Rlt_dec s 0.5) as [Hs|Hs], (Rlt_dec t 0.5) as [Ht|Ht]; simpl.
  - pose proof (cube_le s t H0 Hst). lra.
  - pose proof (cube_le s (1 / 2) H0 ltac:(lra)).
    pose proof (cube_le (1 - t) (1 / 2) ltac:(lra) ltac:(lra)). lra.
  - lra.
  - pose proof (cube_le (1 - t) (1 - s) ltac:(lra) ltac:(lra)). lra.
Qed.

Lemma easeInOutCubic_ends :
  EASING.easeInOutCubic 0 = 0 /\ EASING.easeInOutCubic 1 = 1.
Proof.
  unfold EASING.easeInOutCubic.
  split; destruct Rlt_dec; simpl; lra.
Qed.


End FlyTo.



(** ** The viewport invariant *)

Section ViewportInvariant.






End ViewportInvariant.




(** ** Drag inertia *)

Section Inertia.

Import DragPanHandler.

Lemma hypot_nonneg (x y : R) : 0 <= JS.hypot x y.
Proof. unfold JS.hypot. apply sqrt_pos. Qed.





















End Inertia.




Section InertiaExamples.

Import DragPanHandler.






End InertiaExamples.




(** ** Tile indices of [_getTileUrl] *)

Section TileIndices.

Import TileLayer.
Local Open Scope Q_scope.

Lemma Qfloor_unique (q : Q) (m : Z) :
  inject_Z m <= q -> q < inject_Z (m + 1) -> Qfloor q = m.
Proof.
  intros H1 H2.
  assert (Hle : (m <= Qfloor q)%Z).
  { rewrite <- (Qfloor_Z m). now apply Qfloor_resp_le. }
  assert (Hlt : (Qfloor q < m + 1)%Z).
  { rewrite Zlt_Qlt. eapply Qle_lt_trans; [apply Qfloor_le | exact H2]. }
  lia.
Qed.

Lemma Qfloor_add_Z (q : Q) (n : Z) : Qfloor (q + inject_Z n) = (Qfloor q + n)%Z.
Proof.
  apply Qfloor_unique.
  - rewrite inject_Z_plus. pose proof (Qfloor_le q) as H. lra.
  - replace (Qfloor q + n + 1)%Z with ((Qfloor q + 1) + n)%Z by ring.
    rewrite inject_Z_plus. pose proof (Qlt_floor q) as H. lra.
Qed.

Lemma Qtrunc_bounds (q : Q) :
  (0 <= q -> inject_Z (Qtrunc q) <= q /\ q < inject_Z (Qtrunc q) + 1) /\
  (q < 0 -> q <= inject_Z (Qtrunc q) /\ inject_Z (Qtrunc q) < q + 1).
Proof.
  unfold Qtrunc. split; intros Hq.
  - destruct (Qle_bool 0 q) eqn:E.
    + pose proof (Qfloor_le q). pose proof (Qlt_floor q) as H2.
      rewrite inject_Z_plus in H2. split; [assumption | exact H2].
    + exfalso. apply Qle_bool_iff in Hq. congruence.
  - destruct (Qle_bool 0 q) eqn:E.
    + apply Qle_bool_iff in E. lra.
    + pose proof (Qle_ceiling q). pose proof (Qceiling_lt q) as H2.
      unfold Zminus in H2. rewrite inject_Z_plus in H2.
      change (inject_Z (- (1))) with (- (1)) in H2. split; [assumption | lra].
Qed.

Lemma Qdiv_mult_id (a n : Q) : 0 < n -> n * (a / n) == a.
Proof. intros Hn. apply Qmult_div_r. lra. Qed.

Lemma Qdiv_sign (a n : Q) : 0 < n -> (0 <= a -> 0 <= a / n) /\ (a < 0 -> a / n < 0).
Proof.
  intros Hn. pose proof (Qdiv_mult_id a n Hn) as E. split; intros Ha.
  - destruct (Qlt_le_dec (a / n) 0) as [Hlt|Hge]; [|assumption]. nra.
  - destruct (Qlt_le_dec (a / n) 0) as [Hlt|Hge]; [assumption|]. nra.
Qed.

(** [a % n] on rationals: it differs from [a] by a whole multiple of [n],
    is in [[0, n)] for [a >= 0] and has magnitude below [n] in general. *)
Lemma Qrem_shift (a n : Q) : Qrem a n == a + n * inject_Z (- Qtrunc (a / n)).
Proof. unfold Qrem. rewrite inject_Z_opp. ring. Qed.

Lemma Qrem_nonneg (a n : Q) : 0 < n -> 0 <= a -> 0 <= Qrem a n /\ Qrem a n < n.
Proof.
  intros Hn Ha. unfold Qrem.
  destruct (Qdiv_sign a n Hn) as [Hs _]. specialize (Hs Ha).
  destruct (Qtrunc_bounds (a / n)) as [Hb _]. destruct (Hb Hs) as [H1 H2].
  pose proof (Qdiv_mult_id a n Hn) as E.
  set (q := a / n) in *. set (t := inject_Z (Qtrunc q)) in *.
  split; nra.
Qed.

Lemma Qrem_bound (a n : Q) : 0 < n -> - n < Qrem a n /\ Qrem a n < n.
Proof.
  intros Hn. destruct (Qlt_le_dec a 0) as [Ha|Ha].
  - unfold Qrem.
    destruct (Qdiv_sign a n Hn) as [_ Hs]. specialize (Hs Ha).
    destruct (Qtrunc_bounds (a / n)) as [_ Hb]. destruct (Hb Hs) as [H1 H2].
    pose proof (Qdiv_mult_id a n Hn) as E.
    set (q := a / n) in *. set (t := inject_Z (Qtrunc q)) in *.
    split; nra.
  - destruct (Qrem_nonneg a n Hn Ha). split; lra.
Qed.

Lemma scale_of_pos (z : nat) : (0 < scale_of z)%Z.
Proof. unfold scale_of. apply Z.pow_pos_nonneg; lia. Qed.

Lemma intX_range (x : Q) (z : nat) : (0 <= intX x z < scale_of z)%Z.
Proof.
  unfold intX.
  assert (Hs : 0 < inject_Z (scale_of z)).
  { change 0 with (inject_Z 0). rewrite <- Zlt_Qlt. apply scale_of_pos. }
  set (s := inject_Z (scale_of z)) in *.
  destruct (Qrem_bound x s Hs) as [H1 H2].
  destruct (Qrem_nonneg (Qrem x s + s) s Hs) as [H3 H4]; [lra|].
  split.
  - rewrite <- (Qfloor_Z 0). apply Qfloor_resp_le. exact H3.
  - rewrite Zlt_Qlt. eapply Qle_lt_trans; [apply Qfloor_le | exact H4].
Qed.

Lemma intX_congruent (x : Q) (z : nat) :
  exists k : Z, intX x z = (Qfloor x + k * scale_of z)%Z.
Proof.
  unfold intX. set (s := inject_Z (scale_of z)).
  exists (- Qtrunc (x / s) + 1 + - Qtrunc ((Qrem x s + s) / s))%Z.
  rewrite <- Qfloor_add_Z. apply Qfloor_comp.
  unfold Qrem.
  set (t1 := Qtrunc (x / s)).
  set (t2 := Qtrunc ((x - s * inject_Z t1 + s) / s)).
  rewrite inject_Z_mult, !inject_Z_plus, !inject_Z_opp. fold s.
  change (inject_Z 1) with 1. ring.
Qed.

Lemma intX_mod (x : Q) (z : nat) : intX x z = (Qfloor x mod scale_of z)%Z.
Proof.
  destruct (intX_congruent x z) as [k Hk].
  pose proof (intX_range x z) as Hr.
  apply Z.mod_unique with (- k)%Z; [left; exact Hr | lia].
Qed.

Lemma intY_range (y : Q) (z : nat) : (0 <= intY y z <= scale_of z - 1)%Z.
Proof.
  unfold intY. pose proof (scale_of_pos z). lia.
Qed.

End TileIndices.

(** ** Placeholder substitution *)

Section Substitution.

Import JSString.
Local Open Scope string_scope.

Lemma prefix_app (pat post : string) : prefix pat (pat ++ post) = true.
Proof.
  induction pat as [|a pat IH]; simpl; [destruct post; reflexivity|].
  destruct (ascii_dec a a); [exact IH | congruence].
Qed.

Lemma drop_app (pat post : string) : drop (String.length pat) (pat ++ post) = post.
Proof. induction pat; simpl; auto. Qed.

Lemma append_assoc (a b c : string) : (a ++ b) ++ c = a ++ (b ++ c).
Proof. induction a; simpl; [reflexivity | now f_equal]. Qed.

Lemma replace_eq (pat rep s : string) :
  replace pat rep s =
  if prefix pat s then rep ++ drop (String.length pat) s
  else match s with
       | EmptyString => EmptyString
       | String c s' => String c (replace pat rep s')
       end.
Proof. destruct s; reflexivity. Qed.

(** [replace] rewrites the first occurrence and nothing else. *)
Lemma replace_first (pat rep pre post : string) :
  starts_none pat pre (pat ++ post) = true ->
  replace pat rep (pre ++ pat ++ post) = pre ++ rep ++ post.
Proof.
  induction pre as [|c pre IH]; intros H.
  - simpl "++". rewrite replace_eq, prefix_app, drop_app. reflexivity.
  - cbn [starts_none] in H. apply andb_true_iff in H. destruct H as [H1 H2].
    apply negb_true_iff in H1.
    rewrite replace_eq.
    change (String c pre ++ pat ++ post) with (String c (pre ++ pat ++ post)).
    rewrite H1. simpl. f_equal. now apply IH.
Qed.

Lemma inert_for_starts_none (c : ascii) (pre rest : string) :
  inert_for c pre = true -> starts_none (placeholder c) pre rest = true.
Proof.
  induction pre as [|a pre IH]; intros H; [reflexivity|].
  cbn [inert_for] in H. apply andb_true_iff in H. destruct H as [H1 H2].
  cbn [starts_none]. rewrite (IH H2), andb_true_r.
  apply negb_true_iff. unfold placeholder. cbn [prefix].
  destruct (ascii_dec "{" a) as [<-|Hne]; [|reflexivity].
  simpl in H1. destruct pre as [|d pre']; [discriminate|].
  simpl. destruct (ascii_dec c d) as [<-|]; [|reflexivity].
  rewrite Ascii.eqb_refl in H1. discriminate.
Qed.

Lemma inert_for_app (c : ascii) (p q : string) :
  inert_for c p = true -> inert_for c q = true -> inert_for c (p ++ q) = true.
Proof.
  induction p as [|a p IH]; intros Hp Hq; [exact Hq|].
  cbn [inert_for] in Hp. apply andb_true_iff in Hp. destruct Hp as [H1 H2].
  simpl "++". cbn [inert_for]. rewrite (IH H2 Hq), andb_true_r.
  destruct (Ascii.eqb a "{"); [|reflexivity].
  destruct p as [|d p']; [discriminate | exact H1].
Qed.

Lemma brace_free_inert (c : ascii) (s : string) :
  brace_free s = true -> inert_for c s = true.
Proof.
  induction s as [|a s IH]; intros H; [reflexivity|].
  simpl in H. apply andb_true_iff in H. destruct H as [H1 H2].
  cbn [inert_for]. rewrite (IH H2), andb_true_r.
  apply negb_true_iff in H1. now rewrite H1.
Qed.

Lemma brace_free_app (p q : string) :
  brace_free p = true -> brace_free q = true -> brace_free (p ++ q) = true.
Proof.
  induction p as [|a p IH]; intros Hp Hq; [exact Hq|].
  simpl in *. apply andb_true_iff in Hp. destruct Hp as [H1 H2].
  now rewrite H1, IH.
Qed.

Lemma string_of_uint_brace_free (d : Decimal.uint) :
  brace_free (NilEmpty.string_of_uint d) = true.
Proof. induction d; simpl; auto. Qed.

Lemma of_Z_brace_free (n : Z) : brace_free (of_Z n) = true.
Proof.
  unfold of_Z, NilZero.string_of_int.
  destruct (Z.to_int n) as [d|d].
  - unfold NilZero.string_of_uint. destruct d; try reflexivity;
      apply (string_of_uint_brace_free (_ d)).
  - simpl. unfold NilZero.string_of_uint. destruct d; try reflexivity;
      apply (string_of_uint_brace_free (_ d)).
Qed.

Lemma of_Z_inert (c : ascii) (n : Z) : inert_for c (of_Z n) = true.
Proof. apply brace_free_inert, of_Z_brace_free. Qed.

Lemma inert_split (s : string) :
  inert s = true ->
  inert_for "z" s = true /\ inert_for "x" s = true /\ inert_for "y" s = true.
Proof.
  unfold inert. intros H. apply andb_true_iff in H. destruct H as [H Hy].
  apply andb_true_iff in H. destruct H as [Hz Hx]. auto.
Qed.

(** Decimal numerals hold digits and a sign only. *)
Lemma string_of_uint_char_free (c : ascii) (d : Decimal.uint) :
  (c <> "0" /\ c <> "1" /\ c <> "2" /\ c <> "3" /\ c <> "4" /\ c <> "5" /\
   c <> "6" /\ c <> "7" /\ c <> "8" /\ c <> "9")%char ->
  char_free c (NilEmpty.string_of_uint d) = true.
Proof.
  intros H. decompose [and] H.
  induction d; cbn [NilEmpty.string_of_uint char_free]; try reflexivity;
    rewrite IHd, andb_true_r; apply negb_true_iff, Ascii.eqb_neq; congruence.
Qed.

Lemma of_Z_char_free (c : ascii) (n : Z) :
  (c <> "0" /\ c <> "1" /\ c <> "2" /\ c <> "3" /\ c <> "4" /\ c <> "5" /\
   c <> "6" /\ c <> "7" /\ c <> "8" /\ c <> "9" /\ c <> "-")%char ->
  char_free c (of_Z n) = true.
Proof.
  intros H.
  assert (Hd : forall d, char_free c (NilZero.string_of_uint d) = true).
  { intros d. unfold NilZero.string_of_uint.
    destruct d; try (apply (string_of_uint_char_free c (_ d)); tauto).
    cbn [char_free]. rewrite andb_true_r. apply negb_true_iff, Ascii.eqb_neq.
    intros E. symmetry in E. tauto. }
  unfold of_Z, NilZero.string_of_int.
  destruct (Z.to_int n) as [d|d]; [apply Hd|].
  cbn [char_free]. rewrite Hd, andb_true_r.
  apply negb_true_iff, Ascii.eqb_neq. intros E. symmetry in E. tauto.
Qed.

Lemma of_Z_not_empty (n : Z) : of_Z n <> "".
Proof.
  unfold of_Z, NilZero.string_of_int.
  destruct (Z.to_int n) as [d|d]; [ | discriminate].
  unfold NilZero.string_of_uint. destruct d; discriminate.
Qed.

Lemma of_Z_plain (n : Z) : plain (of_Z n) = true.
Proof.
  unfold plain.
  rewrite of_Z_brace_free.
  rewrite !of_Z_char_free by (repeat split; discriminate).
  destruct (String.eqb_spec (of_Z n) ""); [now destruct (of_Z_not_empty n) | reflexivity].
Qed.

(** What [plain] gives: a first character, which is none of the
    characters of a placeholder, and no opening brace. *)
Lemma plain_head (v : string) :
  plain v = true ->
  exists d v', v = String d v' /\
    d <> "}"%char /\ d <> "z"%char /\ d <> "x"%char /\ d <> "y"%char.
Proof.
  unfold plain. intros H.
  repeat (apply andb_true_iff in H; destruct H as [H ?]).
  destruct v as [|d v']; [discriminate|]. exists d, v'.
  cbn [char_free] in *.
  repeat match goal with
         | K : (_ && _)%bool = true |- _ =>
             apply andb_true_iff in K; destruct K as [K _];
             apply negb_true_iff, Ascii.eqb_neq in K
         end.
  repeat split; assumption.
Qed.

Lemma plain_brace_free (v : string) : plain v = true -> brace_free v = true.
Proof.
  unfold plain. intros H.
  repeat (apply andb_true_iff in H; destruct H as [H ?]). assumption.
Qed.

(** [replace] passes over a text in which no occurrence starts. *)
Lemma replace_skip (pat rep pre t : string) :
  starts_none pat pre t = true ->
  replace pat rep (pre ++ t) = pre ++ replace pat rep t.
Proof.
  induction pre as [|c pre IH]; intros H; [reflexivity|].
  cbn [starts_none] in H. apply andb_true_iff in H. destruct H as [H1 H2].
  apply negb_true_iff in H1.
  change (String c pre ++ t) with (String c (pre ++ t)).
  rewrite replace_eq, H1. cbn [append]. f_equal. now apply IH.
Qed.

Lemma replace_opt_after_plain (c : ascii) (o : option string) (v t : string) :
  plain v = true -> replace_opt c o (v ++ t) = v ++ replace_opt c o t.
Proof.
  intros Hv. destruct o as [rep|]; [ | reflexivity]. cbn [replace_opt].
  apply replace_skip, inert_for_starts_none, brace_free_inert.
  now apply plain_brace_free.
Qed.

Lemma replace_opt_after_other (a b : ascii) (o : option string) (t : string) :
  a <> b -> b <> "{"%char ->
  replace_opt a o (placeholder b ++ t) = placeholder b ++ replace_opt a o t.
Proof.
  intros Hab Hb. destruct o as [rep|]; [ | reflexivity]. cbn [replace_opt].
  apply replace_skip. unfold placeholder. cbn [starts_none append prefix].
  destruct (ascii_dec "{" "{"); [ | congruence].
  destruct (ascii_dec a b); [contradiction|].
  destruct (ascii_dec "{" b); [congruence|].
  destruct (ascii_dec "{" "}"); [discriminate | reflexivity].
Qed.

Lemma replace_head (c : ascii) (rep t : string) :
  replace (placeholder c) rep (placeholder c ++ t) = rep ++ t.
Proof. now rewrite replace_eq, prefix_app, drop_app. Qed.

Lemma prefix_placeholder (b : ascii) (s : string) :
  prefix (placeholder b) s = true <-> exists r, s = placeholder b ++ r.
Proof.
  split.
  - unfold placeholder.
    destruct s as [|c0 [|c1 [|c2 s]]]; cbn [prefix]; try discriminate.
    + destruct (ascii_dec "{" c0); discriminate.
    + destruct (ascii_dec "{" c0); [ | discriminate].
      destruct (ascii_dec b c1); discriminate.
    + destruct (ascii_dec "{" c0) as [<-|]; [ | discriminate].
      destruct (ascii_dec b c1) as [<-|]; [ | discriminate].
      destruct (ascii_dec "}" c2) as [<-|]; [ | discriminate].
      intros _. now exists s.
  - intros [r ->]. apply prefix_app.
Qed.

(** Writing a plain value in place of a placeholder brings no letter
    followed by a closing brace to the front of a text. *)
Lemma replace_keeps_front (a b : ascii) (v t r : string) :
  plain v = true ->
  (b = "z" \/ b = "x" \/ b = "y")%char ->
  replace (placeholder a) v t = String b (String "}" r) ->
  exists r', t = String b (String "}" r').
Proof.
  intros Hv Hb.
  destruct (plain_head v Hv) as (d & v' & Ev & Hd1 & Hdz & Hdx & Hdy).
  subst v.
  assert (Hdb : d <> b) by (destruct Hb as [-> | [-> | ->]]; assumption).
  rewrite replace_eq.
  destruct (prefix (placeholder a) t) eqn:E.
  { cbn [append]. intros H. injection H as H _. contradiction. }
  destruct t as [|c1 t1]; [discriminate|].
  intros H. injection H as -> H.
  rewrite replace_eq in H.
  destruct (prefix (placeholder a) t1) eqn:E1.
  { cbn [append] in H. injection H as H _. contradiction. }
  destruct t1 as [|c2 t2]; [discriminate|].
  injection H as -> _. now exists t2.
Qed.

Lemma head_kept (a b : ascii) (o : option string) (c : ascii) (t : string) :
  (forall v, o = Some v -> plain v = true) ->
  (b = "z" \/ b = "x" \/ b = "y")%char ->
  prefix (placeholder b) (String c t) = false ->
  prefix (placeholder b) (String c (replace_opt a o t)) = false.
Proof.
  intros Ho Hb Hp. destruct o as [v|]; [ | exact Hp]. cbn [replace_opt].
  apply not_true_is_false. intros H.
  apply prefix_placeholder in H. destruct H as [r H].
  unfold placeholder in H. cbn [append] in H. injection H as -> H.
  destruct (replace_keeps_front a b v t r (Ho v eq_refl) Hb H) as [r' ->].
  assert (Hp' : prefix (placeholder b) (String "{" (String b (String "}" r'))) = true)
    by (apply prefix_placeholder; now exists r').
  congruence.
Qed.

Lemma replace_opt_cons (a : ascii) (o : option string) (c : ascii) (t : string) :
  (if prefix (placeholder a) (String c t) then o else None) = None ->
  replace_opt a o (String c t) = String c (replace_opt a o t).
Proof.
  intros H. destruct o as [v|]; [ | reflexivity]. cbn [replace_opt].
  rewrite replace_eq.
  destruct (prefix (placeholder a) (String c t)); [discriminate | reflexivity].
Qed.

Lemma replace_opt_nil (a : ascii) (o : option string) : replace_opt a o "" = "".
Proof. destruct o; reflexivity. Qed.

Lemma fill_first_skip (vz vx vy : option string) (t : string) : forall k,
  fill_first k vz vx vy t = fill_first 0 vz vx vy (drop k t).
Proof.
  induction t as [|c t IH]; intros k.
  - destruct k; reflexivity.
  - destruct k as [|k]; [reflexivity|]. cbn [fill_first drop]. apply IH.
Qed.

Lemma pending_some (b : bool) (o : option string) (v : string) :
  (if b then o else None) = Some v -> b = true /\ o = Some v.
Proof. destruct b; [auto | discriminate]. Qed.

Lemma length_drop_placeholder (b : ascii) (r : string) (n : nat) :
  (String.length (placeholder b ++ r) <= S n -> String.length r <= n)%nat.
Proof. cbn. lia. Qed.

(** The three replacements of the code, one after the other, give what
    the single pass gives, when the values are plain. *)
Lemma fill_first_replace (n : nat) : forall (t : string) (vz vx vy : option string),
  (String.length t <= n)%nat ->
  (forall v, vz = Some v -> plain v = true) ->
  (forall v, vx = Some v -> plain v = true) ->
  (forall v, vy = Some v -> plain v = true) ->
  fill_first 0 vz vx vy t =
  replace_opt "y" vy (replace_opt "x" vx (replace_opt "z" vz t)).
Proof.
  induction n as [|n IH]; intros t vz vx vy Hlen Hz Hx Hy.
  - destruct t; [ | cbn in Hlen; lia]. now rewrite !replace_opt_nil.
  - destruct t as [|c t']; [now rewrite !replace_opt_nil|].
    cbn [fill_first].
    change "{z}" with (placeholder "z"). change "{x}" with (placeholder "x").
    change "{y}" with (placeholder "y").
    destruct (if prefix (placeholder "z") (String c t') then vz else None)
      as [v|] eqn:Ez.
    { apply pending_some in Ez. destruct Ez as [Ep ->].
      apply prefix_placeholder in Ep. destruct Ep as [r Er].
      rewrite Er in Hlen. apply length_drop_placeholder in Hlen.
      unfold placeholder in Er. cbn [append] in Er. injection Er as -> ->.
      rewrite fill_first_skip. cbn [drop].
      rewrite (IH r None vx vy Hlen) by (assumption || discriminate).
      change (String "{" (String "z" (String "}" r))) with (placeholder "z" ++ r).
      cbn [replace_opt]. rewrite replace_head.
      now rewrite !replace_opt_after_plain by auto. }
    destruct (if prefix (placeholder "x") (String c t') then vx else None)
      as [v|] eqn:Ex.
    { apply pending_some in Ex. destruct Ex as [Ep ->].
      apply prefix_placeholder in Ep. destruct Ep as [r Er].
      rewrite Er in Hlen. apply length_drop_placeholder in Hlen.
      unfold placeholder in Er. cbn [append] in Er. injection Er as -> ->.
      rewrite fill_first_skip. cbn [drop].
      rewrite (IH r vz None vy Hlen) by (assumption || discriminate).
      change (String "{" (String "x" (String "}" r))) with (placeholder "x" ++ r).
      rewrite replace_opt_after_other by discriminate.
      cbn [replace_opt]. rewrite replace_head.
      now rewrite replace_opt_after_plain by auto. }
    destruct (if prefix (placeholder "y") (String c t') then vy else None)
      as [v|] eqn:Ey.
    { apply pending_some in Ey. destruct Ey as [Ep ->].
      apply prefix_placeholder in Ep. destruct Ep as [r Er].
      rewrite Er in Hlen. apply length_drop_placeholder in Hlen.
      unfold placeholder in Er. cbn [append] in Er. injection Er as -> ->.
      rewrite fill_first_skip. cbn [drop].
      rewrite (IH r vz vx None Hlen) by (assumption || discriminate).
      change (String "{" (String "y" (String "}" r))) with (placeholder "y" ++ r).
      rewrite !replace_opt_after_other by discriminate.
      cbn [replace_opt]. now rewrite replace_head. }
    cbn in Hlen.
    rewrite (IH t' vz vx vy) by (assumption || lia).
    rewrite (replace_opt_cons "z") by assumption.
    assert (Ex' : (if prefix (placeholder "x") (String c (replace_opt "z" vz t'))
                   then vx else None) = None).
    { destruct vx as [v|]; [ | match goal with |- (if ?b then _ else _) = _ => now destruct b end].
      destruct (prefix (placeholder "x") (String c t')) eqn:E; [discriminate|].
      rewrite (head_kept "z" "x" vz c t' Hz) by auto. reflexivity. }
    rewrite (replace_opt_cons "x") by assumption.
    assert (Ey' : (if prefix (placeholder "y")
                        (String c (replace_opt "x" vx (replace_opt "z" vz t')))
                   then vy else None) = None).
    { destruct vy as [v|]; [ | match goal with |- (if ?b then _ else _) = _ => now destruct b end].
      destruct (prefix (placeholder "y") (String c t')) eqn:E; [discriminate|].
      rewrite (head_kept "x" "y" vx c _ Hx); [reflexivity | auto | ].
      now apply head_kept; auto. }
    now rewrite (replace_opt_cons "y") by assumption.
Qed.

Lemma to_int_not_nil (n : Z) :
  Z.to_int n <> Decimal.Pos Decimal.Nil /\ Z.to_int n <> Decimal.Neg Decimal.Nil.
Proof.
  split; intros E; pose proof (DecimalZ.of_to n) as H; rewrite E in H;
    cbn in H; subst n; discriminate E.
Qed.

End Substitution.

Section TileUrl.

Import JSString TileLayer.
Local Open Scope string_scope.

Lemma replace_placeholder (c : ascii) (rep pre post : string) :
  inert_for c pre = true ->
  replace (placeholder c) rep (pre ++ placeholder c ++ post) = pre ++ rep ++ post.
Proof.
  intros H. apply replace_first. now apply inert_for_starts_none.
Qed.

Lemma append_nil_r (s : string) : s ++ "" = s.
Proof. induction s; simpl; [reflexivity | now f_equal]. Qed.

Lemma getTileUrl_suffix (env : Env) (l : Layer) (x y : Q) (z : nat) :
  _getTileUrl env l x y z =
  replace "{y}" (of_Z (intY y z))
    (replace "{x}" (of_Z (intX x z))
       (replace "{z}" (of_Z (Z.of_nat z)) (urlTemplate l)))
  ++ suffix_of env l.
Proof.
  unfold _getTileUrl, suffix_of, _shouldRequestRetina.
  rewrite (andb_comm (want env)).
  destruct (supportsRetina l && (_retinaAvailable l && want env));
    [reflexivity | now rewrite append_nil_r].
Qed.

(** A decimal numeral reads back as the integer it was written from. *)
Lemma of_Z_reads_back (n : Z) :
  option_map Z.of_int (NilZero.int_of_string (of_Z n)) = Some n.
Proof.
  unfold of_Z. destruct (to_int_not_nil n) as [H1 H2].
  rewrite (NilZero.isi _ H1 H2). cbn [option_map]. f_equal.
  apply DecimalZ.of_to.
Qed.

(** The three replacements of [_getTileUrl] amount to one pass over the
    template. *)
Lemma getTileUrl_fill_first (env : Env) (l : Layer) (x y : Q) (z : nat) :
  _getTileUrl env l x y z =
  fill_first 0 (Some (of_Z (Z.of_nat z))) (Some (of_Z (intX x z)))
    (Some (of_Z (intY y z))) (urlTemplate l)
  ++ suffix_of env l.
Proof.
  rewrite getTileUrl_suffix. f_equal. symmetry.
  apply (fill_first_replace (String.length (urlTemplate l)));
    [apply Nat.le_refl | | | ];
    intros v E; injection E as <-; apply of_Z_plain.
Qed.

(** Templates with each placeholder once, in the three orders in use. *)
Lemma getTileUrl_zxy (env : Env) (l : Layer) (x y : Q) (z : nat)
    (p0 p1 p2 p3 : string) :
  inert p0 = true -> inert p1 = true -> inert p2 = true ->
  urlTemplate l = p0 ++ "{z}" ++ p1 ++ "{x}" ++ p2 ++ "{y}" ++ p3 ->
  _getTileUrl env l x y z =
  p0 ++ of_Z (Z.of_nat z) ++ p1 ++ of_Z (intX x z) ++ p2 ++ of_Z (intY y z)
     ++ p3 ++ suffix_of env l.
Proof.
  intros H0 H1 H2 Ht.
  destruct (inert_split _ H0) as [H0z [H0x H0y]].
  destruct (inert_split _ H1) as [H1z [H1x H1y]].
  destruct (inert_split _ H2) as [H2z [H2x H2y]].
  rewrite getTileUrl_suffix, Ht.
  set (Zs := of_Z (Z.of_nat z)). set (Xs := of_Z (intX x z)).
  set (Ys := of_Z (intY y z)).
  change "{z}" with (placeholder "z").
  change "{x}" with (placeholder "x").
  change "{y}" with (placeholder "y").
  rewrite replace_placeholder by assumption.
  replace (p0 ++ Zs ++ p1 ++ placeholder "x" ++ p2 ++ placeholder "y" ++ p3)
    with ((p0 ++ Zs ++ p1) ++ placeholder "x" ++ p2 ++ placeholder "y" ++ p3)
    by (now rewrite !append_assoc).
  rewrite replace_placeholder
    by (repeat apply inert_for_app; auto; apply of_Z_inert).
  replace ((p0 ++ Zs ++ p1) ++ Xs ++ p2 ++ placeholder "y" ++ p3)
    with ((p0 ++ Zs ++ p1 ++ Xs ++ p2) ++ placeholder "y" ++ p3)
    by (now rewrite !append_assoc).
  rewrite replace_placeholder
    by (repeat apply inert_for_app; auto; apply of_Z_inert).
  now rewrite !append_assoc.
Qed.



(** The URL of any coordinates is the URL of the tile with the in-range
    indices. *)
Lemma getTileUrl_of_indices (env : Env) (l : Layer) (x y : Q) (z : nat) :
  _getTileUrl env l x y z =
  _getTileUrl env l (inject_Z (intX x z)) (inject_Z (intY y z)) z.
Proof.
  assert (Ex : intX (inject_Z (intX x z)) z = intX x z).
  { rewrite (intX_mod (inject_Z (intX x z))), Qfloor_Z.
    apply Z.mod_small, intX_range. }
  assert (Ey : intY (inject_Z (intY y z)) z = intY y z).
  { pose proof (intY_range y z) as H. unfold intY at 1. rewrite Qfloor_Z. lia. }
  now rewrite !getTileUrl_suffix, Ex, Ey.
Qed.

End TileUrl.

(** C10.  For every integer zoom [z >= 0] and all rational tile
    coordinates [x], [y], the indices that [_getTileUrl] writes into the
    URL are in range: the x index is [floor x] reduced modulo [2^z], in
    [[0, 2^z)], and the y index is [floor y] clamped into [[0, 2^z - 1]].
    The URL is the template with the decimal numerals of the zoom and of
    these two indices written at the first occurrence of [{z}], [{x}] and
    [{y}] (followed by the retina suffix, if any): for a template
    [p0{z}p1{x}p2{y}p3] it is [p0], the zoom, [p1], the x index, [p2], the
    y index, [p3]; it is the URL of the in-range tile itself; and a
    numeral reads back as the integer it was written from. *)
Theorem C10_tile_indices_in_range (x y : Q) (z : nat) :
  let ix := TileLayer.intX x z in
  let iy := TileLayer.intY y z in
  (ix = Qfloor x mod 2 ^ Z.of_nat z /\
   0 <= ix < 2 ^ Z.of_nat z /\
   iy = Z.max 0 (Z.min (2 ^ Z.of_nat z - 1) (Qfloor y)) /\
   0 <= iy <= 2 ^ Z.of_nat z - 1)%Z /\
  (forall env l,
     TileLayer._getTileUrl env l x y z =
     (JSString.fill_first 0 (Some (JSString.of_Z (Z.of_nat z)))
        (Some (JSString.of_Z ix)) (Some (JSString.of_Z iy))
        (TileLayer.urlTemplate l)
      ++ TileLayer.suffix_of env l)%string) /\
  (forall env l p0 p1 p2 p3,
     JSString.inert p0 = true -> JSString.inert p1 = true ->
     JSString.inert p2 = true ->
     TileLayer.urlTemplate l =
       (p0 ++ "{z}" ++ p1 ++ "{x}" ++ p2 ++ "{y}" ++ p3)%string ->
     TileLayer._getTileUrl env l x y z =
       (p0 ++ JSString.of_Z (Z.of_nat z) ++ p1 ++ JSString.of_Z ix ++ p2
           ++ JSString.of_Z iy ++ p3 ++ TileLayer.suffix_of env l)%string) /\
  (forall env l,
     TileLayer._getTileUrl env l x y z =
     TileLayer._getTileUrl env l (inject_Z ix) (inject_Z iy) z) /\
  (forall n : Z,
     option_map Z.of_int (NilZero.int_of_string (JSString.of_Z n)) = Some n).
Proof.
  intros ix iy. split; [ | split; [ | split; [ | split]]].
  - split; [apply intX_mod|]. split; [apply intX_range|].
    split; [reflexivity | apply intY_range].
  - intros env l. apply getTileUrl_fill_first.
  - intros env l p0 p1 p2 p3. apply getTileUrl_zxy.
  - intros env l. apply getTileUrl_of_indices.
  - apply of_Z_reads_back.
Qed.

(** ** Eviction *)

Section Eviction.

Import TileLayer.

Lemma insert_entry_perm (e : string * Tile) (es : list (string * Tile)) :
  Permutation (insert_entry e es) (e :: es).
Proof.
  induction es as [|x r IH]; simpl; [apply Permutation_refl|].
  destruct (lastUsed (snd e) <=? lastUsed (snd x))%Z.
  - apply Permutation_refl.
  - eapply perm_trans; [apply perm_skip, IH | apply perm_swap].
Qed.

Lemma sort_entries_perm (es : list (string * Tile)) :
  Permutation (sort_entries es) es.
Proof.
  induction es as [|x r IH]; simpl; [constructor|].
  eapply perm_trans; [apply insert_entry_perm | now apply perm_skip].
Qed.

Lemma insert_entry_sorted (e : string * Tile) (es : list (string * Tile)) :
  StronglySorted older es -> StronglySorted older (insert_entry e es).
Proof.
  induction 1 as [|x r Hr IH Hx]; simpl.
  - repeat constructor.
  - destruct (lastUsed (snd e) <=? lastUsed (snd x))%Z eqn:E.
    + apply Z.leb_le in E. constructor; [now constructor|].
      constructor; [exact E|].
      rewrite Forall_forall in *. intros y Hy. unfold older in *.
      specialize (Hx y Hy). lia.
    + apply Z.leb_gt in E. constructor; [exact IH|].
      rewrite Forall_forall in *. intros y Hy.
      apply (Permutation_in _ (insert_entry_perm e r)) in Hy.
      destruct Hy as [<- | Hy]; [unfold older; lia | now apply Hx].
Qed.

Lemma sort_entries_sorted (es : list (string * Tile)) :
  StronglySorted older (sort_entries es).
Proof.
  induction es; simpl; [constructor | now apply insert_entry_sorted].
Qed.

Lemma sorted_app_order (a b : list (string * Tile)) :
  StronglySorted older (a ++ b) ->
  forall x y, In x a -> In y b -> older x y.
Proof.
  induction a as [|h a IH]; intros Hs x y Hx Hy; [contradiction|].
  simpl in Hs. inversion Hs as [|? ? Hs' Hall]; subst.
  destruct Hx as [<- | Hx].
  - rewrite Forall_forall in Hall. apply Hall, in_or_app. now right.
  - now apply IH.
Qed.

(** The loop of deletions is a filter: the entries that stay keep their
    order. *)
Lemma delete_keys_filter (ks : list string) : forall c,
  delete_keys ks c =
  filter (fun e => negb (existsb (String.eqb (fst e)) ks)) c.
Proof.
  unfold delete_keys.
  induction ks as [|k ks IH]; intros c; simpl.
  - induction c as [|e c IHc]; simpl; [reflexivity | now f_equal].
  - rewrite IH. unfold map_delete.
    induction c as [|e c IHc]; simpl; [reflexivity|].
    destruct (String.eqb (fst e) k) eqn:E; simpl.
    + exact IHc.
    + destruct (existsb (String.eqb (fst e)) ks); simpl; [exact IHc | now f_equal].
Qed.

Lemma filter_perm {A : Type} (f : A -> bool) (l l' : list A) :
  Permutation l l' -> Permutation (filter f l) (filter f l').
Proof.
  induction 1 as [|x l l' _ IH|x y l|l l' l'' _ IH1 _ IH2]; simpl.
  - constructor.
  - destruct (f x); [now constructor | exact IH].
  - destruct (f x), (f y); try apply Permutation_refl. apply perm_swap.
  - eapply perm_trans; eassumption.
Qed.

Lemma existsb_key_in (k : string) (ks : list string) :
  existsb (String.eqb k) ks = true <-> In k ks.
Proof.
  rewrite existsb_exists. split.
  - intros [x [Hx E]]. apply String.eqb_eq in E. now subst.
  - intros H. exists k. split; [assumption | apply String.eqb_refl].
Qed.

(** Filtering a cache with distinct keys by the keys of a part of it
    leaves the other part. *)
Lemma filter_keys_split (a b : list (string * Tile)) :
  NoDup (map fst (a ++ b)) ->
  filter (fun e => negb (existsb (String.eqb (fst e)) (map fst a))) (a ++ b) = b.
Proof.
  intros Hnd. rewrite filter_app.
  assert (Ha : filter (fun e => negb (existsb (String.eqb (fst e)) (map fst a))) a = []).
  { assert (G : forall l, incl l a ->
      filter (fun e => negb (existsb (String.eqb (fst e)) (map fst a))) l = []).
    { induction l as [|e l IHl]; intros Hin; [reflexivity|]. simpl.
      assert (He : existsb (String.eqb (fst e)) (map fst a) = true).
      { apply existsb_key_in, in_map, Hin. now left. }
      rewrite He. simpl. apply IHl. intros y Hy. apply Hin. now right. }
    apply G, incl_refl. }
  rewrite Ha. simpl.
  rewrite map_app in Hnd.
  assert (G : forall l, incl l b ->
    filter (fun e => negb (existsb (String.eqb (fst e)) (map fst a))) l = l).
  { induction l as [|e l IHl]; intros Hin; [reflexivity|]. simpl.
    assert (He : existsb (String.eqb (fst e)) (map fst a) = false).
    { apply not_true_is_false. rewrite existsb_key_in. intros Hk.
      assert (Hb : In (fst e) (map fst b)) by (apply in_map, Hin; now left).
      clear - Hnd Hk Hb. induction (map fst a) as [|h t IHt]; [contradiction|].
      simpl in Hnd. inversion Hnd as [|? ? Hnot Hnd']; subst.
      destruct Hk as [-> | Hk].
      - apply Hnot, in_or_app. now right.
      - now apply IHt. }
    rewrite He. simpl. f_equal. apply IHl. intros y Hy. apply Hin. now right. }
  apply G, incl_refl.
Qed.

Lemma filter_no_keys (c : list (string * Tile)) :
  filter (fun e => negb (existsb (String.eqb (fst e)) [])) c = c.
Proof. induction c as [|e c IH]; simpl; [reflexivity | now f_equal]. Qed.

End Eviction.

(** C4.  In a cache with distinct keys (a [Map]) that holds
    [maxCacheSize + k] tiles, one eviction pass leaves exactly
    [maxCacheSize] entries; it removes [k] entries, the removed and the
    remaining entries together are the entries of the cache before the
    pass, and no removed entry was used later than a remaining one: the
    removed entries are the [k] least recently used (among equally old
    ones, those inserted first).  The entries that stay keep their order.
    A cache of at most [maxCacheSize] entries is left as it is. *)
Theorem C4_eviction_removes_least_recently_used (l : TileLayer.Layer) (k : nat) :
  NoDup (map fst (TileLayer.tileCache l)) ->
  (List.length (TileLayer.tileCache l) <= TileLayer.maxCacheSize l ->
   TileLayer._performEviction l = l)%nat /\
  (List.length (TileLayer.tileCache l) = TileLayer.maxCacheSize l + k ->
   let l' := TileLayer._performEviction l in
   List.length (TileLayer.tileCache l') = TileLayer.maxCacheSize l /\
   List.length (TileLayer.evicted l) = k /\
   Permutation (TileLayer.evicted l ++ TileLayer.tileCache l')
               (TileLayer.tileCache l) /\
   (forall r e, In r (TileLayer.evicted l) -> In e (TileLayer.tileCache l') ->
                (TileLayer.lastUsed (snd r) <= TileLayer.lastUsed (snd e))%Z) /\
   TileLayer.tileCache l' =
     filter (fun e => negb (existsb (String.eqb (fst e))
                              (map fst (TileLayer.evicted l))))
            (TileLayer.tileCache l))%nat.
Proof.
  intros Hnd. split.
  - intros Hle. unfold TileLayer._performEviction.
    apply Nat.leb_le in Hle. now rewrite Hle.
  - intros Hlen l'.
    set (c := TileLayer.tileCache l) in *.
    set (S := TileLayer.sort_entries c).
    assert (HS : Permutation S c) by apply sort_entries_perm.
    assert (HlenS : List.length S = (TileLayer.maxCacheSize l + k)%nat).
    { rewrite (Permutation_length HS). exact Hlen. }
    assert (Hev : TileLayer.evicted l = firstn k S).
    { unfold TileLayer.evicted. fold c. fold S. f_equal. lia. }
    set (R := firstn k S) in *. set (K := skipn k S).
    assert (HRK : S = R ++ K) by (symmetry; apply firstn_skipn).
    assert (HndS : NoDup (map fst (R ++ K))).
    { rewrite <- HRK. eapply Permutation_NoDup; [ | exact Hnd].
      apply Permutation_map, Permutation_sym, HS. }
    assert (Hc' : TileLayer.tileCache l' =
                  filter (fun e => negb (existsb (String.eqb (fst e)) (map fst R))) c).
    { unfold l', TileLayer._performEviction. fold c.
      destruct (Nat.leb_spec (List.length c) (TileLayer.maxCacheSize l)) as [Hle|Hgt].
      - assert (k = 0)%nat by lia. subst k. unfold R. simpl.
        symmetry. apply filter_no_keys.
      - simpl. rewrite delete_keys_filter, Hev. reflexivity. }
    assert (HK : Permutation (TileLayer.tileCache l') K).
    { rewrite Hc'. rewrite <- (filter_keys_split R K HndS).
      apply filter_perm. rewrite <- HRK. now apply Permutation_sym. }
    assert (HlenR : List.length R = k).
    { unfold R. rewrite length_firstn. lia. }
    assert (HlenK : List.length K = TileLayer.maxCacheSize l).
    { unfold K. rewrite length_skipn. lia. }
    rewrite Hev. repeat split.
    + rewrite (Permutation_length HK). exact HlenK.
    + exact HlenR.
    + eapply perm_trans; [apply Permutation_app_head, HK|].
      rewrite <- HRK. exact HS.
    + intros r e Hr He.
      apply (Permutation_in _ HK) in He.
      apply (sorted_app_order R K); [ | assumption | assumption].
      rewrite <- HRK. apply sort_entries_sorted.
    + exact Hc'.
Qed.

(** One pass over [crowded_layer] removes the two tiles last used at time
    10 and keeps the other three in their order. *)
Lemma C4_eviction_witness :
  let l' := TileLayer._performEviction crowded_layer in
  map fst (TileLayer.evicted crowded_layer) = ["3/1/0"; "3/3/0"]%string /\
  map fst (TileLayer.tileCache l') = ["3/0/0"; "3/2/0"; "3/4/0"]%string /\
  List.length (TileLayer.tileCache l') = 3%nat /\
  (forall r e, In r (TileLayer.evicted crowded_layer) ->
               In e (TileLayer.tileCache l') ->
               (TileLayer.lastUsed (snd r) <= TileLayer.lastUsed (snd e))%Z).
Proof.
  assert (Hnd : NoDup (map fst (TileLayer.tileCache crowded_layer))).
  { simpl. repeat constructor; simpl; intuition discriminate. }
  destruct (C4_eviction_removes_least_recently_used crowded_layer 2 Hnd)
    as [_ H].
  destruct (H eq_refl) as [Hlen [_ [_ [Hold _]]]].
  split; [reflexivity|]. split; [reflexivity|]. split; [exact Hlen | exact Hold].
Defined.

(** ** Tile loading *)

Section Loading.

Import TileLayer.

Lemma map_get_has {A : Type} (k : string) (m : list (string * A)) :
  map_has k m = true <-> exists v, map_get k m = Some v.
Proof.
  unfold map_has, map_get. induction m as [|e m IH]; simpl.
  - split; [discriminate | intros [v H]; discriminate].
  - destruct (String.eqb (fst e) k); simpl.
    + split; [intros _; now exists (snd e) | reflexivity].
    + exact IH.
Qed.

(** The cache guard of [_loadTile]: a key that has a record, pending or
    loaded, gets that record back, and the layer is left as it is; no
    load is started. *)
Lemma loadTile_cached (key url : string) (now : Z) (l : Layer) :
  map_has key (tileCache l) = true ->
  exists t, map_get key (tileCache l) = Some t /\
            _loadTile key url now l = (l, Cached t) /\
            started key (fst (_loadTile key url now l)) = started key l /\
            in_flight key (fst (_loadTile key url now l)) = in_flight key l.
Proof.
  intros H. apply map_get_has in H. destruct H as [t Ht].
  exists t. unfold _loadTile. rewrite Ht. simpl. auto.
Qed.

(** Without a record the call starts exactly one load and leaves a pending
    record under the key. *)
Lemma loadTile_uncached (key url : string) (now : Z) (l : Layer) :
  map_has key (tileCache l) = false ->
  let l' := fst (_loadTile key url now l) in
  snd (_loadTile key url now l) = Loading (List.length (loads l)) /\
  started key l' = S (started key l) /\
  map_get key (tileCache l') = Some (mkTile (List.length (loads l)) false now now).
Proof.
  intros H l'.
  assert (Hg : map_get key (tileCache l) = None).
  { destruct (map_get key (tileCache l)) eqn:E; [|reflexivity].
    assert (map_has key (tileCache l) = true) by (apply map_get_has; eauto).
    congruence. }
  unfold l', _loadTile. rewrite Hg. simpl. split; [reflexivity|]. split.
  - unfold started. simpl. rewrite filter_app, length_app. simpl.
    rewrite String.eqb_refl. simpl. lia.
  - unfold map_set. rewrite H. unfold map_get in *.
    assert (G : forall (m : list (string * Tile)) v,
              find (fun e => String.eqb (fst e) key) m = None ->
              find (fun e => String.eqb (fst e) key) (m ++ [(key, v)])
              = Some (key, v)).
    { induction m as [|e m IH]; intros v Hm; simpl.
      - now rewrite String.eqb_refl.
      - simpl in Hm. destruct (String.eqb (fst e) key); [discriminate | now apply IH]. }
    rewrite G; [reflexivity|].
    destruct (find _ (tileCache l)); [discriminate | reflexivity].
Qed.

End Loading.

(** C3 (the code at an input where it departs from the claim).  While the
    record of tile [3/0/0] is in the cache, a further request returns it
    and starts nothing.  But the eviction pass of a layer that keeps one
    tile removes that record while it is still pending: its image goes on
    loading, nothing is aborted, and the key stays in [loadingTiles].  The
    next request for [3/0/0] finds no record and starts a second load, so
    two loads of the same tile key are in flight. *)
Theorem C3_second_load_after_eviction :
  let url := TileLayer._getTileUrl (auto_env 1) tiny_layer 0 0 3 in
  TileLayer._loadTile "3/0/0" url 1001 two_requests =
    (two_requests, TileLayer.Cached (TileLayer.mkTile 0 false 1000 1000)) /\
  List.length (TileLayer.in_flight "3/0/0" two_requests) = 1%nat /\
  TileLayer.map_has "3/0/0" (TileLayer.tileCache after_eviction) = false /\
  TileLayer.set_has "3/0/0" (TileLayer.loadingTiles after_eviction) = true /\
  List.length (TileLayer.in_flight "3/0/0" after_eviction) = 1%nat /\
  snd (TileLayer._loadTile "3/0/0" url 1016 after_eviction) = TileLayer.Loading 2 /\
  List.length (TileLayer.in_flight "3/0/0" requested_again) = 2%nat /\
  TileLayer.started "3/0/0" requested_again = 2%nat.
Proof. vm_compute. repeat split; reflexivity. Qed.

(** C5 (the code at inputs where it departs from the claim).  A failed
    load of a layer without retina variant fires [tileerror] and rejects
    the promise that [_loadTile] returned, but leaves the pending record in
    the cache, where the timeout handler deletes it: every later request
    for the key gets the dead record back and no load is started again.
    A failed load of the retina variant is retried with the plain URL, and
    so is every further failure, since the handler tests the URL the load
    was requested with: after the second failure the image is loading for
    the third time, no [tileerror] has been fired, the promise is still
    pending and the timeout is disarmed. *)
Theorem C5_failed_load_record_kept_and_retry_unbounded :
  let env := auto_env 2 in
  let url := TileLayer._getTileUrl env ESRI_layer 1 2 3 in
  let failed := TileLayer.img_onerror env 0 esri_request in
  let once := TileLayer.img_onerror env 0 osm_retina_request in
  let twice := TileLayer.img_onerror env 0 once in
  (TileLayer.fired failed = [TileLayer.tileerror "3/1/2" url TileLayer.CauseError] /\
   TileLayer.map_get "3/1/2" (TileLayer.tileCache failed) =
     Some (TileLayer.mkTile 0 false 1000 1000) /\
   TileLayer._loadTile "3/1/2" url 2000 failed =
     (failed, TileLayer.Cached (TileLayer.mkTile 0 false 1000 1000)) /\
   option_map TileLayer.promise (nth_error (TileLayer.loads failed) 0) =
     Some TileLayer.Rejected /\
   TileLayer.map_has "3/1/2"
     (TileLayer.tileCache (TileLayer.on_timeout 0 esri_request)) = false) /\
  (option_map TileLayer.img_src (nth_error (TileLayer.loads once) 0) =
     Some "https://a.tile.openstreetmap.org/3/1/2.png"%string /\
   twice = once /\
   option_map TileLayer.img_loading (nth_error (TileLayer.loads twice) 0) = Some true /\
   TileLayer.fired twice = [] /\
   option_map TileLayer.promise (nth_error (TileLayer.loads twice) 0) =
     Some TileLayer.Pending /\
   option_map TileLayer.timer_armed (nth_error (TileLayer.loads twice) 0) =
     Some false).
Proof. vm_compute. repeat split; reflexivity. Qed.

(** ** Failure handling of tile loads, in general *)

Section LoadFailures.

Import TileLayer.

Lemma nth_error_update_load (f : Load -> Load) (ls : list Load) :
  forall id ld, nth_error ls id = Some ld ->
  nth_error (update_load id f ls) id = Some (f ld).
Proof.
  induction ls as [|x r IH]; intros [|n] ld H; simpl in *; try discriminate.
  - now injection H as ->.
  - now apply IH.
Qed.

(** The eviction pass touches the cache only: the loads of the records it
    removes go on, and their keys stay in [loadingTiles]. *)
Lemma performEviction_keeps_loads (l : Layer) :
  loads (_performEviction l) = loads l /\
  loadingTiles (_performEviction l) = loadingTiles l /\
  loadingControllers (_performEviction l) = loadingControllers l.
Proof.
  unfold _performEviction.
  destruct (List.length (tileCache l) <=? maxCacheSize l)%nat; simpl; auto.
Qed.

(** A failed load that is not retried fires [tileerror] and leaves the
    cache as it is: the pending record stays. *)
Lemma onerror_keeps_record (env : Env) (l : Layer) (id : nat) (ld : Load) :
  nth_error (loads l) id = Some ld ->
  img_loading ld = true -> aborted ld = false ->
  supportsRetina l && JSString.includes (CONFIG_retinaSuffix env) (load_url ld)
    = false ->
  tileCache (img_onerror env id l) = tileCache l /\
  fired (img_onerror env id l) =
    tileerror (load_key ld) (load_url ld) CauseError :: fired l.
Proof.
  intros Hn Hl Ha Hr. unfold img_onerror. rewrite Hn, Hl, Ha, Hr. simpl. auto.
Qed.

(** The timeout of a load that is still registered deletes the record. *)
Lemma on_timeout_deletes_record (l : Layer) (id : nat) (ld : Load) :
  nth_error (loads l) id = Some ld ->
  timer_armed ld = true -> set_has (load_key ld) (loadingTiles l) = true ->
  tileCache (on_timeout id l) = map_delete (load_key ld) (tileCache l).
Proof.
  intros Hn Ht Hs. unfold on_timeout. rewrite Hn, Ht, Hs. reflexivity.
Qed.

(** A failed load that was requested with the retina URL is retried, and
    is then in the state in which the next failure is retried again: after
    any number of failures the image is loading, nothing has been fired,
    the cache and the promise are as they were. *)
Lemma retina_failure_retried_every_time (env : Env) (id : nat) (n : nat) :
  forall (l : Layer) (ld : Load),
  nth_error (loads l) id = Some ld ->
  img_loading ld = true -> aborted ld = false ->
  supportsRetina l = true ->
  JSString.includes (CONFIG_retinaSuffix env) (load_url ld) = true ->
  let l' := Nat.iter (S n) (img_onerror env id) l in
  fired l' = fired l /\ tileCache l' = tileCache l /\
  exists ld', nth_error (loads l') id = Some ld' /\
              img_loading ld' = true /\ promise ld' = promise ld /\
              img_src ld' =
                JSString.replace (CONFIG_retinaSuffix env) "" (load_url ld).
Proof.
  assert (Hstep : forall (l : Layer) (ld : Load),
    nth_error (loads l) id = Some ld ->
    img_loading ld = true -> aborted ld = false ->
    supportsRetina l = true ->
    JSString.includes (CONFIG_retinaSuffix env) (load_url ld) = true ->
    let l1 := img_onerror env id l in
    fired l1 = fired l /\ tileCache l1 = tileCache l /\
    supportsRetina l1 = true /\
    nth_error (loads l1) id =
      Some (mkLoad (load_key ld) (load_url ld)
              (JSString.replace (CONFIG_retinaSuffix env) "" (load_url ld))
              true (aborted ld) false (promise ld))).
  { intros l ld Hn Hl Ha Hs Hi. unfold img_onerror.
    rewrite Hn, Hl, Ha, Hs, Hi. simpl. repeat split; auto.
    rewrite (nth_error_update_load _ _ _ _ Hn). now rewrite ?Ha. }
  induction n as [|n IH]; intros l ld Hn Hl Ha Hs Hi l'.
  - simpl in l'. destruct (Hstep l ld Hn Hl Ha Hs Hi) as [F [C [_ N]]].
    unfold l'. repeat split; auto. eexists. split; [exact N|]. simpl. auto.
  - unfold l'. rewrite Nat.iter_succ_r.
    destruct (Hstep l ld Hn Hl Ha Hs Hi) as [F [C [S1 N]]].
    destruct (IH (img_onerror env id l) _ N eq_refl Ha S1 Hi) as [F' [C' [ld' [N' [L' [P' I']]]]]].
    simpl in *. rewrite F', C', F, C. repeat split; auto.
    exists ld'. auto.
Qed.

End LoadFailures.

(** ** Resolving tile URLs *)




(* ================================================================== *)
(** * Further properties of the code *)
(* ================================================================== *)

(** ** Resolution *)

Section Resolution.

Import GISUtils.

Lemma toRadians_DEG2RAD (d : R) : toRadians d = d * DEG2RAD.
Proof. unfold toRadians, DEG2RAD. field. Qed.

Lemma pow2_succ (z : R) : JS.pow2 (z + 1) = 2 * JS.pow2 z.
Proof.
  unfold JS.pow2. rewrite Rpower_plus, Rpower_1 by lra. ring.
Qed.

End Resolution.

(** X1.  [GISUtils.getResolution]: the resolution at the latitude of a
    map centre (a clamped latitude) is positive; one more zoom level
    halves it; it is the same north and south of the equator, largest on
    the equator, and at zoom 0 on the equator one pixel is a 256th of the
    circumference. *)
Theorem getResolution_positive_and_halving (la z : R) :
  0 < GISUtils.getResolution (GISUtils.clampLatitude la) z /\
  GISUtils.getResolution la (z + 1) = GISUtils.getResolution la z / 2 /\
  GISUtils.getResolution (- la) z = GISUtils.getResolution la z /\
  GISUtils.getResolution la z <= GISUtils.getResolution 0 z /\
  GISUtils.getResolution 0 0 = EARTH_CIRCUMFERENCE / 256.
Proof.
  unfold GISUtils.getResolution, EARTH_CIRCUMFERENCE, TILE_SIZE.
  pose proof (pow2_pos z) as Hs. pose proof EARTH_RADIUS_pos as Hd.
  pose proof PI_RGT_0 as HPI.
  assert (Hk : 0 < 2 * PI * EARTH_RADIUS) by nra.
  assert (Hq : 0 < JS.pow2 z * 256) by nra.
  repeat split.
  - pose proof (clampLatitude_range la) as Hc.
    rewrite MIN_LATITUDE_eq in Hc.
    pose proof (clamped_lat_radians _ Hc) as Hr.
    rewrite toRadians_DEG2RAD.
    assert (0 < cos (GISUtils.clampLatitude la * DEG2RAD))
      by (apply cos_gt_0; lra).
    apply Rdiv_lt_0_compat; nra.
  - rewrite pow2_succ. field. lra.
  - unfold GISUtils.toRadians.
    replace (- la * PI / 180) with (- (la * PI / 180)) by lra.
    now rewrite cos_neg.
  - unfold GISUtils.toRadians.
    replace (0 * PI / 180) with 0 by lra. rewrite cos_0.
    pose proof (COS_bound (la * PI / 180)) as [_ Hc].
    apply Rmult_le_compat_r; [left; now apply Rinv_0_lt_compat | nra].
  - unfold GISUtils.toRadians.
    replace (0 * PI / 180) with 0 by lra. rewrite cos_0, pow2_0. field.
Qed.

(** ** Shape of the projection *)

Section ProjectionShape.

Import WebMercatorProjection.

Lemma mercator_ratio_increasing (s1 s2 : R) :
  -1 < s1 -> s1 < s2 -> s2 < 1 -> (1 + s1) / (1 - s1) < (1 + s2) / (1 - s2).
Proof.
  intros H1 H12 H2.
  apply Rmult_lt_reg_r with ((1 - s1) * (1 - s2)); [nra|].
  replace ((1 + s1) / (1 - s1) * ((1 - s1) * (1 - s2)))
    with ((1 + s1) * (1 - s2)) by (field; lra).
  replace ((1 + s2) / (1 - s2) * ((1 - s1) * (1 - s2)))
    with ((1 + s2) * (1 - s1)) by (field; lra).
  nra.
Qed.

End ProjectionShape.

(** X2.  [WebMercatorProjection.project] keeps the order of latitudes:
    within the Mercator limits a point further north has a strictly larger
    [y], whatever the longitudes. *)
Theorem project_increasing_in_latitude (l1 l2 lo1 lo2 : R) :
  - MAX_LATITUDE <= l1 -> l1 < l2 -> l2 <= MAX_LATITUDE ->
  py (WebMercatorProjection.project (mkLatLng l1 lo1)) <
  py (WebMercatorProjection.project (mkLatLng l2 lo2)).
Proof.
  intros H1 H12 H2. unfold WebMercatorProjection.project. cbn [lat lon py].
  rewrite !project_clamp_id by lra.
  pose proof (clamped_lat_radians l1 ltac:(lra)) as Hr1.
  pose proof (clamped_lat_radians l2 ltac:(lra)) as Hr2.
  pose proof (sin_lt_1_inside _ Hr1) as Hs1.
  pose proof (sin_lt_1_inside _ Hr2) as Hs2.
  assert (Hs : sin (l1 * DEG2RAD) < sin (l2 * DEG2RAD)).
  { apply sin_increasing_1; try lra.
    unfold DEG2RAD. pose proof PI_RGT_0.
    apply Rmult_lt_compat_r; [ | assumption].
    apply Rdiv_lt_0_compat; lra. }
  pose proof (mercator_ratio_increasing _ _ (proj1 Hs1) Hs (proj2 Hs2)) as Hq.
  assert (Hp : 0 < (1 + sin (l1 * DEG2RAD)) / (1 - sin (l1 * DEG2RAD)))
    by (apply Rdiv_lt_0_compat; lra).
  pose proof (ln_increasing _ _ Hp Hq) as Hl.
  pose proof EARTH_RADIUS_pos as Hd.
  unfold Rdiv. nra.
Qed.

Lemma project_increasing_witness :
  py (WebMercatorProjection.project (mkLatLng 0 10)) <
  py (WebMercatorProjection.project (mkLatLng 45 (-120))).
Proof.
  apply project_increasing_in_latitude; rewrite ?MAX_LATITUDE_eq; lra.
Defined.

(** X3.  [WebMercatorProjection.project] is odd (the mirror image of a
    coordinate through latitude 0, longitude 0 projects to the mirror image
    of its point), its [x] is linear in the longitude alone, and a latitude
    beyond the Mercator limits projects like the limit itself. *)
Theorem project_odd_and_saturating (la lo : R) :
  WebMercatorProjection.project (mkLatLng (- la) (- lo)) =
    mkPoint (- px (WebMercatorProjection.project (mkLatLng la lo)))
            (- py (WebMercatorProjection.project (mkLatLng la lo))) /\
  px (WebMercatorProjection.project (mkLatLng la lo)) =
    EARTH_RADIUS * PI * lo / 180 /\
  WebMercatorProjection.project (mkLatLng (GISUtils.clampLatitude la) lo) =
    WebMercatorProjection.project (mkLatLng la lo).
Proof.
  repeat split.
  - unfold WebMercatorProjection.project. cbn [lat lon px py].
    assert (Hc : Rmax (Rmin MAX_LATITUDE (- la)) (- MAX_LATITUDE) =
                 - Rmax (Rmin MAX_LATITUDE la) (- MAX_LATITUDE)).
    { rewrite MAX_LATITUDE_eq. unfold Rmax, Rmin; repeat destruct Rle_dec; lra. }
    rewrite Hc.
    pose proof (project_well_defined la) as (Hm & Hp & Hq). cbv zeta in *.
    set (c := Rmax (Rmin MAX_LATITUDE la) (- MAX_LATITUDE)) in *.
    replace (- c * DEG2RAD) with (- (c * DEG2RAD)) by ring.
    rewrite sin_neg.
    set (s := sin (c * DEG2RAD)) in *.
    f_equal; [ring|].
    replace ((1 + - s) / (1 - - s)) with (/ ((1 + s) / (1 - s))) by (field; lra).
    rewrite ln_Rinv by assumption. field.
  - unfold WebMercatorProjection.project, DEG2RAD. cbn [lat lon px]. field.
  - unfold WebMercatorProjection.project. cbn [lat lon].
    replace (Rmax (Rmin MAX_LATITUDE (GISUtils.clampLatitude la)) (- MAX_LATITUDE))
      with (Rmax (Rmin MAX_LATITUDE la) (- MAX_LATITUDE)); [reflexivity|].
    unfold GISUtils.clampLatitude. rewrite MIN_LATITUDE_eq, MAX_LATITUDE_eq.
    unfold Rmax, Rmin; repeat destruct Rle_dec; lra.
Qed.

(** ** Canonical longitudes and angles *)

(** X4.  [GISUtils.wrapLongitude] moves a longitude by whole turns only,
    wrapping an already wrapped longitude changes nothing, and both ends
    of the range are kept: the antimeridian keeps the sign it came with. *)
Theorem wrapLongitude_whole_turns_idempotent (l : R) :
  (exists k : Z, GISUtils.wrapLongitude l = l + 360 * IZR k) /\
  GISUtils.wrapLongitude (GISUtils.wrapLongitude l) = GISUtils.wrapLongitude l /\
  GISUtils.wrapLongitude 180 = 180 /\
  GISUtils.wrapLongitude (-180) = -180.
Proof.
  repeat split.
  - apply wrapLongitude_shift.
  - apply wrapLongitude_id, wrapLongitude_range.
  - apply wrapLongitude_id; lra.
  - apply wrapLongitude_id; lra.
Qed.

Section PrincipalAngles.

Lemma sin_cos_period_Z (a : R) (k : Z) :
  sin (a + 2 * IZR k * PI) = sin a /\ cos (a + 2 * IZR k * PI) = cos a.
Proof.
  destruct (Z_le_gt_dec 0 k) as [Hk|Hk].
  - rewrite <- (Z2Nat.id k Hk), <- INR_IZR_INZ.
    split; [apply sin_period | apply cos_period].
  - set (n := Z.to_nat (- k)).
    assert (Hn : IZR k = - INR n).
    { unfold n. rewrite INR_IZR_INZ, Z2Nat.id by lia. rewrite opp_IZR. lra. }
    rewrite Hn.
    pose proof (sin_period (a + 2 * - INR n * PI) n) as Hs.
    pose proof (cos_period (a + 2 * - INR n * PI) n) as Hc.
    replace (a + 2 * - INR n * PI + 2 * INR n * PI) with a in Hs, Hc by ring.
    now split.
Qed.

(** Two angles with the same sine and cosine differ by whole turns. *)
Lemma same_direction_whole_turns (a b : R) :
  sin a = sin b -> cos a = cos b -> exists n : Z, a = b + 2 * IZR n * PI.
Proof.
  intros Hs Hc.
  assert (H1 : cos (a - b) = 1).
  { rewrite cos_minus, Hs, Hc. pose proof (sin2_cos2 b) as H.
    unfold Rsqr in H. lra. }
  assert (H2 : sin ((a - b) / 2) = 0).
  { pose proof (cos_2a_sin ((a - b) / 2)) as H.
    replace (2 * ((a - b) / 2)) with (a - b) in H by field.
    rewrite H1 in H. nra. }
  apply sin_eq_0_0 in H2. destruct H2 as [k Hk].
  exists k. lra.
Qed.

End PrincipalAngles.

(** X5.  [normalizeAngle] returns its argument moved by whole turns;
    normalising twice is normalising once; angles a whole number of turns
    apart have the same normal form. *)
Theorem normalizeAngle_whole_turns (a : R) (k : Z) :
  (exists n : Z, normalizeAngle a = a + 2 * IZR n * PI) /\
  normalizeAngle (normalizeAngle a) = normalizeAngle a /\
  normalizeAngle (a + 2 * IZR k * PI) = normalizeAngle a.
Proof.
  pose proof (normalizeAngle_sin_cos a) as [Hs Hc].
  repeat split.
  - now apply same_direction_whole_turns.
  - unfold normalizeAngle at 1. now rewrite Hs, Hc.
  - unfold normalizeAngle.
    destruct (sin_cos_period_Z a k) as [-> ->]. reflexivity.
Qed.

Lemma normalizeAngle_id (a : R) : - PI < a -> a <= PI -> normalizeAngle a = a.
Proof.
  intros Hlo Hhi.
  pose proof (normalizeAngle_range a) as Hr.
  pose proof (normalizeAngle_sin_cos a) as [Hs Hc].
  destruct (same_direction_whole_turns _ _ Hs Hc) as [n Hn].
  pose proof PI_RGT_0 as HPI.
  assert (Hz : n = 0%Z).
  { destruct (Z_lt_le_dec n 1) as [H1|H1]; [destruct (Z_lt_le_dec (-1) n) as [H2|H2]|].
    - lia.
    - apply IZR_le in H2. exfalso. nra.
    - apply IZR_le in H1. exfalso. nra. }
  subst n. lra.
Qed.

(** X6.  [rot]: two rotations compose to the rotation by the sum of the
    angles, the opposite angle undoes a rotation, and a rotation keeps the
    length of the vector. *)
Theorem rot_composes_and_keeps_length (x y a b : R) :
  rot (px (rot x y a)) (py (rot x y a)) b = rot x y (a + b) /\
  rot (px (rot x y a)) (py (rot x y a)) (- a) = mkPoint x y /\
  JS.hypot (px (rot x y a)) (py (rot x y a)) = JS.hypot x y.
Proof.
  pose proof (sin2_cos2 a) as H. unfold Rsqr in H.
  unfold rot, JS.hypot. cbn [px py]. repeat split.
  - rewrite cos_plus, sin_plus. f_equal; ring.
  - rewrite cos_neg, sin_neg.
    set (c := cos a) in *. set (s := sin a) in *.
    f_equal.
    + transitivity (x * (s * s + c * c)); [ring | rewrite H; ring].
    + transitivity (y * (s * s + c * c)); [ring | rewrite H; ring].
  - f_equal. set (c := cos a) in *. set (s := sin a) in *.
    transitivity ((x * x + y * y) * (s * s + c * c)); [ring | rewrite H; ring].
Qed.

(** ** Easing curves *)

Section EasingCurves.

Lemma easeInOutCubic_symmetric (t : R) :
  EASING.easeInOutCubic (1 - t) = 1 - EASING.easeInOutCubic t.
Proof.
  unfold EASING.easeInOutCubic.
  destruct (Rlt_dec (1 - t) 0.5), (Rlt_dec t 0.5); simpl; try lra.
  assert (t = 1 / 2) by lra. subst t. lra.
Qed.

End EasingCurves.

(** X7.  Each of the three easing curves starts at 0, ends at 1, never
    decreases on [0, 1] and stays within [0, 1] there; [easeInOutCubic] is
    symmetric about its midpoint. *)
Theorem easing_curves_monotone_unit (s t : R) :
  0 <= s -> s <= t -> t <= 1 ->
  (EASING.easeInOutCubic 0 = 0 /\ EASING.easeInOutCubic 1 = 1 /\
   EASING.easeInOutCubic s <= EASING.easeInOutCubic t /\
   0 <= EASING.easeInOutCubic t <= 1 /\
   EASING.easeInOutCubic (1 - t) = 1 - EASING.easeInOutCubic t) /\
  (EASING.easeOutCubic 0 = 0 /\ EASING.easeOutCubic 1 = 1 /\
   EASING.easeOutCubic s <= EASING.easeOutCubic t /\
   0 <= EASING.easeOutCubic t <= 1) /\
  (EASING.linear 0 = 0 /\ EASING.linear 1 = 1 /\
   EASING.linear s <= EASING.linear t /\ 0 <= EASING.linear t <= 1).
Proof.
  intros H0 Hst H1.
  split; [ | split].
  - destruct easeInOutCubic_ends as [E0 E1].
    pose proof (easeInOutCubic_mono 0 t ltac:(lra) ltac:(lra) H1) as Ha.
    pose proof (easeInOutCubic_mono t 1 ltac:(lra) H1 ltac:(lra)) as Hb.
    rewrite E0 in Ha. rewrite E1 in Hb.
    repeat split; auto using easeInOutCubic_mono, easeInOutCubic_symmetric.
  - unfold EASING.easeOutCubic. simpl.
    pose proof (cube_le (1 - t) (1 - s) ltac:(lra) ltac:(lra)).
    pose proof (cube_le 0 (1 - t) ltac:(lra) ltac:(lra)).
    pose proof (cube_le (1 - t) 1 ltac:(lra) ltac:(lra)).
    repeat split; lra.
  - unfold EASING.linear. repeat split; lra.
Qed.

Lemma easing_curves_witness :
  EASING.easeInOutCubic (1 / 4) <= EASING.easeInOutCubic (3 / 4) /\
  EASING.easeOutCubic (1 / 4) <= EASING.easeOutCubic (3 / 4).
Proof.
  pose proof (easing_curves_monotone_unit (1 / 4) (3 / 4)
                ltac:(lra) ltac:(lra) ltac:(lra)) as [A [B _]].
  split; [apply A | apply B].
Defined.

(** ** Screen positions *)

Section ScreenPositions.

Import WebMercatorProjection.

Lemma screenToLatLon_tpt (m : Atlas) (ax ay : R) :
  screenToLatLon m ax ay =
  let ll := tileToLatLng (px (screen_tpt m ax ay)) (py (screen_tpt m ax ay))
                         (JS.Math_floor (zoom m)) in
  mkLatLng (GISUtils.clampLatitude (lat ll)) (GISUtils.wrapLongitude (lon ll)).
Proof. reflexivity. Qed.

Lemma tile_scale_pos (z : R) : 0 < TILE_SIZE * JS.pow2 (z - JS.Math_floor z).
Proof.
  pose proof (pow2_pos (z - JS.Math_floor z)). unfold TILE_SIZE. lra.
Qed.

(** The screen point of the coordinate whose tile point is the one shown
    at [(ax, ay)]. *)
Lemma latLngToContainerPoint_of_tpt (m : Atlas) (ax ay : R) (ll : LatLng) :
  latLngToTile ll (JS.Math_floor (zoom m)) = screen_tpt m ax ay ->
  latLngToContainerPoint m ll = mkPoint ax ay.
Proof.
  intros Ht. unfold latLngToContainerPoint. cbv zeta. rewrite Ht.
  unfold screen_tpt. cbv zeta. cbn [px py].
  pose proof (tile_scale_pos (zoom m)) as Hts.
  set (ts := TILE_SIZE * JS.pow2 (zoom m - JS.Math_floor (zoom m))) in *.
  set (ct := latLngToTile (center m) (JS.Math_floor (zoom m))).
  set (w2 := canvas_width m / dpr m / 2).
  set (h2 := canvas_height m / dpr m / 2).
  set (u := ax - w2). set (v := ay - h2).
  pose proof (sin2_cos2 (bearing m)) as H. unfold Rsqr in H.
  unfold rot. cbn [px py]. rewrite cos_neg, sin_neg.
  set (c := cos (bearing m)) in *. set (s := sin (bearing m)) in *.
  f_equal.
  - transitivity (w2 + u * (s * s + c * c));
      [field; lra | rewrite H; unfold u; ring].
  - transitivity (h2 + v * (s * s + c * c));
      [field; lra | rewrite H; unfold v; ring].
Qed.

End ScreenPositions.

Lemma container_point_round_trip (m : Atlas) (ax ay : R) :
  let t := screen_tpt m ax ay in
  let ll := WebMercatorProjection.tileToLatLng (px t) (py t)
              (JS.Math_floor (zoom m)) in
  MIN_LATITUDE <= lat ll <= MAX_LATITUDE ->
  -180 <= lon ll <= 180 ->
  screenToLatLon m ax ay = ll /\
  latLngToContainerPoint m (screenToLatLon m ax ay) = mkPoint ax ay.
Proof.
  intros t ll Hlat Hlon.
  assert (E : screenToLatLon m ax ay = ll).
  { rewrite screenToLatLon_tpt. cbv zeta. fold t. fold ll.
    rewrite clampLatitude_id, wrapLongitude_id by assumption.
    now destruct ll. }
  split; [exact E|]. rewrite E.
  apply latLngToContainerPoint_of_tpt.
  unfold ll. rewrite latLngToTile_tileToLatLng.
  - unfold t. now destruct (screen_tpt m ax ay).
  - fold ll. rewrite MIN_LATITUDE_eq in Hlat. exact Hlat.
Qed.

(** X8.  [screenToLatLon] then [latLngToContainerPoint]: when the screen
    point shows a coordinate of the world copy the map is centred on
    (latitude within the Mercator limits, longitude within [-180, 180]
    before wrapping), the coordinate [screenToLatLon] reports for it is
    placed by [latLngToContainerPoint] at that same screen point. *)
Theorem latLngToContainerPoint_screenToLatLon (m : Atlas) (ax ay : R) :
  let t := screen_tpt m ax ay in
  let ll := WebMercatorProjection.tileToLatLng (px t) (py t)
              (JS.Math_floor (zoom m)) in
  MIN_LATITUDE <= lat ll <= MAX_LATITUDE ->
  -180 <= lon ll <= 180 ->
  screenToLatLon m ax ay = ll /\
  latLngToContainerPoint m (screenToLatLon m ax ay) = mkPoint ax ay.
Proof. apply container_point_round_trip. Qed.

Section ScreenPositionExamples.

Import WebMercatorProjection.

(** In [world_view] the screen point [(ax, 256)] shows the tile point
    [(1/2 + (ax - 512) / 256, 1/2)] of zoom 0. *)
Lemma world_view_tpt (ax : R) :
  screen_tpt world_view ax 256 = mkPoint (1 / 2 + (ax - 512) / 256) (1 / 2).
Proof.
  unfold screen_tpt, world_view.
  cbn [center zoom bearing canvas_width canvas_height dpr].
  rewrite Math_floor_0, latLngToTile_origin.
  replace (0 - 0) with 0 by ring. rewrite pow2_0, rot_0. cbn [px py].
  unfold TILE_SIZE. f_equal; field.
Qed.

Lemma world_view_shows (ax : R) :
  let t := screen_tpt world_view ax 256 in
  tileToLatLng (px t) (py t) (JS.Math_floor (zoom world_view)) =
  mkLatLng 0 ((ax - 512) / 256 * 360).
Proof.
  cbv zeta. rewrite world_view_tpt. cbn [px py zoom world_view].
  rewrite Math_floor_0, tileToLatLng_equator. f_equal. field.
Qed.

End ScreenPositionExamples.

Lemma latLngToContainerPoint_screenToLatLon_witness :
  latLngToContainerPoint world_view (screenToLatLon world_view 576 256) =
  mkPoint 576 256.
Proof.
  apply (latLngToContainerPoint_screenToLatLon world_view 576 256);
    rewrite world_view_shows; cbn [lat lon];
    rewrite ?MIN_LATITUDE_eq, ?MAX_LATITUDE_eq; lra.
Defined.

Section ScreenPositionsBack.

Import WebMercatorProjection.

(** The tile point shown at the screen position of a coordinate is the
    tile point of the coordinate. *)
Lemma screen_tpt_of_container_point (m : Atlas) (ll : LatLng) :
  let p := latLngToContainerPoint m ll in
  screen_tpt m (px p) (py p) = latLngToTile ll (JS.Math_floor (zoom m)).
Proof.
  unfold latLngToContainerPoint, screen_tpt. cbv zeta. cbn [px py].
  pose proof (tile_scale_pos (zoom m)) as Hts.
  set (ts := TILE_SIZE * JS.pow2 (zoom m - JS.Math_floor (zoom m))) in *.
  set (ct := latLngToTile (center m) (JS.Math_floor (zoom m))).
  destruct (latLngToTile ll (JS.Math_floor (zoom m))) as [X Y]. cbn [px py].
  set (w2 := canvas_width m / dpr m / 2).
  set (h2 := canvas_height m / dpr m / 2).
  pose proof (sin2_cos2 (bearing m)) as H. unfold Rsqr in H.
  unfold rot. cbn [px py]. rewrite cos_neg, sin_neg.
  set (c := cos (bearing m)) in *. set (s := sin (bearing m)) in *.
  f_equal.
  - transitivity (px ct + (X - px ct) * (s * s + c * c));
      [field; lra | rewrite H; ring].
  - transitivity (py ct + (Y - py ct) * (s * s + c * c));
      [field; lra | rewrite H; ring].
Qed.

(** The centre of the map is placed at the centre of the canvas. *)
Lemma latLngToContainerPoint_center (m : Atlas) :
  latLngToContainerPoint m (center m) =
  mkPoint (canvas_width m / dpr m / 2) (canvas_height m / dpr m / 2).
Proof.
  unfold latLngToContainerPoint, rot. cbv zeta. cbn [px py]. f_equal; ring.
Qed.

End ScreenPositionsBack.

(** X9.  [latLngToContainerPoint] then [screenToLatLon]: the coordinate
    reported for the screen position of a valid coordinate (latitude
    within the Mercator limits, longitude within [-180, 180]) is that
    coordinate, at any zoom, bearing and centre. *)
Theorem screenToLatLon_latLngToContainerPoint (m : Atlas) (ll : LatLng) :
  MIN_LATITUDE <= lat ll <= MAX_LATITUDE ->
  -180 <= lon ll <= 180 ->
  screenToLatLon m (px (latLngToContainerPoint m ll))
                   (py (latLngToContainerPoint m ll)) = ll.
Proof.
  intros Hlat Hlon. rewrite screenToLatLon_tpt. cbv zeta.
  pose proof (screen_tpt_of_container_point m ll) as E. cbv zeta in E.
  rewrite E.
  rewrite tileToLatLng_latLngToTile
    by (rewrite MIN_LATITUDE_eq in Hlat; exact Hlat).
  rewrite clampLatitude_id, wrapLongitude_id by assumption.
  now destruct ll.
Qed.

Lemma screenToLatLon_latLngToContainerPoint_witness :
  screenToLatLon dateline_view
    (px (latLngToContainerPoint dateline_view (mkLatLng 48 2)))
    (py (latLngToContainerPoint dateline_view (mkLatLng 48 2))) = mkLatLng 48 2.
Proof.
  apply (screenToLatLon_latLngToContainerPoint dateline_view (mkLatLng 48 2));
    cbn [lat lon]; rewrite ?MIN_LATITUDE_eq, ?MAX_LATITUDE_eq; lra.
Defined.

(** X10.  [AtlasMarker._onDragMove]: the coordinate it stores is always a
    valid one (clamped latitude, wrapped longitude), the second clamp and
    wrap it applies change nothing, and the marker follows the pointer:
    when the new screen point shows a coordinate of the world copy the map
    is centred on, the marker is placed at its start point moved by the
    pointer's displacement. *)
Theorem marker_drag_follows_pointer (m : Atlas) (d : AtlasMarker.DragStart)
    (clientX clientY : R) :
  let startPoint := latLngToContainerPoint m (AtlasMarker.start_latlng d) in
  let newPoint := mkPoint (px startPoint + (clientX - AtlasMarker.start_x d))
                          (py startPoint + (clientY - AtlasMarker.start_y d)) in
  let t := screen_tpt m (px newPoint) (py newPoint) in
  let ll := WebMercatorProjection.tileToLatLng (px t) (py t)
              (JS.Math_floor (zoom m)) in
  MIN_LATITUDE <= lat ll <= MAX_LATITUDE ->
  -180 <= lon ll <= 180 ->
  let latlng := AtlasMarker._onDragMove m d clientX clientY in
  latLngToContainerPoint m latlng = newPoint /\
  latlng = screenToLatLon m (px newPoint) (py newPoint) /\
  MIN_LATITUDE <= lat latlng <= MAX_LATITUDE /\
  -180 <= lon latlng <= 180.
Proof.
  intros startPoint newPoint t ll Hlat Hlon latlng.
  assert (E : latlng = screenToLatLon m (px newPoint) (py newPoint)).
  { unfold latlng, AtlasMarker._onDragMove. cbv zeta.
    fold startPoint. fold newPoint.
    destruct (screenToLatLon_at_range m (px newPoint) (py newPoint)
                (zoom m) (bearing m) (center m)) as [Ha Hb].
    fold (screenToLatLon m (px newPoint) (py newPoint)) in Ha, Hb.
    rewrite clampLatitude_id, wrapLongitude_id by assumption.
    now destruct (screenToLatLon m (px newPoint) (py newPoint)). }
  destruct (container_point_round_trip m (px newPoint) (py newPoint)
              Hlat Hlon) as [E1 E2].
  rewrite E. repeat split.
  - rewrite E2. now destruct newPoint.
  - rewrite E1. apply Hlat.
  - rewrite E1. apply Hlat.
  - rewrite E1. apply Hlon.
  - rewrite E1. apply Hlon.
Qed.

Lemma marker_drag_witness :
  latLngToContainerPoint world_view
    (AtlasMarker._onDragMove world_view
       (AtlasMarker.mkDragStart 512 256 (mkLatLng 0 0)) 576 256) =
  mkPoint 576 256.
Proof.
  pose proof (latLngToContainerPoint_center world_view) as Hc.
  cbn [center canvas_width canvas_height dpr world_view] in Hc.
  assert (Hp : latLngToContainerPoint world_view (mkLatLng 0 0) = mkPoint 512 256).
  { rewrite Hc. f_equal; field. }
  pose proof (marker_drag_follows_pointer world_view
                (AtlasMarker.mkDragStart 512 256 (mkLatLng 0 0)) 576 256) as H.
  cbv zeta in H. cbn [AtlasMarker.start_latlng AtlasMarker.start_x
                      AtlasMarker.start_y] in H.
  rewrite Hp in H. cbn [px py] in H.
  replace (512 + (576 - 512)) with 576 in H by ring.
  replace (256 + (256 - 256)) with 256 in H by ring.
  rewrite world_view_shows in H. cbn [lat lon] in H.
  apply H; rewrite ?MIN_LATITUDE_eq, ?MAX_LATITUDE_eq; lra.
Defined.

(** ** Animated zoom *)

Section AnimatedZoom.

Lemma zoom_p_final (j : ZoomJob) (elapsed : R) :
  1 <= zoom_t j elapsed -> zoom_p j elapsed = 1.
Proof. intros H. unfold zoom_p. cbv zeta. now destruct Rle_dec. Qed.

(** Clamping a zoom twice into the same range is clamping it once,
    whatever the range. *)
Lemma clamp_zoom_idem (lo hi z : R) :
  Rmax lo (Rmin hi (Rmax lo (Rmin hi z))) = Rmax lo (Rmin hi z).
Proof. unfold Rmax, Rmin; repeat destruct Rle_dec; lra. Qed.

Lemma normalizeAngle_same_direction (a b : R) :
  sin a = sin b -> cos a = cos b -> normalizeAngle a = normalizeAngle b.
Proof. intros Hs Hc. unfold normalizeAngle. now rewrite Hs, Hc. Qed.

End AnimatedZoom.

Lemma zoom_job_final_frame (m0 m : Atlas) (ax ay toZoom : R)
    (toBearing duration : option R) (easing : option (R -> R)) (elapsed : R) :
  let j := animateZoomRotateAbout m0 ax ay toZoom toBearing duration easing in
  1 <= zoom_t j elapsed ->
  zoom (zoom_step j elapsed m) = Rmax (minZoom m) (Rmin (maxZoom m) toZoom) /\
  bearing (zoom_step j elapsed m) =
    normalizeAngle (obj_or toBearing (bearing m0)) /\
  zoom_continues j elapsed = false.
Proof.
  intros j Ht. unfold zoom_step. cbv zeta. rewrite (zoom_p_final j elapsed Ht).
  unfold applyZoomRotateAbout. cbv zeta. cbn [zoom bearing].
  repeat split.
  - f_equal. f_equal. unfold j, animateZoomRotateAbout. cbn. ring.
  - unfold j, animateZoomRotateAbout. cbv zeta.
    cbn [zjob_sBear zjob_deltaBear]. rewrite Rmult_1_r.
    destruct (shortestAngleDiff_spec (bearing m0) (obj_or toBearing (bearing m0)))
      as (_ & Hs & Hc).
    now apply normalizeAngle_same_direction.
  - unfold zoom_continues. destruct Rlt_dec; [lra | reflexivity].
Qed.

(** X11.  [animateZoomRotateAbout]: the frame that runs once the duration
    has passed writes the target zoom clamped into the zoom range of the
    base layer and the normal form of the target bearing (the current
    bearing when none is given), and requests no further frame. *)
Theorem animateZoomRotateAbout_final_frame (m0 m : Atlas) (ax ay toZoom : R)
    (toBearing duration : option R) (easing : option (R -> R)) (elapsed : R) :
  let j := animateZoomRotateAbout m0 ax ay toZoom toBearing duration easing in
  1 <= zoom_t j elapsed ->
  zoom (zoom_step j elapsed m) = Rmax (minZoom m) (Rmin (maxZoom m) toZoom) /\
  bearing (zoom_step j elapsed m) =
    normalizeAngle (obj_or toBearing (bearing m0)) /\
  zoom_continues j elapsed = false.
Proof. apply zoom_job_final_frame. Qed.

Lemma animateZoomRotateAbout_witness :
  let j := animateZoomRotateAbout world_view 576 256 2 (Some 1) (Some 280) None in
  zoom (zoom_step j 280 world_view) = 2 /\
  bearing (zoom_step j 280 world_view) = 1.
Proof.
  cbv zeta.
  assert (Ht : 1 <= zoom_t (animateZoomRotateAbout world_view 576 256 2 (Some 1)
                              (Some 280) None) 280).
  { unfold zoom_t, animateZoomRotateAbout, obj_or. cbn [zjob_duration].
    rewrite Rmax_right by lra. lra. }
  destruct (animateZoomRotateAbout_final_frame world_view world_view 576 256 2
              (Some 1) (Some 280) None 280 Ht) as (Hz & Hb & _).
  split.
  - rewrite Hz. unfold minZoom, maxZoom, world_view. cbn [_baseLayer].
    rewrite Rmin_right by lra. apply Rmax_right. lra.
  - rewrite Hb. cbn [obj_or]. apply normalizeAngle_id; pose proof PI_gt_3; lra.
Defined.

(** X12.  One notch of the mouse wheel ([ScrollZoomHandler._onWheel],
    [smoothZoomAt]): once its 220 ms have passed, and with the base layer
    still the one of the time of the event, the zoom is the zoom at the
    time of the event moved by a quarter level (in for a negative
    [deltaY], out otherwise) and clamped into the zoom range; the bearing
    is the normal form of the bearing at the time of the event. *)
Theorem wheel_notch_final_frame (m m' : Atlas)
    (clientX clientY deltaY elapsed : R) :
  WHEEL_ZOOM_DURATION <= elapsed ->
  _baseLayer m' = _baseLayer m ->
  let j := _onWheel m clientX clientY deltaY in
  let dz := if Rlt_dec deltaY 0 then WHEEL_ZOOM_STEP else - WHEEL_ZOOM_STEP in
  zoom (zoom_step j elapsed m') =
    Rmax (minZoom m) (Rmin (maxZoom m) (zoom m + dz)) /\
  bearing (zoom_step j elapsed m') = normalizeAngle (bearing m) /\
  zoom_continues j elapsed = false.
Proof.
  intros He Hl j dz.
  assert (Ht : 1 <= zoom_t j elapsed).
  { unfold zoom_t, j, _onWheel, smoothZoomAt, animateZoomRotateAbout, obj_or.
    cbn [zjob_duration]. unfold WHEEL_ZOOM_DURATION in *.
    rewrite Rmax_right by lra.
    apply Rmult_le_reg_r with 220; [lra|]. field_simplify; lra. }
  unfold j, _onWheel, smoothZoomAt in *.
  destruct (zoom_job_final_frame m m' clientX clientY _ _ _ _ _ Ht)
    as (Hz & Hb & Hc).
  assert (Hmin : minZoom m' = minZoom m) by (unfold minZoom; now rewrite Hl).
  assert (Hmax : maxZoom m' = maxZoom m) by (unfold maxZoom; now rewrite Hl).
  repeat split.
  - rewrite Hz, Hmin, Hmax, clamp_zoom_idem. unfold dz. reflexivity.
  - exact Hb.
  - exact Hc.
Qed.

Lemma wheel_notch_witness :
  zoom (zoom_step (_onWheel dateline_view 100 100 (-1)) 220 dateline_view) = 3.25.
Proof.
  destruct (wheel_notch_final_frame dateline_view dateline_view 100 100 (-1) 220)
    as (Hz & _).
  { unfold WHEEL_ZOOM_DURATION. lra. }
  { reflexivity. }
  rewrite Hz. unfold minZoom, maxZoom, dateline_view, Atlas_constructor.
  cbn [_baseLayer zoom]. unfold WHEEL_ZOOM_STEP. destruct Rlt_dec; [ | lra].
  rewrite Rmin_right by lra. rewrite Rmax_right by lra. lra.
Defined.

(** ** Hit testing of GeoJSON features *)

Section RayCasting.

Import GeoJSONLayer.

Variables x y : R.

Lemma ring_loop_parity (rest : list Point) : forall vj inside,
  ring_loop x y vj rest inside = xorb inside (path_parity x y vj rest).
Proof.
  induction rest as [|vi rest IH]; intros vj inside; simpl.
  - now rewrite xorb_false_r.
  - rewrite IH. destruct (intersect x y vi vj), inside, (path_parity x y vi rest);
      reflexivity.
Qed.

Lemma pointInRing_parity (ring : list Point) :
  _pointInRing x y ring = path_parity x y (last ring (mkPoint 0 0)) ring.
Proof. unfold _pointInRing. now rewrite ring_loop_parity. Qed.

Lemma last_cons_default {A : Type} (l : list A) (a d : A) :
  last (a :: l) d = last l a.
Proof.
  revert a d. induction l as [|b l IH]; intros a d; [reflexivity|].
  change (last (a :: b :: l) d) with (last (b :: l) d).
  rewrite IH. symmetry. apply IH.
Qed.

Lemma path_parity_app (l1 l2 : list Point) : forall vj,
  path_parity x y vj (l1 ++ l2) =
  xorb (path_parity x y vj l1) (path_parity x y (last l1 vj) l2).
Proof.
  induction l1 as [|a l1 IH]; intros vj.
  - reflexivity.
  - change (path_parity x y vj ((a :: l1) ++ l2))
      with (xorb (intersect x y a vj) (path_parity x y a (l1 ++ l2))).
    rewrite IH, last_cons_default.
    change (path_parity x y vj (a :: l1))
      with (xorb (intersect x y a vj) (path_parity x y a l1)).
    now rewrite xorb_assoc.
Qed.

Lemma last_cons_in {A : Type} (l : list A) : forall a d : A,
  In (last (a :: l) d) (a :: l).
Proof.
  induction l as [|b l IH]; intros a d.
  - now left.
  - right. change (last (a :: b :: l) d) with (last (b :: l) d). apply IH.
Qed.

Lemma last_app_cons {A : Type} (l1 : list A) (a : A) (l2 : list A) (d : A) :
  last (l1 ++ a :: l2) d = last l2 a.
Proof.
  induction l1 as [|b l1 IH].
  - apply last_cons_default.
  - cbn [app]. rewrite last_cons_default.
    destruct l1 as [|c l1].
    + cbn [app]. now rewrite !last_cons_default.
    + rewrite <- IH. cbn [app]. now rewrite !last_cons_default.
Qed.

(** The crossing test does not depend on the direction of the edge. *)
Lemma intersect_sym (a b : Point) : intersect x y a b = intersect x y b a.
Proof.
  unfold intersect. cbv zeta.
  destruct a as [xa ya], b as [xb yb]. cbn [px py].
  unfold JS.gtb, JS.ltb.
  destruct (Rgt_dec ya y) as [Ha|Ha], (Rgt_dec yb y) as [Hb|Hb];
    cbn [Bool.eqb negb andb]; try reflexivity.
  - replace ((xa - xb) * (y - yb) / (ya - yb) + xb)
      with ((xb - xa) * (y - ya) / (yb - ya) + xa) by (field; lra).
    reflexivity.
  - replace ((xa - xb) * (y - yb) / (ya - yb) + xb)
      with ((xb - xa) * (y - ya) / (yb - ya) + xa) by (field; lra).
    reflexivity.
Qed.

(** Reading an open path backwards counts the same crossings. *)
Lemma path_parity_rev (l : list Point) : forall a b,
  path_parity x y a (l ++ [b]) = path_parity x y b (rev l ++ [a]).
Proof.
  induction l as [|c l IH]; intros a b.
  - simpl. now rewrite (intersect_sym b a).
  - change (path_parity x y a ((c :: l) ++ [b]))
      with (xorb (intersect x y c a) (path_parity x y c (l ++ [b]))).
    rewrite IH. change (rev (c :: l)) with (rev l ++ [c]).
    rewrite (path_parity_app (rev l ++ [c]) [a]), last_last.
    change (path_parity x y c [a]) with (xorb (intersect x y a c) false).
    rewrite (intersect_sym a c).
    destruct (intersect x y c a), (path_parity x y b (rev l ++ [c])); reflexivity.
Qed.

(** With no crossing edge at all the parity is even. *)
Lemma path_parity_none (l : list Point) : forall vj,
  (forall a b, In a (vj :: l) -> In b (vj :: l) -> intersect x y a b = false) ->
  path_parity x y vj l = false.
Proof.
  induction l as [|vi l IH]; intros vj H; [reflexivity|].
  simpl. rewrite H by (simpl; auto). rewrite IH; [reflexivity|].
  intros a b Ha Hb. apply H; simpl in *; tauto.
Qed.

(** When every edge that passes the height of the point counts as a
    crossing, the parity along a path compares the sides of its two
    ends. *)
Lemma path_parity_telescopes (l : list Point) : forall vj,
  (forall a b, In a (vj :: l) -> In b (vj :: l) ->
     intersect x y a b = negb (Bool.eqb (JS.gtb (py a) y) (JS.gtb (py b) y))) ->
  path_parity x y vj l =
  negb (Bool.eqb (JS.gtb (py vj) y) (JS.gtb (py (last l vj)) y)).
Proof.
  induction l as [|vi l IH]; intros vj H.
  - simpl. now rewrite eqb_reflx.
  - rewrite last_cons_default.
    change (path_parity x y vj (vi :: l))
      with (xorb (intersect x y vi vj) (path_parity x y vi l)).
    rewrite IH by (intros a b Ha Hb; apply H; simpl in *; tauto).
    rewrite H by (simpl; auto).
    destruct (JS.gtb (py vi) y), (JS.gtb (py vj) y),
      (JS.gtb (py (last l vi)) y); reflexivity.
Qed.

(** Where an edge passes the height [y], its abscissa there lies between
    the abscissas of its ends. *)
Lemma crossing_between (a b : Point) :
  JS.gtb (py a) y <> JS.gtb (py b) y ->
  Rmin (px a) (px b) <= (px b - px a) * (y - py a) / (py b - py a) + px a
    <= Rmax (px a) (px b).
Proof.
  destruct a as [xa ya], b as [xb yb]. cbn [px py]. unfold JS.gtb.
  intros Hs.
  assert (Hl : exists k, 0 <= k <= 1 /\ (y - ya) / (yb - ya) = k).
  { exists ((y - ya) / (yb - ya)). split; [ | reflexivity].
    destruct (Rgt_dec ya y) as [Ha|Ha], (Rgt_dec yb y) as [Hb|Hb];
      try congruence.
    - assert (Hd : 0 < ya - yb) by lra.
      replace ((y - ya) / (yb - ya)) with ((ya - y) / (ya - yb)) by (field; lra).
      split.
      + apply Rmult_le_pos; [lra | left; now apply Rinv_0_lt_compat].
      + apply Rmult_le_reg_r with (ya - yb); [assumption|].
        replace ((ya - y) / (ya - yb) * (ya - yb)) with (ya - y) by (field; lra).
        lra.
    - assert (Hd : 0 < yb - ya) by lra.
      split.
      + apply Rmult_le_pos; [lra | left; now apply Rinv_0_lt_compat].
      + apply Rmult_le_reg_r with (yb - ya); [assumption|].
        replace ((y - ya) / (yb - ya) * (yb - ya)) with (y - ya) by (field; lra).
        lra. }
  destruct Hl as (k & Hk & Ek).
  replace ((xb - xa) * (y - ya) / (yb - ya) + xa)
    with ((xb - xa) * ((y - ya) / (yb - ya)) + xa) by (unfold Rdiv; ring).
  rewrite Ek. unfold Rmin, Rmax. destruct (Rle_dec xa xb); split; nra.
Qed.

End RayCasting.

(** X13.  [_pointInRing] never reports a point outside the bounding box
    of the ring: a point at or right of every vertex, left of every
    vertex, at or beyond every vertex height, or before every vertex
    height is outside, so the region it accepts lies within
    [min x, max x) x [min y, max y) of the vertices.  In particular an
    empty ring holds no point. *)
Theorem pointInRing_outside_bounding_box (x y : R) (ring : list Point) :
  Forall (fun v => px v <= x) ring \/ Forall (fun v => x < px v) ring \/
  Forall (fun v => py v <= y) ring \/ Forall (fun v => y < py v) ring ->
  GeoJSONLayer._pointInRing x y ring = false.
Proof.
  intros H. rewrite pointInRing_parity.
  destruct ring as [|v0 ring]; [reflexivity|].
  pose proof (last_cons_in ring v0 (mkPoint 0 0)) as Hlast.
  set (l := v0 :: ring) in *. set (z := last l (mkPoint 0 0)) in *.
  assert (Hin : forall a, In a (z :: l) -> In a l).
  { intros a [<-|Ha]; assumption. }
  assert (Hz : last l z = z).
  { unfold z, l. now rewrite !last_cons_default. }
  destruct H as [H | [H | [H | H]]]; rewrite Forall_forall in H.
  - (* at or right of every vertex *)
    apply path_parity_none. intros a b Ha%Hin Hb%Hin.
    unfold GeoJSONLayer.intersect. cbv zeta.
    destruct (Bool.eqb (JS.gtb (py a) y) (JS.gtb (py b) y)) eqn:E;
      [reflexivity|].
    cbn [negb andb]. unfold JS.ltb. destruct Rlt_dec as [Hc|Hc]; [ | reflexivity].
    apply eqb_false_iff in E.
    pose proof (crossing_between y a b E) as [_ Hb'].
    pose proof (H a Ha). pose proof (H b Hb).
    unfold Rmax in Hb'. destruct Rle_dec; lra.
  - (* left of every vertex *)
    rewrite path_parity_telescopes.
    + rewrite Hz. now rewrite eqb_reflx.
    + intros a b Ha%Hin Hb%Hin.
      unfold GeoJSONLayer.intersect. cbv zeta.
      destruct (Bool.eqb (JS.gtb (py a) y) (JS.gtb (py b) y)) eqn:E;
        [reflexivity|].
      cbn [negb andb]. unfold JS.ltb. destruct Rlt_dec as [Hc|Hc]; [reflexivity|].
      apply eqb_false_iff in E.
      pose proof (crossing_between y a b E) as [Ha' _].
      pose proof (H a Ha). pose proof (H b Hb).
      unfold Rmin in Ha'. destruct Rle_dec; lra.
  - (* at or above every vertex height *)
    apply path_parity_none. intros a b Ha%Hin Hb%Hin.
    unfold GeoJSONLayer.intersect, JS.gtb. cbv zeta.
    pose proof (H a Ha). pose proof (H b Hb).
    destruct (Rgt_dec (py a) y), (Rgt_dec (py b) y);
      first [reflexivity | lra].
  - apply path_parity_none. intros a b Ha%Hin Hb%Hin.
    unfold GeoJSONLayer.intersect, JS.gtb. cbv zeta.
    pose proof (H a Ha). pose proof (H b Hb).
    destruct (Rgt_dec (py a) y), (Rgt_dec (py b) y);
      first [reflexivity | lra].
Qed.

Lemma pointInRing_bounding_box_witness :
  GeoJSONLayer._pointInRing 30 25 (GeoJSONLayer.rectangle 10 20 30 40) = false.
Proof.
  apply pointInRing_outside_bounding_box. left.
  unfold GeoJSONLayer.rectangle. repeat constructor; cbn [px]; lra.
Defined.

(** X14.  [_pointInRing] depends on the closed ring only as a set of
    edges: listing the same ring from another starting vertex, or in the
    opposite winding direction, gives the same answer for every point. *)
Theorem pointInRing_start_and_winding (x y : R) (l1 l2 : list Point) :
  GeoJSONLayer._pointInRing x y (l2 ++ l1) =
    GeoJSONLayer._pointInRing x y (l1 ++ l2) /\
  GeoJSONLayer._pointInRing x y (rev l1) = GeoJSONLayer._pointInRing x y l1.
Proof.
  split.
  - destruct l1 as [|a1 m1]; [now rewrite app_nil_r|].
    destruct l2 as [|a2 m2]; [now rewrite app_nil_r|].
    rewrite !pointInRing_parity, !path_parity_app.
    rewrite !last_app_cons, !last_cons_default.
    apply xorb_comm.
  - rewrite !pointInRing_parity.
    destruct l1 as [|a m]; [reflexivity|].
    destruct (exists_last (l := a :: m)) as (l' & z & E); [discriminate|].
    destruct l' as [|a' m'].
    + cbn [app] in E. injection E as -> ->. reflexivity.
    + cbn [app] in E. injection E as <- ->.
      change (rev (a :: m' ++ [z])) with (rev (m' ++ [z]) ++ [a]).
      rewrite rev_app_distr. cbn [rev app].
      rewrite last_cons_default, last_last.
      rewrite (last_cons_default (m' ++ [z]) a), last_last.
      change (GeoJSONLayer.path_parity x y z (a :: m' ++ [z]))
        with (xorb (GeoJSONLayer.intersect x y a z)
                   (GeoJSONLayer.path_parity x y a (m' ++ [z]))).
      change (GeoJSONLayer.path_parity x y a (z :: rev m' ++ [a]))
        with (xorb (GeoJSONLayer.intersect x y z a)
                   (GeoJSONLayer.path_parity x y z (rev m' ++ [a]))).
      now rewrite (path_parity_rev x y m' a z), (intersect_sym x y z a).
Qed.

(** X15.  [_pointInRing] on the ring of an axis-parallel rectangle: the
    points it accepts are those of the rectangle with its left and lower
    sides (in screen coordinates) and without its right and upper
    sides. *)
Theorem pointInRing_rectangle (x y x0 y0 x1 y1 : R) :
  x0 < x1 -> y0 < y1 ->
  (GeoJSONLayer._pointInRing x y (GeoJSONLayer.rectangle x0 y0 x1 y1) = true <->
   x0 <= x < x1 /\ y0 <= y < y1).
Proof.
  intros Hx Hy.
  unfold GeoJSONLayer._pointInRing, GeoJSONLayer.rectangle.
  cbn [last GeoJSONLayer.ring_loop]. unfold GeoJSONLayer.intersect.
  cbv zeta. cbn [px py]. unfold JS.gtb, JS.ltb.
  replace ((x0 - x1) * (y - y0) / (y0 - y0) + x1) with x1
    by (unfold Rdiv; replace (y0 - y0) with 0 by ring; rewrite Rinv_0; ring).
  replace ((x1 - x1) * (y - y1) / (y0 - y1) + x1) with x1
    by (unfold Rdiv; ring).
  replace ((x1 - x0) * (y - y1) / (y1 - y1) + x0) with x0
    by (unfold Rdiv; replace (y1 - y1) with 0 by ring; rewrite Rinv_0; ring).
  replace ((x0 - x0) * (y - y0) / (y1 - y0) + x0) with x0
    by (unfold Rdiv; ring).
  destruct (Rgt_dec y0 y), (Rgt_dec y1 y); cbn [Bool.eqb negb andb];
    destruct (Rlt_dec x x1), (Rlt_dec x x0); cbn [negb];
    split; intros H; try discriminate; try lra; try reflexivity.
Qed.

Lemma pointInRing_rectangle_witness :
  GeoJSONLayer._pointInRing 10 20 (GeoJSONLayer.rectangle 10 20 30 40) = true.
Proof.
  apply (pointInRing_rectangle 10 20 10 20 30 40); lra.
Defined.

(** [_pointInPolygon]: a point is in a polygon exactly when it is in
    the first ring and in none of the further rings (the holes); a polygon
    with no ring at all makes the test throw. *)
Lemma pointInPolygon_outer_minus_holes (x y : R) (outer : list Point)
    (holes : list (list Point)) :
  GeoJSONLayer._pointInPolygon x y (outer :: holes) =
    Some (GeoJSONLayer._pointInRing x y outer &&
          forallb (fun h => negb (GeoJSONLayer._pointInRing x y h)) holes) /\
  GeoJSONLayer._pointInPolygon x y [] = None.
Proof.
  split; [ | reflexivity].
  unfold GeoJSONLayer._pointInPolygon. f_equal.
  destruct (GeoJSONLayer._pointInRing x y outer); [ | reflexivity].
  cbn [andb]. induction holes as [|h holes IH]; [reflexivity|].
  cbn [GeoJSONLayer.holes_loop forallb].
  destruct (GeoJSONLayer._pointInRing x y h); [reflexivity | exact IH].
Qed.

Section NearALine.

Import GeoJSONLayer.

Variables x y : R.

Lemma clamp_nearest (t s : R) :
  0 <= s <= 1 ->
  0 <= (s - Rmax 0 (Rmin 1 t)) * (s + Rmax 0 (Rmin 1 t) - 2 * t).
Proof.
  intros Hs. unfold Rmax, Rmin.
  destruct (Rle_dec 1 t) as [H1|H1].
  - destruct (Rle_dec 0 1); [ | lra].
    replace ((s - 1) * (s + 1 - 2 * t)) with ((1 - s) * (2 * t - s - 1)) by ring.
    apply Rmult_le_pos; lra.
  - destruct (Rle_dec 0 t) as [H0|H0].
    + replace ((s - t) * (s + t - 2 * t)) with ((s - t) * (s - t)) by ring.
      apply Rle_0_sqr.
    + apply Rmult_le_pos; lra.
Qed.

(** The clamped projection parameter of the source gives the point of the
    segment nearest to [(x, y)]. *)
Lemma clamped_projection_nearest (p1 p2 : Point) (s : R) :
  let dx := px p2 - px p1 in
  let dy := py p2 - py p1 in
  let lenSq := dx * dx + dy * dy in
  let t := ((x - px p1) * dx + (y - py p1) * dy) / lenSq in
  lenSq <> 0 -> 0 <= s <= 1 ->
  distSq_at x y p1 p2 (Rmax 0 (Rmin 1 t)) <= distSq_at x y p1 p2 s.
Proof.
  intros dx dy lenSq t HL Hs.
  assert (HLpos : 0 < lenSq) by (unfold lenSq in *; nra).
  set (B := (x - px p1) * dx + (y - py p1) * dy) in *.
  assert (HB : B = t * lenSq) by (unfold t; field; assumption).
  set (A := (x - px p1) * (x - px p1) + (y - py p1) * (y - py p1)).
  assert (F : forall u, distSq_at x y p1 p2 u = A - 2 * u * B + u * u * lenSq).
  { intros u. unfold distSq_at, A, B, lenSq, dx, dy. cbv zeta. ring. }
  rewrite !F, HB.
  set (t0 := Rmax 0 (Rmin 1 t)).
  assert (E : A - 2 * s * (t * lenSq) + s * s * lenSq -
              (A - 2 * t0 * (t * lenSq) + t0 * t0 * lenSq) =
              lenSq * ((s - t0) * (s + t0 - 2 * t))) by ring.
  pose proof (clamp_nearest t s Hs) as Hn. fold t0 in Hn.
  assert (0 <= lenSq * ((s - t0) * (s + t0 - 2 * t)))
    by (apply Rmult_le_pos; lra).
  lra.
Qed.

Lemma lenSq_zero_iff (p1 p2 : Point) :
  (px p2 - px p1) * (px p2 - px p1) + (py p2 - py p1) * (py p2 - py p1) = 0
  <-> p1 = p2.
Proof.
  destruct p1 as [x1 y1], p2 as [x2 y2]. cbn [px py]. split.
  - intros H. apply Rplus_sqr_eq_0 in H. destruct H. f_equal; lra.
  - intros H. injection H as -> ->. ring.
Qed.

End NearALine.

(** X16.  [_pointOnLine] answers [true] exactly when some point of some
    segment of the line, between two distinct consecutive points, lies
    nearer to [(x, y)] than half the width; segments of length zero are
    skipped, so a line with fewer than two distinct consecutive points is
    never hit. *)
Theorem pointOnLine_iff_near_a_segment (x y width : R) (line : list Point) :
  GeoJSONLayer._pointOnLine x y line width = true <->
  exists (p1 p2 : Point) (s : R),
    In (p1, p2) (GeoJSONLayer.segments line) /\ p1 <> p2 /\ 0 <= s <= 1 /\
    GeoJSONLayer.distSq_at x y p1 p2 s < (width / 2) * (width / 2).
Proof.
  induction line as [|p1 rest IH].
  - split; [discriminate | intros (? & ? & ? & [] & _)].
  - destruct rest as [|p2 rest].
    + split; [discriminate | intros (? & ? & ? & [] & _)].
    + change (GeoJSONLayer.segments (p1 :: p2 :: rest))
        with ((p1, p2) :: GeoJSONLayer.segments (p2 :: rest)).
      cbn [GeoJSONLayer._pointOnLine].
      destruct Req_dec_T as [HL|HL].
      * rewrite IH. split.
        -- intros (q1 & q2 & s & Hin & H). exists q1, q2, s.
           split; [now right | exact H].
        -- intros (q1 & q2 & s & [Hin|Hin] & Hne & H).
           ++ injection Hin as <- <-. apply lenSq_zero_iff in HL. contradiction.
           ++ exists q1, q2, s. auto.
      * destruct Rlt_dec as [Hd|Hd].
        -- split; [intros _ | reflexivity].
           exists p1, p2.
           exists (Rmax 0 (Rmin 1
                     (((x - px p1) * (px p2 - px p1) + (y - py p1) * (py p2 - py p1)) /
                      ((px p2 - px p1) * (px p2 - px p1) +
                       (py p2 - py p1) * (py p2 - py p1))))).
           split; [now left|]. split.
           { intros E. apply HL. now apply lenSq_zero_iff. }
           split; [ | exact Hd].
           unfold Rmax, Rmin; repeat destruct Rle_dec; lra.
        -- rewrite IH. split.
           ++ intros (q1 & q2 & s & Hin & H). exists q1, q2, s.
              split; [now right | exact H].
           ++ intros (q1 & q2 & s & [Hin|Hin] & Hne & Hs & H).
              ** injection Hin as <- <-. exfalso. apply Hd.
                 pose proof (clamped_projection_nearest x y p1 p2 s) as Hn.
                 cbv zeta in Hn. specialize (Hn HL Hs).
                 unfold GeoJSONLayer.distSq_at in Hn, H. cbv zeta in Hn, H.
                 eapply Rle_lt_trans; [exact Hn | exact H].
              ** exists q1, q2, s. auto.
Qed.

(** ** The tile grid of a render pass *)

Section TileGrid.

Import TileLayer.

Lemma in_range (n k : Z) : In k (range n) <-> (0 <= k < n)%Z.
Proof.
  unfold range. rewrite in_map_iff. split.
  - intros (i & <- & Hi%in_seq). lia.
  - intros Hk. exists (Z.to_nat k). split; [lia|]. apply in_seq. lia.
Qed.

Lemma insert_tile_perm (e : GridTile) (es : list GridTile) :
  Permutation (e :: es) (insert_tile e es).
Proof.
  induction es as [|t r IH]; [reflexivity|].
  cbn [insert_tile]. destruct JS.leb; [reflexivity|].
  rewrite perm_swap. now apply perm_skip.
Qed.

Lemma sort_tiles_perm (es : list GridTile) : Permutation es (sort_tiles es).
Proof.
  induction es as [|e es IH]; [reflexivity|].
  cbn [sort_tiles fold_right]. fold (sort_tiles es).
  rewrite <- insert_tile_perm. now apply perm_skip.
Qed.

Lemma insert_tile_sorted (e : GridTile) (es : list GridTile) :
  StronglySorted (fun a b => grid_dist a <= grid_dist b) es ->
  StronglySorted (fun a b => grid_dist a <= grid_dist b) (insert_tile e es).
Proof.
  induction 1 as [|t r Hr IH Ht]; cbn [insert_tile].
  - repeat constructor.
  - unfold JS.leb. destruct Rle_dec as [Hle|Hgt].
    + constructor; [now constructor|].
      constructor; [assumption|].
      rewrite Forall_forall in *. intros b Hb. specialize (Ht b Hb). lra.
    + constructor; [assumption|].
      rewrite Forall_forall in *. intros b Hb.
      apply (Permutation_in _ (Permutation_sym (insert_tile_perm e r))) in Hb.
      destruct Hb as [<-|Hb]; [lra | now apply Ht].
Qed.

Lemma sort_tiles_sorted (es : list GridTile) :
  StronglySorted (fun a b => grid_dist a <= grid_dist b) (sort_tiles es).
Proof.
  induction es as [|e es IH]; [constructor|].
  cbn [sort_tiles fold_right]. now apply insert_tile_sorted.
Qed.

(** A tile is in the array [tiles] exactly when its column and row are
    within the grid and its row exists at this zoom. *)
Lemma in_grid_tiles (m : Atlas) (g : GridTile) :
  In g (grid_tiles m) <->
  exists dx dy : Z,
    (0 <= dx < grid_cols m)%Z /\ (0 <= dy < grid_rows m)%Z /\
    0 <= IZR (grid_startY m + dy) < JS.pow2 (IZR (grid_zInt m)) /\
    g = mkGridTile (grid_startX m + dx) (grid_startY m + dy)
          (JS.hypot (IZR dx - IZR (grid_cols m) / 2)
                    (IZR dy - IZR (grid_rows m) / 2)).
Proof.
  unfold grid_tiles. cbv zeta. rewrite in_flat_map. split.
  - intros (dx & Hdx%in_range & Hg). rewrite in_flat_map in Hg.
    destruct Hg as (dy & Hdy%in_range & Hg).
    unfold JS.ltb, JS.leb in Hg.
    destruct Rlt_dec as [H1|H1]; [destruct Hg|].
    destruct Rle_dec as [H2|H2]; [destruct Hg|].
    destruct Hg as [<-|[]]. exists dx, dy.
    repeat split; auto; try lia; lra.
  - intros (dx & dy & Hdx & Hdy & Hy & ->).
    exists dx. split; [now apply in_range|]. rewrite in_flat_map.
    exists dy. split; [now apply in_range|].
    unfold JS.ltb, JS.leb.
    destruct Rlt_dec as [H1|H1]; [lra|].
    destruct Rle_dec as [H2|H2]; [lra|]. now left.
Qed.

(** A grid of [n] cells that starts half its width before [c] holds every
    cell within [n / 2 - 3 / 2] of [c]. *)
Lemma grid_holds_near (c v : R) (n : Z) :
  Rabs v <= IZR n / 2 - 3 / 2 ->
  (0 <= Zfloor (c + v) - Zfloor (c - IZR n / 2) < n)%Z.
Proof.
  intros Hv.
  assert (Hv' : - (IZR n / 2 - 3 / 2) <= v <= IZR n / 2 - 3 / 2).
  { unfold Rabs in Hv. destruct Rcase_abs; lra. }
  pose proof (Zfloor_bound (c + v)) as H1.
  pose proof (Zfloor_bound (c - IZR n / 2)) as H2.
  split.
  - assert (Zfloor (c - IZR n / 2) <= Zfloor (c + v))%Z
      by (apply Zfloor_le; lra). lia.
  - apply lt_IZR. rewrite minus_IZR. lra.
Qed.

(** The length of a rotated vector's coordinates against the extent of
    the canvas. *)
Lemma rotated_extent (u v a b c s : R) :
  Rabs u <= a -> Rabs v <= b ->
  Rabs (u * c + v * s) <= a * Rabs c + b * Rabs s.
Proof.
  intros Hu Hv.
  eapply Rle_trans; [apply Rabs_triang|]. rewrite !Rabs_mult.
  pose proof (Rabs_pos u). pose proof (Rabs_pos v).
  pose proof (Rabs_pos c). pose proof (Rabs_pos s).
  apply Rplus_le_compat; apply Rmult_le_compat_r; assumption.
Qed.

Lemma Rabs_half_extent (a w S : R) :
  0 < S -> 0 <= a <= w -> Rabs ((a - w / 2) / S) <= w / 2 / S.
Proof.
  intros HS Ha. unfold Rdiv at 1. rewrite Rabs_mult.
  rewrite (Rabs_right (/ S)) by (left; now apply Rinv_0_lt_compat).
  apply Rmult_le_compat_r; [left; now apply Rinv_0_lt_compat|].
  unfold Rabs. destruct Rcase_abs; lra.
Qed.

(** The tile point shown at a screen point, relative to the constant [ct]
    of [render], when the centre's longitude is a wrapped one. *)
Lemma screen_tpt_grid (m : Atlas) (ax ay : R) :
  -180 <= lon (center m) <= 180 ->
  let S := TILE_SIZE * grid_scaleFactor m in
  let u := (ax - canvas_width m / dpr m / 2) / S in
  let v := (ay - canvas_height m / dpr m / 2) / S in
  screen_tpt m ax ay =
  mkPoint (px (grid_ct m) + (u * cos (bearing m) + v * sin (bearing m)))
          (py (grid_ct m) + (v * cos (bearing m) + - u * sin (bearing m))).
Proof.
  intros Hlon S u v. unfold screen_tpt, grid_ct. cbv zeta.
  rewrite wrapLongitude_id by assumption.
  change (JS.Math_floor (zoom m)) with (IZR (grid_zInt m)).
  fold (grid_scaleFactor m). fold S. fold u. fold v.
  replace (mkLatLng (lat (center m)) (lon (center m))) with (center m)
    by now destruct (center m).
  unfold rot. cbn [px py]. rewrite cos_neg, sin_neg.
  unfold u, v. f_equal; ring.
Qed.

End TileGrid.

(** X17.  The tile grid of [TileLayer.render] covers the canvas at every
    bearing and zoom: on a map whose centre longitude is a wrapped one,
    the tile shown at any point of the canvas is among the tiles the
    render pass goes through, provided its row exists at the zoom level;
    the pass goes through its tiles in the order of their distance from
    the middle of the grid, and through no tile of a row outside
    [0, 2^zInt). *)
Theorem render_grid_covers_canvas (m : Atlas) (ax ay : R) :
  0 <= ax <= canvas_width m / dpr m ->
  0 <= ay <= canvas_height m / dpr m ->
  -180 <= lon (center m) <= 180 ->
  let t := screen_tpt m ax ay in
  let maxTileY := JS.pow2 (IZR (TileLayer.grid_zInt m)) in
  0 <= IZR (Zfloor (py t)) < maxTileY ->
  (exists d : R,
     In (TileLayer.mkGridTile (Zfloor (px t)) (Zfloor (py t)) d)
        (TileLayer.render_tiles m)) /\
  StronglySorted (fun a b => TileLayer.grid_dist a <= TileLayer.grid_dist b)
    (TileLayer.render_tiles m) /\
  Forall (fun g => 0 <= IZR (TileLayer.grid_Y g) < maxTileY)
    (TileLayer.render_tiles m).
Proof.
  intros Hax Hay Hlon t maxTileY Hrow.
  split; [ | split].
  - pose proof (screen_tpt_grid m ax ay Hlon) as Et. cbv zeta in Et.
    fold t in Et.
    assert (HS : 0 < TILE_SIZE * TileLayer.grid_scaleFactor m).
    { unfold TileLayer.grid_scaleFactor, TILE_SIZE.
      pose proof (pow2_pos (zoom m - IZR (TileLayer.grid_zInt m))). lra. }
    set (S := TILE_SIZE * TileLayer.grid_scaleFactor m) in *.
    set (w := canvas_width m / dpr m) in *.
    set (h := canvas_height m / dpr m) in *.
    set (u := (ax - w / 2) / S) in *. set (v := (ay - h / 2) / S) in *.
    set (c := cos (bearing m)) in *. set (s := sin (bearing m)) in *.
    assert (Hu : Rabs u <= w / 2 / S) by now apply Rabs_half_extent.
    assert (Hv : Rabs v <= h / 2 / S) by now apply Rabs_half_extent.
    assert (Hnu : Rabs (- u) <= w / 2 / S) by now rewrite Rabs_Ropp.
    pose proof (rotated_extent u v _ _ c s Hu Hv) as Hx.
    pose proof (rotated_extent v (- u) _ _ c s Hv Hnu) as Hy.
    assert (Hcols : (w * Rabs c + h * Rabs s) / S + 3 <= IZR (TileLayer.grid_cols m)).
    { unfold TileLayer.grid_cols. cbv zeta. fold w h c s S.
      rewrite plus_IZR. unfold TILE_BUFFER.
      pose proof (Zceil_bound ((w * Rabs c + h * Rabs s) / S)). lra. }
    assert (Hrows : (w * Rabs s + h * Rabs c) / S + 3 <= IZR (TileLayer.grid_rows m)).
    { unfold TileLayer.grid_rows. cbv zeta. fold w h c s S.
      rewrite plus_IZR. unfold TILE_BUFFER.
      pose proof (Zceil_bound ((w * Rabs s + h * Rabs c) / S)). lra. }
    assert (Hx' : Rabs (u * c + v * s) <= IZR (TileLayer.grid_cols m) / 2 - 3 / 2).
    { eapply Rle_trans; [exact Hx|].
      replace (w / 2 / S * Rabs c + h / 2 / S * Rabs s)
        with ((w * Rabs c + h * Rabs s) / S / 2) by (field; lra). lra. }
    assert (Hy' : Rabs (v * c + - u * s) <= IZR (TileLayer.grid_rows m) / 2 - 3 / 2).
    { eapply Rle_trans; [exact Hy|].
      replace (h / 2 / S * Rabs c + w / 2 / S * Rabs s)
        with ((w * Rabs s + h * Rabs c) / S / 2) by (field; lra). lra. }
    pose proof (grid_holds_near (px (TileLayer.grid_ct m)) _ _ Hx') as Gx.
    pose proof (grid_holds_near (py (TileLayer.grid_ct m)) _ _ Hy') as Gy.
    fold (TileLayer.grid_startX m) in Gx. fold (TileLayer.grid_startY m) in Gy.
    assert (Epx : px t = px (TileLayer.grid_ct m) + (u * c + v * s))
      by now rewrite Et.
    assert (Epy : py t = py (TileLayer.grid_ct m) + (v * c + - u * s))
      by now rewrite Et.
    rewrite <- Epx in Gx. rewrite <- Epy in Gy.
    set (dx := (Zfloor (px t) - TileLayer.grid_startX m)%Z) in *.
    set (dy := (Zfloor (py t) - TileLayer.grid_startY m)%Z) in *.
    exists (JS.hypot (IZR dx - IZR (TileLayer.grid_cols m) / 2)
                     (IZR dy - IZR (TileLayer.grid_rows m) / 2)).
    unfold TileLayer.render_tiles.
    apply (Permutation_in _ (sort_tiles_perm _)).
    apply in_grid_tiles. exists dx, dy.
    replace (TileLayer.grid_startX m + dx)%Z with (Zfloor (px t)) by (unfold dx; lia).
    replace (TileLayer.grid_startY m + dy)%Z with (Zfloor (py t)) by (unfold dy; lia).
    repeat split; try apply Gx; try apply Gy; apply Hrow.
  - apply sort_tiles_sorted.
  - unfold TileLayer.render_tiles. rewrite Forall_forall. intros g Hg.
    apply (Permutation_in _ (Permutation_sym (sort_tiles_perm _))) in Hg.
    apply in_grid_tiles in Hg. destruct Hg as (dx & dy & _ & _ & Hy & ->).
    exact Hy.
Qed.

Lemma render_grid_witness :
  exists d : R,
    In (TileLayer.mkGridTile 0 0 d) (TileLayer.render_tiles world_view).
Proof.
  pose proof (render_grid_covers_canvas world_view 576 256) as H.
  cbv zeta in H. rewrite world_view_tpt in H. cbn [px py] in H.
  replace (Zfloor (1 / 2 + (576 - 512) / 256)) with 0%Z in H
    by (symmetry; apply Zfloor_eq; lra).
  replace (Zfloor (1 / 2)) with 0%Z in H by (symmetry; apply Zfloor_eq; lra).
  assert (Hz : TileLayer.grid_zInt world_view = 0%Z) by apply (ZfloorZ 0).
  rewrite Hz, pow2_0 in H.
  apply H; unfold world_view; cbn [canvas_width canvas_height dpr center lon]; lra.
Defined.

(** ** Cache keys and URLs of the tiles of a render pass *)

Section TileKeys.

Import JSString TileLayer.
Local Open Scope string_scope.

(** A decimal numeral holds no slash. *)
Lemma of_Z_slash_free (n : Z) : char_free "/" (of_Z n) = true.
Proof.
  assert (Hd : forall d, char_free "/" (NilZero.string_of_uint d) = true).
  { intros d. unfold NilZero.string_of_uint.
    destruct d; try reflexivity;
      apply (string_of_uint_char_free "/" (_ d)); repeat split; discriminate. }
  unfold of_Z, NilZero.string_of_int.
  destruct (Z.to_int n) as [d|d]; [apply Hd|].
  cbn [char_free]. now rewrite Hd.
Qed.

Lemma of_Z_inj (a b : Z) : of_Z a = of_Z b -> a = b.
Proof.
  unfold of_Z. intros E.
  destruct (to_int_not_nil a) as [Ha1 Ha2], (to_int_not_nil b) as [Hb1 Hb2].
  pose proof (NilZero.isi _ Ha1 Ha2) as Ia.
  pose proof (NilZero.isi _ Hb1 Hb2) as Ib.
  rewrite E, Ib in Ia. injection Ia as Ia.
  now apply DecimalZ.to_int_inj.
Qed.

(** Two texts cut at their first occurrence of [c] agree part by part. *)
Lemma split_at_char (c : ascii) (s1 s2 r1 r2 : string) :
  char_free c s1 = true -> char_free c s2 = true ->
  s1 ++ String c r1 = s2 ++ String c r2 -> s1 = s2 /\ r1 = r2.
Proof.
  revert s2. induction s1 as [|a s1 IH]; intros [|b s2] H1 H2 E; cbn in *.
  - injection E as E. now split.
  - injection E as E1 E2. subst b.
    rewrite Ascii.eqb_refl in H2. discriminate.
  - injection E as E1 E2. subst a.
    rewrite Ascii.eqb_refl in H1. discriminate.
  - injection E as E1 E2. subst b.
    apply andb_true_iff in H1, H2.
    destruct (IH s2 (proj2 H1) (proj2 H2) E2) as [-> ->]. now split.
Qed.

Lemma tile_key_eq_iff (z X Y z' X' Y' : Z) :
  tile_key z X Y = tile_key z' X' Y' <-> z = z' /\ X = X' /\ Y = Y'.
Proof.
  split; [ | now intros (-> & -> & ->)].
  unfold tile_key. intros E.
  apply split_at_char in E; try apply of_Z_slash_free.
  destruct E as [Ez E].
  apply split_at_char in E; try apply of_Z_slash_free.
  destruct E as [EX EY].
  repeat split; now apply of_Z_inj.
Qed.

End TileKeys.

(** X18.  The cache keys [`${z}/${X}/${Y}`] never collide: two tiles have
    the same key only when they are the same tile, and the key of a tile
    names its zoom, column and row in decimal. *)
Theorem tile_key_injective (z X Y z' X' Y' : Z) :
  (TileLayer.tile_key z X Y = TileLayer.tile_key z' X' Y' <->
   z = z' /\ X = X' /\ Y = Y') /\
  TileLayer.tile_key 3 (-1) 7 = "3/-1/7"%string.
Proof.
  split; [apply tile_key_eq_iff | reflexivity].
Qed.

(** X19.  The copies of a tile in the neighbouring copies of the world
    (the columns [X + k * 2^z]) resolve to one and the same URL, and each
    of them has a cache key of its own: a render pass that shows several
    copies of the world requests and caches the same image once per
    copy. *)
Theorem world_copies_share_url_not_key (env : TileLayer.Env)
    (l : TileLayer.Layer) (X Y k : Z) (z : nat) :
  TileLayer._getTileUrl env l
    (inject_Z (X + k * TileLayer.scale_of z)) (inject_Z Y) z =
  TileLayer._getTileUrl env l (inject_Z X) (inject_Z Y) z /\
  (TileLayer.tile_key (Z.of_nat z) (X + k * TileLayer.scale_of z) Y =
   TileLayer.tile_key (Z.of_nat z) X Y <-> k = 0%Z).
Proof.
  split.
  - rewrite !getTileUrl_suffix. do 3 f_equal.
    rewrite !intX_mod, !Qfloor_Z. now rewrite Z.mod_add by
      (pose proof (scale_of_pos z); lia).
  - rewrite tile_key_eq_iff. pose proof (scale_of_pos z) as Hs. split.
    + intros (_ & E & _). nia.
    + intros ->. repeat split; lia.
Qed.

(** ** Event listeners *)

Section EventListeners.

Import TileLayer Events.

Lemma map_get_set_same {A : Type} (k : string) (v : A) (m : list (string * A)) :
  map_get k (map_set k v m) = Some v.
Proof.
  unfold map_set, map_get. destruct (map_has k m) eqn:Hh.
  - unfold map_has in Hh. induction m as [|[k' v'] m IH]; [discriminate|].
    cbn [existsb fst] in Hh. cbn [map find fst].
    destruct (String.eqb k' k) eqn:E.
    + cbn [fst]. now rewrite String.eqb_refl.
    + cbn [fst]. rewrite E. apply IH. now rewrite orb_false_l in Hh.
  - unfold map_has in Hh. induction m as [|[k' v'] m IH].
    + cbn. now rewrite String.eqb_refl.
    + cbn [existsb fst] in Hh. apply orb_false_iff in Hh. destruct Hh as [E Hh].
      cbn [app find fst]. rewrite E. now apply IH.
Qed.

Lemma map_get_set_other {A : Type} (k k' : string) (v : A)
    (m : list (string * A)) :
  k' <> k -> map_get k' (map_set k v m) = map_get k' m.
Proof.
  intros Hne. apply String.eqb_neq in Hne.
  unfold map_set, map_get. destruct (map_has k m) eqn:Hh.
  - clear Hh. induction m as [|[k1 v1] m IH]; [reflexivity|].
    cbn [map find fst]. destruct (String.eqb k1 k) eqn:E.
    + cbn [fst]. apply String.eqb_eq in E. subst k1.
      rewrite String.eqb_sym, Hne. exact IH.
    + cbn [fst]. destruct (String.eqb k1 k'); [reflexivity | exact IH].
  - clear Hh. induction m as [|[k1 v1] m IH].
    + cbn. now rewrite String.eqb_sym, Hne.
    + cbn [app find fst]. destruct (String.eqb k1 k'); [reflexivity | exact IH].
Qed.

Lemma forEach_no_throw (ls : list Listener) :
  forEach (fun _ => false) ls = (ls, false).
Proof.
  induction ls as [|f ls IH]; [reflexivity|].
  cbn [forEach]. now rewrite IH.
Qed.

Lemma called_get (type : string) (ev : Table) :
  called type ev = match map_get type ev with Some ls => ls | None => [] end.
Proof.
  unfold called, fire. destruct (map_get type ev); [ | reflexivity].
  now rewrite forEach_no_throw.
Qed.

(** A listener that throws is the last one called. *)
Lemma forEach_stops_at_throw (throws : Listener -> bool) (ls : list Listener) :
  exists rest : list Listener,
    ls = fst (forEach throws ls) ++ rest /\
    Forall (fun f => throws f = false) (removelast (fst (forEach throws ls))) /\
    (snd (forEach throws ls) = true ->
     exists f, last (fst (forEach throws ls)) f = f /\ throws f = true /\
               fst (forEach throws ls) <> []) /\
    (snd (forEach throws ls) = false -> rest = [] /\
     Forall (fun f => throws f = false) ls).
Proof.
  induction ls as [|f ls IH].
  - exists []. cbn. repeat split; auto; try discriminate.
  - cbn [forEach]. destruct (throws f) eqn:Ef.
    + exists ls. cbn. repeat split; auto; try discriminate.
      intros _. exists f. repeat split; auto. discriminate.
    + destruct IH as (rest & E & Hpre & Ht & Hf). exists rest. cbn [fst snd].
      split; [cbn; now rewrite <- E|]. split; [ | split].
      * destruct (fst (forEach throws ls)) as [|g r] eqn:Er; [constructor|].
        change (removelast (f :: g :: r)) with (f :: removelast (g :: r)).
        constructor; assumption.
      * intros H. destruct (Ht H) as (g & Hl & Hg & Hne). exists g.
        repeat split; auto; [ | discriminate].
        destruct (fst (forEach throws ls)); [contradiction | exact Hl].
      * intros H. destruct (Hf H) as [-> Hall]. split; [reflexivity|].
        now constructor.
Qed.

End EventListeners.

(** X20.  [on], [off] and [fire] (of [Layer], [Control], [Overlay] and
    [Atlas]) on an event type that is not the name of a member of
    [Object.prototype]: [on] adds one call at the end of the calls of
    [fire], also for a listener that is registered already; [off] with a
    listener removes every registration of it and keeps the other
    listeners in their order; [off] without a listener removes them all;
    none of them touches the listeners of another type; and [fire] calls
    the listeners in the order of their registration until one throws:
    the listeners it calls are the registered ones up to and including
    the first that throws, and all of them when none throws. *)
Theorem events_on_off_fire (ev : Events.Table) (type other : string)
    (fn : Events.Listener) (throws : Events.Listener -> bool) :
  Events.ordinary type = true -> Events.ordinary other = true ->
  other <> type ->
  Events.called type (Events.on type fn ev) = Events.called type ev ++ [fn] /\
  Events.called type (Events.off type (Some fn) ev) =
    filter (fun cb => negb (Nat.eqb cb fn)) (Events.called type ev) /\
  ~ In fn (Events.called type (Events.off type (Some fn) ev)) /\
  Events.called type (Events.off type None ev) = [] /\
  Events.called other (Events.on type fn ev) = Events.called other ev /\
  Events.called other (Events.off type (Some fn) ev) = Events.called other ev /\
  Events.called other (Events.off type None ev) = Events.called other ev /\
  (exists rest,
     Events.called type ev = fst (Events.fire throws type ev) ++ rest /\
     Forall (fun f => throws f = false)
       (removelast (fst (Events.fire throws type ev))) /\
     (snd (Events.fire throws type ev) = true ->
      exists pre f, fst (Events.fire throws type ev) = pre ++ [f] /\
                    throws f = true) /\
     (snd (Events.fire throws type ev) = false ->
      rest = [] /\
      Forall (fun f => throws f = false) (Events.called type ev))).
Proof.
  intros _ _ Hne. rewrite !called_get.
  assert (Hoff : forall o, TileLayer.map_get type (Events.off type o ev) =
            match TileLayer.map_get type ev with
            | None => None
            | Some ls => Some (match o with
                               | None => []
                               | Some f => filter (fun cb => negb (Nat.eqb cb f)) ls
                               end)
            end).
  { intros o. unfold Events.off.
    destruct (TileLayer.map_get type ev) eqn:E; [ | exact E].
    destruct o; apply map_get_set_same. }
  assert (Hoff' : forall o, TileLayer.map_get other (Events.off type o ev) =
                            TileLayer.map_get other ev).
  { intros o. unfold Events.off.
    destruct (TileLayer.map_get type ev) eqn:E; [ | reflexivity].
    destruct o; now apply map_get_set_other. }
  assert (Hon : TileLayer.map_get type (Events.on type fn ev) =
                Some (match TileLayer.map_get type ev with
                      | None => [] | Some ls => ls end ++ [fn])).
  { unfold Events.on. destruct (TileLayer.map_get type ev);
      apply map_get_set_same. }
  assert (Hon' : TileLayer.map_get other (Events.on type fn ev) =
                 TileLayer.map_get other ev).
  { unfold Events.on. destruct (TileLayer.map_get type ev);
      now apply map_get_set_other. }
  rewrite Hon, Hon', !Hoff, !Hoff'.
  destruct (TileLayer.map_get type ev) as [ls|] eqn:Eg.
  - split; [reflexivity|]. split; [reflexivity|]. split.
    { intros Hin%filter_In. destruct Hin as [_ Hin].
      now rewrite Nat.eqb_refl in Hin. }
    do 4 (split; [reflexivity|]).
    unfold Events.fire. rewrite Eg.
    destruct (forEach_stops_at_throw throws ls) as (rest & E & Hpre & Ht & Hf).
    exists rest. split; [exact E|]. split; [exact Hpre|]. split.
    + intros H. destruct (Ht H) as (f & Hl & Hf' & Hne').
      exists (removelast (fst (Events.forEach throws ls))), f.
      split; [ | exact Hf'].
      pose proof (app_removelast_last f Hne') as E'. now rewrite Hl in E'.
    + intros H. exact (Hf H).
  - split; [reflexivity|]. split; [reflexivity|]. split; [intros []|].
    do 4 (split; [reflexivity|]).
    unfold Events.fire. rewrite Eg.
    exists []. cbn. split; [reflexivity|]. split; [constructor|].
    split; [discriminate|]. intros _. split; [reflexivity | constructor].
Qed.

(** Three listeners of which the second throws: registering the third
    again adds a call, and [fire] ends with a listener that throws. *)
Lemma events_witness :
  Events.called "click"
    (Events.on "click" 3%nat
       (Events.on "click" 3%nat
          (Events.on "click" 2%nat (Events.on "click" 1%nat [])))) =
  Events.called "click"
    (Events.on "click" 3%nat
       (Events.on "click" 2%nat (Events.on "click" 1%nat []))) ++ [3%nat] /\
  exists pre f,
    fst (Events.fire (Nat.eqb 2) "click"
           (Events.on "click" 3%nat
              (Events.on "click" 2%nat (Events.on "click" 1%nat [])))) =
    pre ++ [f] /\ Nat.eqb 2 f = true.
Proof.
  destruct (events_on_off_fire
              (Events.on "click" 3%nat
                 (Events.on "click" 2%nat (Events.on "click" 1%nat [])))
              "click" "drag" 3%nat (Nat.eqb 2))
    as (H1 & _ & _ & _ & _ & _ & _ & rest & _ & _ & Ht & _);
    [reflexivity | reflexivity | discriminate | ].
  split; [exact H1 | apply Ht; reflexivity].
Defined.

(** ** The layers of the map *)

Section LayerList.

Import Layers.

Lemma same_refl (a : LayerObj) : same a a = true.
Proof. apply Nat.eqb_refl. Qed.

Lemma same_sym (a b : LayerObj) : same a b = same b a.
Proof. apply Nat.eqb_sym. Qed.

Lemma includes_iff (a : LayerObj) (ls : list LayerObj) :
  includes a ls = true <-> In (layer_id a) (map layer_id ls).
Proof.
  unfold includes. rewrite existsb_exists, in_map_iff. split.
  - intros (b & Hb & E). exists b. split; [ | assumption].
    symmetry. now apply Nat.eqb_eq.
  - intros (b & E & Hb). exists b. split; [assumption|].
    apply Nat.eqb_eq. now symmetry.
Qed.

Lemma includes_app (a : LayerObj) (l1 l2 : list LayerObj) :
  includes a (l1 ++ l2) = includes a l1 || includes a l2.
Proof. apply existsb_app. Qed.

Lemma remove_first_ids (a : LayerObj) (ls : list LayerObj) :
  NoDup (map layer_id ls) ->
  NoDup (map layer_id (remove_first a ls)) /\
  (forall i, In i (map layer_id (remove_first a ls)) <->
             In i (map layer_id ls) /\ i <> layer_id a).
Proof.
  induction ls as [|l ls IH]; intros Hnd.
  - split; [constructor | cbn; tauto].
  - cbn [map] in Hnd. inversion Hnd as [|? ? Hl Hnd']; subst.
    cbn [remove_first]. unfold same. destruct (Nat.eqb_spec (layer_id l) (layer_id a)) as [E|E].
    + split; [assumption|]. intros i. cbn [map In]. rewrite <- E. split.
      * intros Hi. split; [now right|]. intros ->. contradiction.
      * intros [[Hi|Hi] Hne]; [congruence | assumption].
    + destruct (IH Hnd') as [IH1 IH2]. split.
      * cbn [map]. constructor; [ | assumption]. rewrite IH2. tauto.
      * intros i. cbn [map In]. rewrite IH2. split.
        -- intros [<-|[Hi Hne]]; [split; [now left | assumption] | tauto].
        -- intros [[Hi|Hi] Hne]; [now left | right; tauto].
Qed.

Lemma remove_first_subset (a b : LayerObj) (ls : list LayerObj) :
  In b (remove_first a ls) -> In b ls.
Proof.
  induction ls as [|l ls IH]; [intros []|].
  cbn [remove_first]. destruct (same l a); [now right|].
  intros [<-|H]; [now left | right; now apply IH].
Qed.

Lemma no_tile_remove_first (a : LayerObj) (ls : list LayerObj) :
  forallb (fun l => negb (isTileLayer l)) ls = true ->
  forallb (fun l => negb (isTileLayer l)) (remove_first a ls) = true.
Proof.
  rewrite !forallb_forall. intros H b Hb. apply H.
  now apply remove_first_subset in Hb.
Qed.

Lemma find_tile_none (ls : list LayerObj) :
  find isTileLayer ls = None ->
  forallb (fun l => negb (isTileLayer l)) ls = true.
Proof.
  intros H. apply forallb_forall. intros b Hb.
  now rewrite (find_none _ _ H b Hb).
Qed.

Lemma find_tile_some (ls : list LayerObj) (t : LayerObj) :
  find isTileLayer ls = Some t -> includes t ls = true /\ isTileLayer t = true.
Proof.
  intros H. apply find_some in H. destruct H as [Hin Ht]. split; [ | exact Ht].
  unfold includes. apply existsb_exists. exists t. split; [assumption|].
  apply same_refl.
Qed.

Lemma no_tile_find (ls : list LayerObj) :
  forallb (fun l => negb (isTileLayer l)) ls = true -> find isTileLayer ls = None.
Proof.
  induction ls as [|l ls IH]; [reflexivity|].
  cbn [forallb find]. intros H. apply andb_true_iff in H. destruct H as [H1 H2].
  apply negb_true_iff in H1. rewrite H1. now apply IH.
Qed.

Lemma removeLayer_well_formed (a : LayerObj) (m : LayerMap) :
  well_formed m -> well_formed (removeLayer a m).
Proof.
  intros (Hnd & Hb & Hn). unfold removeLayer.
  destruct (includes a (_layers m)) eqn:Ha; [ | now repeat split].
  destruct (remove_first_ids a _ Hnd) as [Hnd' Hids].
  destruct (_baseLayer m) as [b|] eqn:Eb.
  - destruct (same b a) eqn:Eba.
    + repeat split; cbn [_layers _baseLayer]; [assumption | | ].
      * intros t Ht. now apply find_tile_some in Ht.
      * apply find_tile_none.
    + repeat split; cbn [_layers _baseLayer]; [assumption | | discriminate].
      intros t Ht. injection Ht as <-. apply includes_iff, Hids. split.
      * apply includes_iff, Hb. reflexivity.
      * unfold same in Eba. now apply Nat.eqb_neq in Eba.
  - repeat split; cbn [_layers _baseLayer]; [assumption | discriminate | ].
    intros _. apply no_tile_remove_first. now apply Hn.
Qed.

Lemma addLayer_well_formed (a : LayerObj) (m : LayerMap) :
  well_formed m -> well_formed (state (addLayer a m)).
Proof.
  intros (Hnd & Hb & Hn). unfold addLayer.
  destruct (includes a (_layers m)) eqn:Ha; [now repeat split|].
  assert (Hnd' : NoDup (map layer_id (_layers m ++ [a]))).
  { rewrite map_app. cbn [map]. apply NoDup_app; auto.
    - repeat constructor. intros [].
    - intros i Hi [<-|[]]. apply includes_iff in Hi. congruence. }
  destruct (_baseLayer m) as [b|] eqn:Eb.
  - repeat split; cbn [state _layers _baseLayer]; [assumption | | discriminate].
    intros t Ht. injection Ht as <-. rewrite includes_app, (Hb b eq_refl).
    reflexivity.
  - assert (W : well_formed (mkLayerMap (_layers m ++ [a]) (Some a) (zoom m))).
    { repeat split; cbn [_layers _baseLayer]; [assumption | | discriminate].
      intros t Ht. injection Ht as <-. rewrite includes_app. cbn.
      now rewrite same_refl, !orb_true_r. }
    now destruct (isTileLayer a).
Qed.

Lemma setBaseLayer_well_formed (a : LayerObj) (m : LayerMap) :
  well_formed m -> well_formed (state (setBaseLayer a m)).
Proof.
  intros W. unfold setBaseLayer.
  destruct (isTileLayer a); cbn [negb]; [ | exact W].
  set (m1 := match _baseLayer m with
             | Some b => if same b a then m else removeLayer b m
             | None => m
             end).
  assert (W1 : well_formed m1).
  { unfold m1. destruct (_baseLayer m) as [b|]; [ | exact W].
    destruct (same b a); [exact W | now apply removeLayer_well_formed]. }
  destruct (includes a (_layers m1)) eqn:Ha; cbn [negb].
  - destruct W1 as (Hnd & Hb & Hn).
    repeat split; cbn [state _layers _baseLayer]; [assumption | | discriminate].
    intros t Ht. now injection Ht as <-.
  - now apply addLayer_well_formed.
Qed.

Lemma calls_well_formed (cs : list Call) : forall m,
  well_formed m -> well_formed (calls cs m).
Proof.
  induction cs as [|c cs IH]; intros m W; [exact W|].
  cbn [calls fold_left]. apply IH.
  destruct c; cbn [call].
  - now apply addLayer_well_formed.
  - now apply removeLayer_well_formed.
  - now apply setBaseLayer_well_formed.
Qed.

Lemma new_well_formed (z : R) : well_formed (new z).
Proof.
  unfold well_formed, new. cbn.
  split; [constructor | split; [discriminate | reflexivity]].
Qed.

Lemma includes_remove_first_other (a b : LayerObj) (ls : list LayerObj) :
  NoDup (map layer_id ls) -> same b a = false ->
  includes a (remove_first b ls) = includes a ls.
Proof.
  intros Hnd Hne. destruct (remove_first_ids b ls Hnd) as [_ Hids].
  unfold same in Hne. apply Nat.eqb_neq in Hne.
  destruct (includes a ls) eqn:E.
  - apply includes_iff, Hids. split; [now apply includes_iff | congruence].
  - destruct (includes a (remove_first b ls)) eqn:E'; [ | reflexivity].
    apply includes_iff, Hids in E'. destruct E' as [E' _].
    apply includes_iff in E'. congruence.
Qed.

End LayerList.

(** X21.  The layer list of the map: after any sequence of [addLayer],
    [removeLayer] and [setBaseLayer] calls on a new map, also when some of
    them throw, no layer is on the list twice, the base layer (if any) is
    on the list, and a list that holds a tile layer has a base layer. *)
Theorem layers_stay_well_formed (cs : list Layers.Call) (defaultZoom : R) :
  Layers.well_formed (Layers.calls cs (Layers.new defaultZoom)).
Proof. apply calls_well_formed, new_well_formed. Qed.

(** X22.  [setBaseLayer(newLayer)] for a tile layer, on a well-formed
    layer list: the former base layer, when it is another layer, leaves
    the list.  When [newLayer] is on the list already it becomes the base
    layer and the zoom is clamped into its zoom range.  When it is not, it
    is added at the end of the list and the zoom is left as it is; it
    becomes the base layer only when no other tile layer is left on the
    list, otherwise the first tile layer left on the list does. *)
Theorem setBaseLayer_outcome (m : Layers.LayerMap) (newLayer : Layers.LayerObj) :
  Layers.well_formed m -> Layers.isTileLayer newLayer = true ->
  let kept := match Layers._baseLayer m with
              | Some b => if Layers.same b newLayer then Layers._layers m
                          else Layers.remove_first b (Layers._layers m)
              | None => Layers._layers m
              end in
  Layers.setBaseLayer newLayer m =
  if Layers.includes newLayer (Layers._layers m) then
    Layers.Returns
      (Layers.mkLayerMap kept (Some newLayer)
         (Rmax (Layers.layer_minZoom newLayer)
               (Rmin (Layers.layer_maxZoom newLayer) (Layers.zoom m))))
  else
    Layers.Returns
      (Layers.mkLayerMap (kept ++ [newLayer])
         (match find Layers.isTileLayer kept with
          | Some t => Some t
          | None => Some newLayer
          end)
         (Layers.zoom m)).
Proof.
  intros (Hnd & Hb & Hn) Ht kept. unfold Layers.setBaseLayer.
  rewrite Ht. cbn [negb].
  destruct (Layers._baseLayer m) as [b|] eqn:Eb.
  - pose proof (Hb b eq_refl) as Hinb.
    destruct (Layers.same b newLayer) eqn:Es.
    + assert (Hin : Layers.includes newLayer (Layers._layers m) = true).
      { apply includes_iff. apply includes_iff in Hinb.
        unfold Layers.same in Es. apply Nat.eqb_eq in Es. congruence. }
      rewrite Hin. reflexivity.
    + unfold Layers.removeLayer. rewrite Hinb, Eb, same_refl.
      cbn [Layers._layers Layers.zoom].
      rewrite (includes_remove_first_other _ _ _ Hnd Es).
      destruct (Layers.includes newLayer (Layers._layers m)) eqn:Hin;
        cbn [negb]; [reflexivity|].
      unfold Layers.addLayer. cbn [Layers._layers Layers._baseLayer Layers.zoom].
      rewrite (includes_remove_first_other _ _ _ Hnd Es), Hin.
      fold kept. destruct (find Layers.isTileLayer kept); [reflexivity|].
      now rewrite Ht.
  - destruct (Layers.includes newLayer (Layers._layers m)) eqn:Hin;
      cbn [negb]; [reflexivity|].
    unfold Layers.addLayer. rewrite Hin, Eb, Ht.
    unfold kept. now rewrite (no_tile_find _ (Hn eq_refl)).
Qed.

Lemma setBaseLayer_witness :
  let osm := Layers.mkLayerObj 1 Layers.KTileLayer 0 19 in
  let labels := Layers.mkLayerObj 2 Layers.KTileLayer 0 19 in
  let esri := Layers.mkLayerObj 3 Layers.KTileLayer 0 19 in
  let m := Layers.calls [Layers.CallAddLayer osm; Layers.CallAddLayer labels]
             (Layers.new 3) in
  Layers.setBaseLayer esri m =
  Layers.Returns (Layers.mkLayerMap [labels; esri] (Some labels) 3).
Proof.
  cbv zeta.
  rewrite (setBaseLayer_outcome _ (Layers.mkLayerObj 3 Layers.KTileLayer 0 19)
             (calls_well_formed _ _ (new_well_formed 3)) eq_refl).
  reflexivity.
Defined.

(** ** The scale bar *)

Section ScaleBar.

Import ScaleControl.

Lemma ln_10_pos : 0 < ln 10.
Proof. rewrite <- ln_1. apply ln_increasing; lra. Qed.

Lemma pow10_pos (k : R) : 0 < pow10 k.
Proof. apply exp_pos. Qed.

Lemma pow10_log10 (t : R) : 0 < t -> pow10 (log10 t) = t.
Proof.
  intros Ht. unfold pow10, log10, Rpower.
  replace (ln t / ln 10 * ln 10) with (ln t)
    by (field; pose proof ln_10_pos; lra).
  now apply exp_ln.
Qed.

(** The power of ten at or below a positive number is within a factor of
    ten of it. *)
Lemma decade_of (t : R) :
  0 < t ->
  pow10 (JS.Math_floor (log10 t)) <= t < 10 * pow10 (JS.Math_floor (log10 t)).
Proof.
  intros Ht. pose proof (Zfloor_bound (log10 t)) as [Hlo Hhi].
  unfold JS.Math_floor. set (k := IZR (Zfloor (log10 t))) in *.
  pose proof (pow10_log10 t Ht) as E. split.
  - rewrite <- E. apply Rle_Rpower; lra.
  - replace (10 * pow10 k) with (pow10 (k + 1)).
    + rewrite <- E. apply Rpower_lt; lra.
    + unfold pow10. rewrite Rpower_plus, Rpower_1 by lra. ring.
Qed.

Lemma resolution_pos (la z : R) :
  MIN_LATITUDE <= la <= MAX_LATITUDE -> 0 < GISUtils.getResolution la z.
Proof.
  intros Hc. unfold GISUtils.getResolution, EARTH_CIRCUMFERENCE, TILE_SIZE.
  pose proof (pow2_pos z) as Hs. pose proof EARTH_RADIUS_pos as Hd.
  pose proof PI_RGT_0 as HPI.
  rewrite MIN_LATITUDE_eq in Hc.
  pose proof (clamped_lat_radians _ Hc) as Hr.
  rewrite toRadians_DEG2RAD.
  assert (0 < cos (la * DEG2RAD)) by (apply cos_gt_0; lra).
  assert (Hk : 0 < 2 * PI * EARTH_RADIUS) by nra.
  assert (Hq : 0 < JS.pow2 z * 256) by nra.
  apply Rdiv_lt_0_compat; [ | assumption].
  now apply Rmult_lt_0_compat.
Qed.

End ScaleBar.

(** X23.  The scale bar ([ScaleControl._update]) on a map whose centre
    latitude is a clamped one, for a control at least 50 pixels wide (the
    default is 150): the distance on the label is 1, 2 or 5 times a whole
    power of ten, the bar is more than two fifths of [maxWidth] and at
    most [maxWidth] wide, and it is drawn to scale: its width times the
    resolution is the distance on the label. *)
Theorem scale_bar_is_to_scale (m : Atlas) (maxWidth : R) :
  MIN_LATITUDE <= lat (center m) <= MAX_LATITUDE ->
  50 <= maxWidth ->
  let bar := ScaleControl._update m maxWidth in
  let mPerPx := GISUtils.getResolution (lat (center m)) (zoom m) in
  (exists (k : Z) (d : R),
     (d = 1 \/ d = 2 \/ d = 5) /\
     ScaleControl.niceMeters bar = d * ScaleControl.pow10 (IZR k)) /\
  ScaleControl.widthPx bar * mPerPx = ScaleControl.niceMeters bar /\
  2 / 5 * maxWidth < ScaleControl.widthPx bar <= maxWidth.
Proof.
  intros Hlat Hw bar mPerPx.
  assert (Hres : 0 < mPerPx).
  { now apply resolution_pos. }
  unfold bar, ScaleControl._update. cbv zeta. fold mPerPx.
  cbn [ScaleControl.widthPx ScaleControl.niceMeters].
  set (t := mPerPx * maxWidth).
  assert (Ht : 0 < t) by (unfold t; nra).
  pose proof (decade_of t Ht) as [Hlo Hhi].
  pose proof (pow10_pos (JS.Math_floor (ScaleControl.log10 t))) as Hp.
  set (p := ScaleControl.pow10 (JS.Math_floor (ScaleControl.log10 t))) in *.
  assert (Hb : 1 <= t / p < 10).
  { split.
    - apply Rmult_le_reg_r with p; [assumption|].
      replace (t / p * p) with t by (field; lra). lra.
    - apply Rmult_lt_reg_r with p; [assumption|].
      replace (t / p * p) with t by (field; lra). lra. }
  set (b := t / p) in *.
  assert (Et : t = b * p) by (unfold b; field; lra).
  set (n := if Rle_dec 5 b then 5 else if Rle_dec 2 b then 2 else 1).
  assert (Hn : (n = 1 \/ n = 2 \/ n = 5) /\ n <= b /\ 2 * b < 5 * n).
  { unfold n. destruct (Rle_dec 5 b); [ | destruct (Rle_dec 2 b)];
      repeat split; auto; lra. }
  destruct Hn as (Hn1 & Hn2 & Hn3).
  assert (Hn0 : 0 < n) by (destruct Hn1 as [->|[->| ->]]; lra).
  assert (Eq : n * p / mPerPx = n / b * maxWidth).
  { assert (maxWidth = t / mPerPx) by (unfold t; field; lra).
    rewrite H at 1. rewrite Et. field. split; lra. }
  assert (Hq : 2 / 5 * maxWidth < n * p / mPerPx <= maxWidth).
  { rewrite Eq. split.
    - apply Rmult_lt_reg_r with b; [lra|].
      replace (n / b * maxWidth * b) with (n * maxWidth) by (field; lra). nra.
    - apply Rmult_le_reg_r with b; [lra|].
      replace (n / b * maxWidth * b) with (n * maxWidth) by (field; lra). nra. }
  rewrite Rmin_right by lra. rewrite Rmax_right by lra.
  split; [ | split].
  - exists (Zfloor (ScaleControl.log10 t)), n. split; [assumption | reflexivity].
  - field. lra.
  - exact Hq.
Qed.

Lemma scale_bar_witness :
  let bar := ScaleControl._update world_view 150 in
  ScaleControl.widthPx bar *
    GISUtils.getResolution (lat (center world_view)) (zoom world_view) =
  ScaleControl.niceMeters bar.
Proof.
  destruct (scale_bar_is_to_scale world_view 150) as (_ & H & _);
    [ | | exact H];
    cbn [center lat world_view]; rewrite ?MIN_LATITUDE_eq, ?MAX_LATITUDE_eq; lra.
Defined.

(** ** The velocity at the end of a drag *)

Section ReleaseVelocity.

Import DragPanHandler.

Lemma shift_old_suffix (cutoff : R) (samples : list Sample) :
  exists old, samples = old ++ shift_old cutoff samples /\
              Forall (fun s => sample_t s < cutoff) old.
Proof.
  induction samples as [|s rest IH].
  - exists []. split; [reflexivity | constructor].
  - cbn [shift_old]. destruct Rlt_dec as [H|H].
    + destruct IH as (old & E & Hold). exists (s :: old). split.
      * cbn. now rewrite <- E.
      * now constructor.
    + exists []. split; [reflexivity | constructor].
Qed.

Lemma shift_old_head (cutoff : R) (samples : list Sample) :
  match shift_old cutoff samples with
  | [] => True
  | s :: _ => cutoff <= sample_t s
  end.
Proof.
  induction samples as [|s rest IH]; [exact I|].
  cbn [shift_old]. destruct Rlt_dec as [H|H]; [exact IH | lra].
Qed.

Lemma shift_old_keeps (cutoff : R) (l : list Sample) (s : Sample) :
  cutoff <= sample_t s ->
  exists kept, shift_old cutoff (l ++ [s]) = kept ++ [s].
Proof.
  intros Hs. induction l as [|a l IH].
  - cbn. destruct Rlt_dec; [lra|]. now exists [].
  - cbn [app shift_old]. destruct Rlt_dec; [exact IH|]. now exists (a :: l).
Qed.

Lemma sorted_suffix {A : Type} (R : A -> A -> Prop) (l1 l2 : list A) :
  StronglySorted R (l1 ++ l2) -> StronglySorted R l2.
Proof.
  induction l1 as [|a l1 IH]; [auto|].
  cbn. intros H. apply StronglySorted_inv in H. now apply IH.
Qed.

Lemma find_ref_in (t : R) (older : list Sample) : forall s,
  In (find_ref t s older) (s :: older).
Proof.
  induction older as [|s' older IH]; intros s; [now left|].
  cbn [find_ref]. destruct Rlt_dec; [right; apply IH | now left].
Qed.

End ReleaseVelocity.

(** X24.  [_pushVelocitySample] keeps a sliding window: when the clock
    does not run backwards and the samples are in the order of their
    times, the new sample is the last one kept, the samples kept are the
    latest ones, still in the order of their times, and none of them is
    more than [VELOCITY_WINDOW_MS] older than the new one. *)
Theorem pushVelocitySample_window (now x y : R)
    (samples : list DragPanHandler.Sample) :
  StronglySorted (fun a b => DragPanHandler.sample_t a <= DragPanHandler.sample_t b)
    samples ->
  Forall (fun s => DragPanHandler.sample_t s <= now) samples ->
  let kept := DragPanHandler._pushVelocitySample now x y samples in
  (exists old rest,
     samples = old ++ rest /\
     kept = rest ++ [DragPanHandler.mkSample now x y]) /\
  Forall (fun s => now - VELOCITY_WINDOW_MS <= DragPanHandler.sample_t s <= now)
    kept /\
  StronglySorted (fun a b => DragPanHandler.sample_t a <= DragPanHandler.sample_t b)
    kept.
Proof.
  intros Hsorted Hle kept.
  set (new := DragPanHandler.mkSample now x y).
  assert (Hall : StronglySorted
            (fun a b => DragPanHandler.sample_t a <= DragPanHandler.sample_t b)
            (samples ++ [new])).
  { clear kept. induction samples as [|a l IH]; cbn.
    - repeat constructor.
    - inversion Hsorted; subst. inversion Hle; subst.
      constructor; [now apply IH|].
      apply Forall_app. split; [assumption|].
      constructor; [exact H3 | constructor]. }
  unfold kept, DragPanHandler._pushVelocitySample. cbv zeta. fold new.
  destruct (shift_old_suffix (now - VELOCITY_WINDOW_MS) (samples ++ [new]))
    as (old & E & Hold).
  destruct (shift_old_keeps (now - VELOCITY_WINDOW_MS) samples new)
    as (rest & Er).
  { cbn. unfold VELOCITY_WINDOW_MS. lra. }
  rewrite Er in *.
  assert (Es : samples = old ++ rest).
  { rewrite app_assoc in E. now apply app_inj_tail in E. }
  rewrite E in Hall. pose proof (sorted_suffix _ _ _ Hall) as Hkept.
  split; [now exists old, rest|]. split; [ | exact Hkept].
  pose proof (shift_old_head (now - VELOCITY_WINDOW_MS) (samples ++ [new])) as Hh.
  rewrite Er in Hh.
  rewrite Forall_forall. intros s Hs. split.
  - destruct (rest ++ [new]) as [|h r] eqn:Ek; [destruct Hs|].
    destruct Hs as [<-|Hs]; [exact Hh|].
    inversion Hkept as [|? ? _ Hfa]; subst.
    rewrite Forall_forall in Hfa. specialize (Hfa s Hs). lra.
  - apply in_app_or in Hs. destruct Hs as [Hs|[<-|[]]]; [ | cbn; lra].
    rewrite Forall_forall in Hle. apply Hle. rewrite Es.
    apply in_or_app. now right.
Qed.

Lemma pushVelocitySample_witness :
  exists old rest,
    [DragPanHandler.mkSample 0 10 10; DragPanHandler.mkSample 100 20 10] =
      old ++ rest /\
    DragPanHandler._pushVelocitySample 200 30 10
      [DragPanHandler.mkSample 0 10 10; DragPanHandler.mkSample 100 20 10] =
    rest ++ [DragPanHandler.mkSample 200 30 10].
Proof.
  apply (pushVelocitySample_window 200 30 10
           [DragPanHandler.mkSample 0 10 10; DragPanHandler.mkSample 100 20 10]).
  - repeat constructor; cbn; lra.
  - repeat constructor; cbn; lra.
Defined.

(** X25.  [_computeVelocity] on a pointer that moves at a constant
    velocity: when the samples lie on one straight motion and every sample
    before the last is at least one millisecond older than the last, the
    velocity computed is that of the motion, in pixels per millisecond. *)
Theorem computeVelocity_of_steady_drag (x0 y0 vx vy : R)
    (samples : list DragPanHandler.Sample) (last : DragPanHandler.Sample) :
  Forall (fun s => DragPanHandler.sample_x s = x0 + vx * DragPanHandler.sample_t s /\
                   DragPanHandler.sample_y s = y0 + vy * DragPanHandler.sample_t s)
         (samples ++ [last]) ->
  samples <> [] ->
  Forall (fun s => DragPanHandler.sample_t s + 1 <= DragPanHandler.sample_t last)
         samples ->
  DragPanHandler._computeVelocity (samples ++ [last]) = (vx, vy).
Proof.
  intros Hline Hne Hold. unfold DragPanHandler._computeVelocity.
  rewrite rev_app_distr. cbn [rev app].
  destruct (rev samples) as [|s older] eqn:Er.
  { apply (f_equal (@rev _)) in Er. rewrite rev_involutive in Er. contradiction. }
  cbv zeta.
  pose proof (find_ref_in (DragPanHandler.sample_t last) older s) as Hin.
  set (ref := DragPanHandler.find_ref (DragPanHandler.sample_t last) s older) in *.
  assert (Hin' : In ref samples).
  { apply in_rev. now rewrite Er. }
  rewrite Forall_forall in Hold, Hline.
  pose proof (Hold ref Hin') as Hdt.
  destruct (Hline ref (in_or_app _ _ _ (or_introl Hin'))) as [Hx Hy].
  assert (Hlast : In last (samples ++ [last]))
    by (apply in_or_app; right; now left).
  destruct (Hline last Hlast) as [Hxl Hyl].
  rewrite Rmax_right by lra. rewrite Hx, Hy, Hxl, Hyl.
  f_equal; field; lra.
Qed.

Lemma computeVelocity_witness :
  DragPanHandler._computeVelocity
    ([DragPanHandler.mkSample 0 100 50; DragPanHandler.mkSample 16 108 50] ++
     [DragPanHandler.mkSample 32 116 50]) = (1 / 2, 0).
Proof.
  apply (computeVelocity_of_steady_drag 100 50 (1 / 2) 0).
  - repeat constructor; cbn; lra.
  - discriminate.
  - repeat constructor; cbn; lra.
Defined.

(** X26.  A drag that ends without the pointer having moved, a plain
    click included, starts no inertia: with all samples at one position
    [_computeVelocity] returns a zero velocity and [_endDrag] schedules no
    frame. *)
Theorem endDrag_without_movement (m : Atlas) (x y : R)
    (samples : list DragPanHandler.Sample) :
  Forall (fun s => DragPanHandler.sample_x s = x /\ DragPanHandler.sample_y s = y)
         samples ->
  DragPanHandler._computeVelocity samples = (0, 0) /\
  DragPanHandler._endDrag m samples = None.
Proof.
  intros Hsame.
  assert (Hv : DragPanHandler._computeVelocity samples = (0, 0)).
  { unfold DragPanHandler._computeVelocity.
    destruct (rev samples) as [|last [|s older]] eqn:Er; try reflexivity.
    cbv zeta.
    pose proof (find_ref_in (DragPanHandler.sample_t last) older s) as Hin.
    set (ref := DragPanHandler.find_ref (DragPanHandler.sample_t last) s older) in *.
    rewrite Forall_forall in Hsame.
    assert (Hl : In last samples) by (apply in_rev; rewrite Er; now left).
    assert (Hr : In ref samples) by (apply in_rev; rewrite Er; now right).
    destruct (Hsame last Hl) as [-> ->]. destruct (Hsame ref Hr) as [-> ->].
    f_equal; unfold Rdiv; ring. }
  split; [exact Hv|].
  unfold DragPanHandler._endDrag. cbv zeta. rewrite Hv. cbn [fst snd].
  unfold DragPanHandler._startInertia. cbv zeta.
  assert (H0 : JS.hypot 0 0 = 0).
  { unfold JS.hypot. replace (0 * 0 + 0 * 0) with 0 by ring. apply sqrt_0. }
  rewrite H0. unfold INERTIA_STOP_SPEED. destruct Rlt_dec; [reflexivity | lra].
Qed.

Lemma endDrag_click_witness :
  DragPanHandler._endDrag world_view (DragPanHandler._startDrag 1000 300 200) = None.
Proof.
  apply (endDrag_without_movement world_view 300 200).
  unfold DragPanHandler._startDrag, DragPanHandler._pushVelocitySample.
  cbn. destruct Rlt_dec; repeat constructor.
Defined.

(** ** Placing a popup *)

(** X27.  [AtlasPopup._updatePosition] keeps a popup that fits inside the
    map container within it, five pixels off every edge, wherever the
    anchor is; in any case the popup is never put nearer than five pixels
    to the left and upper edges.  It is put above the anchor only when
    there is room above and none below. *)
Theorem popup_stays_inside_map (anchorPoint : Point)
    (popupRect mapRect : AtlasPopup.Size) :
  AtlasPopup.width popupRect + 10 <= AtlasPopup.width mapRect ->
  AtlasPopup.height popupRect + 10 <= AtlasPopup.height mapRect ->
  let p := AtlasPopup._updatePosition anchorPoint popupRect mapRect in
  5 <= AtlasPopup.style_left p /\
  AtlasPopup.style_left p + AtlasPopup.width popupRect
    <= AtlasPopup.width mapRect - 5 /\
  5 <= AtlasPopup.style_top p /\
  AtlasPopup.style_top p + AtlasPopup.height popupRect
    <= AtlasPopup.height mapRect - 5 /\
  (AtlasPopup.position p = AtlasPopup.top ->
   AtlasPopup.height popupRect <= py anchorPoint /\
   AtlasPopup.height mapRect - py anchorPoint < AtlasPopup.height popupRect).
Proof.
  intros Hw Hh p. unfold p, AtlasPopup._updatePosition. cbv zeta.
  cbn [AtlasPopup.style_left AtlasPopup.style_top AtlasPopup.position].
  repeat split.
  - apply Rmax_l.
  - unfold Rmax, Rmin. repeat destruct Rle_dec; lra.
  - apply Rmax_l.
  - unfold Rmax, Rmin. repeat destruct Rle_dec; lra.
  - unfold JS.ltb, JS.leb in H.
    destruct (Rlt_dec (AtlasPopup.height mapRect - py anchorPoint)
                      (AtlasPopup.height popupRect));
      destruct (Rle_dec (AtlasPopup.height popupRect) (py anchorPoint));
      cbn [andb] in H; try lra;
      repeat (destruct Rlt_dec; cbn [andb] in H; try discriminate H;
              destruct Rle_dec; cbn [andb] in H; try discriminate H).
  - unfold JS.ltb, JS.leb in H.
    destruct (Rlt_dec (AtlasPopup.height mapRect - py anchorPoint)
                      (AtlasPopup.height popupRect));
      destruct (Rle_dec (AtlasPopup.height popupRect) (py anchorPoint));
      cbn [andb] in H; try lra;
      repeat (destruct Rlt_dec; cbn [andb] in H; try discriminate H;
              destruct Rle_dec; cbn [andb] in H; try discriminate H).
Qed.

Lemma popup_witness :
  let p := AtlasPopup._updatePosition (mkPoint 1000 500)
             (AtlasPopup.mkSize 300 120) (AtlasPopup.mkSize 1024 512) in
  5 <= AtlasPopup.style_left p /\
  AtlasPopup.style_left p + 300 <= 1024 - 5.
Proof.
  destruct (popup_stays_inside_map (mkPoint 1000 500)
              (AtlasPopup.mkSize 300 120) (AtlasPopup.mkSize 1024 512))
    as (H1 & H2 & _); cbn [AtlasPopup.width AtlasPopup.height]; try lra.
  cbn [AtlasPopup.width] in H2. split; assumption.
Defined.

(** ** Interaction handlers *)

Section Handlers.

Import TileLayer Handler.

Context {A : Type} (p : A -> bool).

Lemma map_has_get (k : string) (m : list (string * A)) :
  map_has k m = match map_get k m with Some _ => true | None => false end.
Proof.
  unfold map_has, map_get. induction m as [|[k' v] m IH]; [reflexivity|].
  cbn [existsb find fst]. destruct (String.eqb k' k); [reflexivity | exact IH].
Qed.

Lemma map_get_cons (k k' : string) (v : A) (m : list (string * A)) :
  map_get k ((k', v) :: m) = if String.eqb k' k then Some v else map_get k m.
Proof. unfold map_get. cbn [find fst]. now destruct (String.eqb k' k). Qed.

Lemma map_get_notin (k : string) (m : list (string * A)) :
  ~ In k (map fst m) -> map_get k m = None.
Proof.
  induction m as [|[k' v] m IH]; [reflexivity|]. cbn [map fst In]. intros H.
  rewrite map_get_cons. destruct (String.eqb_spec k' k) as [E|E].
  - exfalso. apply H. now left.
  - apply IH. intros Hin. apply H. now right.
Qed.

Lemma map_get_in (k : string) (m : list (string * A)) :
  map_get k m = None -> ~ In k (map fst m).
Proof.
  induction m as [|[k' v] m IH]; [intros _ []|]. rewrite map_get_cons.
  destruct (String.eqb_spec k' k) as [E|E]; [discriminate|].
  intros H [H'|H']; [contradiction | now apply IH].
Qed.

(** Writing a value under a key that is taken keeps the keys and trades
    the old value for the new one. *)
Lemma map_set_taken (k : string) (v h : A) (m : list (string * A)) :
  NoDup (map fst m) -> map_get k m = Some h ->
  map fst (map_set k v m) = map fst m /\
  (List.length (filter (fun e => p (snd e)) (map_set k v m))
     + (if p h then 1 else 0) =
   List.length (filter (fun e => p (snd e)) m) + (if p v then 1 else 0))%nat.
Proof.
  intros Hnd Hg. unfold map_set. rewrite map_has_get, Hg.
  induction m as [|[k' v'] m IH]; [discriminate|].
  cbn [map fst] in Hnd. inversion Hnd as [|? ? Hk Hnd']; subst.
  rewrite map_get_cons in Hg. cbn [map fst filter snd].
  destruct (String.eqb_spec k' k) as [E|E].
  - injection Hg as ->. subst k'.
    assert (Hrest : map (fun e : string * A => if String.eqb (fst e) k then (k, v) else e) m = m).
    { clear IH Hnd Hnd'. induction m as [|[k2 v2] m IH]; [reflexivity|].
      cbn [map fst] in *. destruct (String.eqb_spec k2 k) as [E|E].
      - subst. exfalso. apply Hk. now left.
      - f_equal. apply IH. intros Hin. apply Hk. now right. }
    rewrite Hrest. cbn [fst snd]. split; [reflexivity|].
    destruct (p v), (p h); cbn [List.length]; lia.
  - destruct (IH Hnd' Hg) as [IH1 IH2]. cbn [fst snd]. split.
    + now rewrite IH1.
    + destruct (p v'); cbn [List.length]; lia.
Qed.

Lemma map_set_free (k : string) (v : A) (m : list (string * A)) :
  map_get k m = None ->
  map_set k v m = m ++ [(k, v)].
Proof. intros Hg. unfold map_set. now rewrite map_has_get, Hg. Qed.

Lemma map_delete_taken (k : string) (h : A) (m : list (string * A)) :
  NoDup (map fst m) -> map_get k m = Some h ->
  NoDup (map fst (map_delete k m)) /\
  map_get k (map_delete k m) = None /\
  (List.length (filter (fun e => p (snd e)) (map_delete k m))
     + (if p h then 1 else 0) =
   List.length (filter (fun e => p (snd e)) m))%nat.
Proof.
  intros Hnd Hg. unfold map_delete.
  induction m as [|[k' v'] m IH]; [discriminate|].
  cbn [map fst] in Hnd. inversion Hnd as [|? ? Hk Hnd']; subst.
  rewrite map_get_cons in Hg. cbn [filter fst snd].
  destruct (String.eqb_spec k' k) as [E|E]; cbn [negb].
  - injection Hg as ->. subst k'.
    assert (Hrest : filter (fun e : string * A => negb (String.eqb (fst e) k)) m = m).
    { clear IH Hnd Hnd'. induction m as [|[k2 v2] m IH]; [reflexivity|].
      cbn [map fst filter] in *. destruct (String.eqb_spec k2 k) as [E|E].
      - subst. exfalso. apply Hk. now left.
      - cbn [negb]. f_equal. apply IH. intros Hin. apply Hk. now right. }
    rewrite Hrest. repeat split; [assumption | now apply map_get_notin | ].
    destruct (p h); cbn [List.length]; lia.
  - destruct (IH Hnd' Hg) as (IH1 & IH2 & IH3). repeat split.
    + cbn [map fst]. constructor; [ | assumption].
      intros Hin. apply Hk. apply in_map_iff in Hin.
      destruct Hin as (e & <- & He%filter_In). apply in_map. tauto.
    + rewrite map_get_cons. apply String.eqb_neq in E. now rewrite E.
    + cbn [filter snd]. destruct (p v'); cbn [List.length]; lia.
Qed.

End Handlers.

Section HandlerCalls.

Import TileLayer Handler.

(** The invariant of the handler table: the names are distinct, none of
    them is a name of a member of [Object.prototype], and the listeners of
    exactly the enabled handlers are attached. *)
Lemma handler_calls_balanced (cs : list Call) : forall m,
  NoDup (map fst (_handlers m)) /\ attached m = enabled_count m /\
  Forall (fun k => Events.ordinary k = true) (map fst (_handlers m)) ->
  NoDup (map fst (_handlers (calls cs m))) /\
  attached (calls cs m) = enabled_count (calls cs m) /\
  Forall (fun k => Events.ordinary k = true) (map fst (_handlers (calls cs m))).
Proof.
  set (Inv := fun m : HandlerMap =>
         NoDup (map fst (_handlers m)) /\ attached m = enabled_count m /\
         Forall (fun k => Events.ordinary k = true) (map fst (_handlers m))).
  assert (Hen : forall n m, Inv m -> Inv (enable n m)).
  { intros n m (Hnd & Ha & Ho). unfold enable.
    destruct (map_get n (_handlers m)) as [h|] eqn:Eg; [ | now repeat split].
    destruct (_enabled h) eqn:Eh; [now repeat split|].
    destruct (map_set_taken _enabled n (mkHandler true) h _ Hnd Eg) as [Hk Hc].
    unfold Inv. cbn [_handlers attached]. rewrite Hk.
    split; [assumption|]. split; [ | assumption].
    unfold enabled_count in *. cbn [_handlers]. rewrite Eh in Hc.
    cbn [_enabled] in Hc. lia. }
  assert (Hdis : forall n m, Inv m -> Inv (disable n m)).
  { intros n m (Hnd & Ha & Ho). unfold disable.
    destruct (map_get n (_handlers m)) as [h|] eqn:Eg; [ | now repeat split].
    destruct (_enabled h) eqn:Eh; [ | now repeat split].
    destruct (map_set_taken _enabled n (mkHandler false) h _ Hnd Eg) as [Hk Hc].
    unfold Inv. cbn [_handlers attached]. rewrite Hk.
    split; [assumption|]. split; [ | assumption].
    unfold enabled_count in *. cbn [_handlers]. rewrite Eh in Hc.
    cbn [_enabled] in Hc. lia. }
  induction cs as [|c cs IH]; intros m Hm; [exact Hm|].
  cbn [calls fold_left]. apply IH. fold (Inv m) in Hm. fold (Inv (call c m)).
  destruct c as [n|n|n|n|n]; cbn [call].
  - unfold addHandler, lookup.
    destruct (map_get n (_handlers m)) as [h|] eqn:Eg; [exact Hm|].
    destruct (Events.ordinary n) eqn:En; [ | exact Hm].
    apply Hen. destruct Hm as (Hnd & Ha & Ho). unfold Inv.
    cbn [_handlers attached].
    rewrite (map_set_free n _ _ Eg), map_app. cbn [map fst]. split; [ | split].
    + apply NoDup_app; auto.
      * repeat constructor. intros [].
      * intros k Hk [<-|[]]. now apply (map_get_in n _ Eg).
    + unfold enabled_count in *. cbn [_handlers].
      rewrite filter_app, length_app. cbn. lia.
    + apply Forall_app. split; [assumption | now repeat constructor].
  - unfold removeHandler, lookup.
    destruct (map_get n (_handlers m)) as [h|] eqn:Eg;
      [ | destruct (Events.ordinary n); exact Hm].
    cbn [state].
    destruct (Hdis n m Hm) as (Hnd & Ha & Ho).
    assert (Eg' : exists h', map_get n (_handlers (disable n m)) = Some h' /\
                             _enabled h' = false).
    { unfold disable. rewrite Eg. destruct (_enabled h) eqn:Eh.
      - cbn [_handlers]. exists (mkHandler false). split; [ | reflexivity].
        apply map_get_set_same.
      - now exists h. }
    destruct Eg' as (h' & Eg' & Eh').
    destruct (map_delete_taken _enabled n h' _ Hnd Eg') as (Hd1 & _ & Hd3).
    unfold Inv. cbn [_handlers attached]. split; [assumption|]. split.
    + unfold enabled_count in *. cbn [_handlers]. rewrite Eh' in Hd3. lia.
    + rewrite Forall_forall in *. intros k Hk. apply Ho.
      apply in_map_iff in Hk. destruct Hk as (e & <- & He).
      apply in_map. unfold map_delete in He. now apply filter_In in He.
  - unfold enableHandler, lookup.
    destruct (map_get n (_handlers m)) as [h|] eqn:Eg;
      [ | destruct (Events.ordinary n); exact Hm].
    cbn [state]. now apply Hen.
  - unfold disableHandler, lookup.
    destruct (map_get n (_handlers m)) as [h|] eqn:Eg;
      [ | destruct (Events.ordinary n); exact Hm].
    cbn [state]. now apply Hdis.
  - unfold toggle. destruct (map_get n (_handlers m)) as [h|]; [ | exact Hm].
    destruct (_enabled h); [now apply Hdis | now apply Hen].
Qed.

End HandlerCalls.

(** X28.  The handlers of the map: after any sequence of [addHandler],
    [removeHandler], [enableHandler], [disableHandler] and [toggle] calls
    on a new map, also when some of them throw, the listeners of exactly
    the enabled handlers are attached, each once, and no handler is
    registered under a name of a member of [Object.prototype].  For any
    other name, removing the handler leaves none under the name, and
    adding a handler under a name that is taken changes nothing.  For a
    name of a member of [Object.prototype] ([toString], [constructor],
    ...), [addHandler] adds nothing and [removeHandler], [enableHandler]
    and [disableHandler] throw. *)
Theorem handlers_attached_once (cs : list Handler.Call) (name : string) :
  let m := Handler.calls cs Handler.new in
  Handler.attached m = Handler.enabled_count m /\
  Forall (fun e => Events.ordinary (fst e) = true) (Handler._handlers m) /\
  (Events.ordinary name = true ->
   (exists m', Handler.removeHandler name m = Handler.Returns m' /\
               TileLayer.map_get name (Handler._handlers m') = None) /\
   Handler.addHandler name (Handler.addHandler name m) = Handler.addHandler name m /\
   TileLayer.map_get name (Handler._handlers (Handler.addHandler name m))
     = Some (match TileLayer.map_get name (Handler._handlers m) with
             | Some h => h
             | None => Handler.mkHandler true
             end)) /\
  (Events.ordinary name = false ->
   Handler.addHandler name m = m /\
   Handler.removeHandler name m = Handler.Throws m /\
   Handler.enableHandler name m = Handler.Throws m /\
   Handler.disableHandler name m = Handler.Throws m).
Proof.
  intros m.
  destruct (handler_calls_balanced cs Handler.new) as (Hnd & Ha & Ho).
  { split; [constructor | split; [reflexivity | constructor]]. }
  fold m in Hnd, Ha, Ho.
  split; [exact Ha|]. split.
  { rewrite Forall_forall in *. intros e He. apply Ho. now apply in_map. }
  split.
  - intros Hn.
    assert (Hadd : TileLayer.map_get name
                     (Handler._handlers (Handler.addHandler name m))
      = Some (match TileLayer.map_get name (Handler._handlers m) with
              | Some h => h
              | None => Handler.mkHandler true
              end)).
    { unfold Handler.addHandler, Handler.lookup.
      destruct (TileLayer.map_get name (Handler._handlers m)) as [h|] eqn:Eg;
        [exact Eg|].
      rewrite Hn. unfold Handler.enable. cbn [Handler._handlers].
      rewrite map_get_set_same. cbn [Handler._enabled Handler._handlers].
      apply map_get_set_same. }
    split; [ | split; [ | exact Hadd]].
    + unfold Handler.removeHandler, Handler.lookup.
      destruct (TileLayer.map_get name (Handler._handlers m)) as [h|] eqn:Eg.
      * eexists. split; [reflexivity|]. cbn [Handler._handlers].
        destruct (handler_calls_balanced [Handler.CallDisable name] m
                    (conj Hnd (conj Ha Ho))) as (Hnd' & _).
        cbn [Handler.calls fold_left Handler.call] in Hnd'.
        unfold Handler.disableHandler, Handler.lookup in Hnd'.
        rewrite Eg in Hnd'. cbn [Handler.state] in Hnd'.
        assert (Eg' : exists h', TileLayer.map_get name
                        (Handler._handlers (Handler.disable name m)) = Some h').
        { unfold Handler.disable. rewrite Eg. destruct (Handler._enabled h).
          - cbn [Handler._handlers]. eexists. apply map_get_set_same.
          - now exists h. }
        destruct Eg' as (h' & Eg').
        now destruct (map_delete_taken Handler._enabled name h' _ Hnd' Eg')
          as (_ & H & _).
      * rewrite Hn. exists m. split; [reflexivity | exact Eg].
    + unfold Handler.addHandler at 1. unfold Handler.lookup. now rewrite Hadd.
  - intros Hn.
    assert (Eg : TileLayer.map_get name (Handler._handlers m) = None).
    { apply map_get_notin. intros Hin. rewrite Forall_forall in Ho.
      specialize (Ho name Hin). congruence. }
    unfold Handler.addHandler, Handler.removeHandler, Handler.enableHandler,
      Handler.disableHandler, Handler.lookup.
    rewrite Eg, Hn. repeat split; reflexivity.
Qed.

(** ** Scheduling of the drawing *)

(** X29.  [render()] calls are coalesced: however many times [render] is
    called between two animation frames, once or more, one callback waits
    for the frame, the frame draws once, and afterwards nothing is
    scheduled. *)
Theorem render_calls_coalesce (n d : nat) :
  RenderLoop.waiting (Nat.iter (S n) RenderLoop.render (RenderLoop.idle d)) = 1%nat /\
  RenderLoop.frame (Nat.iter (S n) RenderLoop.render (RenderLoop.idle d)) =
    RenderLoop.idle (d + 1) /\
  RenderLoop.frame (RenderLoop.idle d) = RenderLoop.idle d.
Proof.
  assert (H : Nat.iter (S n) RenderLoop.render (RenderLoop.idle d) =
              RenderLoop.mkState true 1 d).
  { induction n as [|n IH]; [reflexivity|].
    change (Nat.iter (S (S n)) RenderLoop.render (RenderLoop.idle d))
      with (RenderLoop.render (Nat.iter (S n) RenderLoop.render (RenderLoop.idle d))).
    now rewrite IH. }
  rewrite H. repeat split.
  unfold RenderLoop.frame, RenderLoop.idle. cbn. f_equal. lia.
Qed.

(** ** The life of a tile load *)

Section TileLoadLife.

Import TileLayer.

Lemma set_has_delete (k : string) (s : list string) :
  set_has k (set_delete k s) = false.
Proof.
  unfold set_has, set_delete. induction s as [|a s IH]; [reflexivity|].
  cbn [filter]. destruct (String.eqb_spec a k) as [E|E]; cbn [negb].
  - exact IH.
  - cbn [existsb]. rewrite IH, orb_false_r. apply String.eqb_neq. congruence.
Qed.

Lemma set_has_add (k : string) (s : list string) : set_has k (set_add k s) = true.
Proof.
  unfold set_add. destruct (set_has k s) eqn:E; [exact E|].
  unfold set_has. rewrite existsb_app. cbn. now rewrite String.eqb_refl, !orb_true_r.
Qed.

Lemma map_get_delete_same {A : Type} (k : string) (m : list (string * A)) :
  map_get k (map_delete k m) = None.
Proof.
  unfold map_get, map_delete. induction m as [|[k' v] m IH]; [reflexivity|].
  cbn [filter fst]. destruct (String.eqb k' k) eqn:E; cbn [negb]; [exact IH|].
  cbn [find fst]. now rewrite E.
Qed.

Lemma map_get_app_new {A : Type} (k : string) (v : A) (m : list (string * A)) :
  map_get k m = None -> map_get k (m ++ [(k, v)]) = Some v.
Proof.
  unfold map_get. induction m as [|[k' v'] m IH]; cbn [app find fst].
  - now rewrite String.eqb_refl.
  - destruct (String.eqb k' k); [discriminate | exact IH].
Qed.

Lemma update_tile_fresh (id : nat) (f : Tile -> Tile) (c : list (string * Tile)) :
  Forall (fun e => (tile_id (snd e) < id)%nat) c -> update_tile id f c = c.
Proof.
  unfold update_tile. induction 1 as [|e c He Hc IH]; [reflexivity|].
  cbn [map]. rewrite IH. destruct (Nat.eqb_spec (tile_id (snd e)) id); [lia|].
  reflexivity.
Qed.

Lemma nth_error_new_load (ls : list Load) (ld : Load) :
  nth_error (ls ++ [ld]) (List.length ls) = Some ld.
Proof. rewrite nth_error_app2, Nat.sub_diag by lia. reflexivity. Qed.

Lemma update_new_load (f : Load -> Load) (ls : list Load) (ld : Load) :
  update_load (List.length ls) f (ls ++ [ld]) = ls ++ [f ld].
Proof. induction ls as [|a ls IH]; [reflexivity|]. cbn. now rewrite IH. Qed.

End TileLoadLife.

(** X30.  The life of a tile load.  A request for a key without a record
    starts a load; when its image arrives, the record under the key is
    marked loaded at that time, the key is no longer loading, one
    [tileload] event has been fired, the promise is fulfilled, the timeout
    of the load does nothing any more and every later request for the key
    is answered from the cache.  When instead the timeout comes first, the
    record is deleted, the key is no longer loading, one [tileerror] event
    has been fired, the promise is rejected and the controller aborted,
    and the next request for the key starts a new load. *)
Theorem tile_load_life_cycle (key url : string) (now later : Z)
    (l : TileLayer.Layer) :
  TileLayer.map_get key (TileLayer.tileCache l) = None ->
  Forall (fun e => (TileLayer.tile_id (snd e) < List.length (TileLayer.loads l))%nat)
         (TileLayer.tileCache l) ->
  let id := List.length (TileLayer.loads l) in
  let l1 := fst (TileLayer._loadTile key url now l) in
  let arrived := TileLayer.img_onload id later l1 in
  let timed_out := TileLayer.on_timeout id l1 in
  (TileLayer.map_get key (TileLayer.tileCache arrived) =
     Some (TileLayer.mkTile id true later now) /\
   TileLayer.set_has key (TileLayer.loadingTiles arrived) = false /\
   TileLayer.fired arrived = TileLayer.tileload key url :: TileLayer.fired l /\
   option_map TileLayer.promise (nth_error (TileLayer.loads arrived) id) =
     Some TileLayer.Fulfilled /\
   TileLayer.on_timeout id arrived = arrived /\
   (forall (url' : string) (now' : Z),
      TileLayer._loadTile key url' now' arrived =
      (arrived, TileLayer.Cached (TileLayer.mkTile id true later now)))) /\
  (TileLayer.map_get key (TileLayer.tileCache timed_out) = None /\
   TileLayer.set_has key (TileLayer.loadingTiles timed_out) = false /\
   TileLayer.fired timed_out =
     TileLayer.tileerror key url TileLayer.CauseTimeout :: TileLayer.fired l /\
   option_map TileLayer.promise (nth_error (TileLayer.loads timed_out) id) =
     Some TileLayer.Rejected /\
   option_map TileLayer.aborted (nth_error (TileLayer.loads timed_out) id) =
     Some true /\
   (forall (url' : string) (now' : Z),
      snd (TileLayer._loadTile key url' now' timed_out) = TileLayer.Loading (S id))).
Proof.
  intros Hnone Hfresh id l1 arrived timed_out.
  assert (Hhas : TileLayer.map_has key (TileLayer.tileCache l) = false).
  { rewrite map_has_get. now rewrite Hnone. }
  assert (E1 : l1 = TileLayer.mkLayer (TileLayer.urlTemplate l)
                 (TileLayer.supportsRetina l) (TileLayer.maxCacheSize l)
                 (TileLayer._retinaAvailable l)
                 (TileLayer.tileCache l ++ [(key, TileLayer.mkTile id false now now)])
                 (TileLayer.set_add key (TileLayer.loadingTiles l))
                 (TileLayer.map_set key id (TileLayer.loadingControllers l))
                 (TileLayer.loads l ++
                    [TileLayer.mkLoad key url url true false true TileLayer.Pending])
                 (TileLayer.fired l)).
  { unfold l1, TileLayer._loadTile. rewrite Hnone. cbn [fst].
    unfold TileLayer.map_set at 1. now rewrite Hhas. }
  split.
  - assert (Ea : TileLayer.tileCache arrived =
                 TileLayer.tileCache l ++ [(key, TileLayer.mkTile id true later now)]).
    { unfold arrived, TileLayer.img_onload. rewrite E1.
      cbn [TileLayer.loads]. unfold id. rewrite nth_error_new_load.
      cbn [TileLayer.img_loading TileLayer.tileCache TileLayer.set_tileCache
           TileLayer.forget_loading TileLayer.fire TileLayer.set_loads].
      unfold TileLayer.update_tile. rewrite map_app.
      fold (TileLayer.update_tile (List.length (TileLayer.loads l))
              (fun t => TileLayer.mkTile (TileLayer.tile_id t) true later
                          (TileLayer.lastUsed t)) (TileLayer.tileCache l)).
      rewrite update_tile_fresh by assumption.
      cbn [map snd fst TileLayer.tile_id TileLayer.lastUsed].
      now rewrite Nat.eqb_refl. }
    assert (Eg : TileLayer.map_get key (TileLayer.tileCache arrived) =
                 Some (TileLayer.mkTile id true later now)).
    { rewrite Ea. now apply map_get_app_new. }
    split; [exact Eg|]. split; [ | split; [ | split; [ | split]]].
    + unfold arrived, TileLayer.img_onload. rewrite E1.
      cbn [TileLayer.loads]. unfold id. rewrite nth_error_new_load.
      cbn. apply set_has_delete.
    + unfold arrived, TileLayer.img_onload. rewrite E1.
      cbn [TileLayer.loads]. unfold id. rewrite nth_error_new_load.
      reflexivity.
    + unfold arrived, TileLayer.img_onload. rewrite E1.
      cbn [TileLayer.loads]. unfold id. rewrite nth_error_new_load.
      cbn [TileLayer.img_loading TileLayer.loads TileLayer.set_loads
           TileLayer.fire TileLayer.forget_loading TileLayer.set_tileCache].
      now rewrite update_new_load, nth_error_new_load.
    + unfold TileLayer.on_timeout.
      assert (En : nth_error (TileLayer.loads arrived) id =
                   Some (TileLayer.mkLoad key url url false false false
                           TileLayer.Fulfilled)).
      { unfold arrived, TileLayer.img_onload. rewrite E1.
        cbn [TileLayer.loads]. unfold id. rewrite nth_error_new_load.
        cbn [TileLayer.img_loading TileLayer.loads TileLayer.set_loads
             TileLayer.fire TileLayer.forget_loading TileLayer.set_tileCache].
        now rewrite update_new_load, nth_error_new_load. }
      now rewrite En.
    + intros url' now'. unfold TileLayer._loadTile. now rewrite Eg.
  - assert (Et : timed_out =
       TileLayer.mkLayer (TileLayer.urlTemplate l)
         (TileLayer.supportsRetina l) (TileLayer.maxCacheSize l)
         (TileLayer._retinaAvailable l)
         (TileLayer.map_delete key
            (TileLayer.tileCache l ++ [(key, TileLayer.mkTile id false now now)]))
         (TileLayer.set_delete key (TileLayer.set_add key (TileLayer.loadingTiles l)))
         (TileLayer.map_delete key
            (TileLayer.map_set key id (TileLayer.loadingControllers l)))
         (TileLayer.loads l ++
            [TileLayer.mkLoad key url url true true false TileLayer.Rejected])
         (TileLayer.tileerror key url TileLayer.CauseTimeout :: TileLayer.fired l)).
    { unfold timed_out, TileLayer.on_timeout. rewrite E1.
      cbn [TileLayer.loads]. unfold id. rewrite nth_error_new_load.
      cbn [TileLayer.timer_armed TileLayer.load_key TileLayer.loadingTiles].
      rewrite set_has_add.
      cbn [TileLayer.forget_loading TileLayer.set_tileCache TileLayer.fire
           TileLayer.set_loads TileLayer.loads TileLayer.tileCache
           TileLayer.load_url TileLayer.load_key TileLayer.urlTemplate
           TileLayer.supportsRetina TileLayer.maxCacheSize
           TileLayer._retinaAvailable TileLayer.loadingTiles
           TileLayer.loadingControllers TileLayer.fired].
      now rewrite update_new_load. }
    rewrite Et. cbn [TileLayer.tileCache TileLayer.loadingTiles TileLayer.fired
                     TileLayer.loads].
    split; [apply map_get_delete_same|]. split; [apply set_has_delete|].
    split; [reflexivity|]. unfold id.
    rewrite nth_error_new_load. cbn [option_map TileLayer.promise TileLayer.aborted].
    split; [reflexivity|]. split; [reflexivity|].
    intros url' now'. unfold TileLayer._loadTile.
    cbn [TileLayer.tileCache]. rewrite map_get_delete_same. cbn [snd TileLayer.loads].
    rewrite length_app. cbn. f_equal. lia.
Qed.

Lemma tile_load_witness :
  TileLayer.map_get "3/1/2"
    (TileLayer.tileCache
       (TileLayer.img_onload 0 1250
          (fst (TileLayer._loadTile "3/1/2"
                  "https://a.tile.openstreetmap.org/3/1/2.png" 1000 OSM_layer)))) =
  Some (TileLayer.mkTile 0 true 1250 1000).
Proof.
  destruct (tile_load_life_cycle "3/1/2"
              "https://a.tile.openstreetmap.org/3/1/2.png" 1000 1250 OSM_layer)
    as ((H & _) & _); [reflexivity | constructor | exact H].
Defined.
